(** * omc3: correction handler, beta from phase, k-modulation, BBQ tools

    A shallow embedding of
      - [omc3/correction/handler.py]
      - [omc3/optics_measurements/beta_from_phase.py]
      - [omc3/kmod/kmod_analysis.py]
      - [omc3/tune_analysis/bbq_tools.py]
    followed by the properties proved about them.

    Conventions.  numpy/pandas floats are modelled by exact numbers:
    rationals [Q] where the code only adds, multiplies and compares, reals
    [R] in the k-modulation module, whose error formula takes a square
    root.  A Python exception is a value of [exn]; a function that may raise
    returns [Result A].  Library calls whose result the code only passes on
    (SVD pseudo-inverse solvers, MAD-X, scipy minimisation, regular
    expressions, pandas rolling windows) are fields of a record of
    externals that every definition using them takes as an argument. *)

From Stdlib Require Import Ascii String QArith Qabs Qround Reals Psatz.
From stdpp Require Import base list strings pretty gmap.

(** ** Python runtime: exceptions, results *)

Inductive exn : Set :=
  | ValueError
  | TypeError
  | KeyError
  | IndexError
  | NotImplementedError
  | IOError.

(** Modelled from the spec: section 7 of the specification files under
    "InvalidInput" the errors the code raises as [ValueError] (no
    variables found, a solver option missing, too many points filtered)
    and as [NotImplementedError] (fine cleaning with only one of its two
    options); the exception classes themselves are the code's. *)
Definition is_InvalidInput (e : exn) : bool :=
  match e with
  | ValueError | NotImplementedError => true
  | _ => false
  end.

Definition Result (A : Type) : Type := exn + A.

Definition raise {A : Type} (e : exn) : Result A := inl e.

#[global] Instance result_ret : MRet (sum exn) := λ A a, inr a.
#[global] Instance result_bind : MBind (sum exn) :=
  λ A B f r, match r with inl e => inl e | inr a => f a end.
#[global] Instance result_fmap : FMap (sum exn) :=
  λ A B f r, match r with inl e => inl e | inr a => inr (f a) end.

(** [d[k]] on a dict: [KeyError] when the key is missing. *)
Definition getitem {V : Type} (d : gmap string V) (k : string) : Result V :=
  match d !! k with Some v => mret v | None => raise KeyError end.

(** Lookup in an ordered list of labelled entries (the first match). *)
Fixpoint assoc {V : Type} (k : string) (l : list (string * V)) : option V :=
  match l with
  | [] => None
  | (k', v) :: l' => if String.eqb k' k then Some v else assoc k l'
  end.

(** ** Strings: the [str] and [os.path] functions the code calls *)

Definition slash : ascii := "/"%char.

Definition is_slash (c : ascii) : bool := Ascii.eqb c slash.

(** [s.startswith(p)] *)
Definition startswith (s p : string) : bool := String.prefix p s.

(** [c.lower()] on one character. *)
Definition lower_ascii (c : ascii) : ascii :=
  let n := nat_of_ascii c in
  if (65 <=? n)%nat && (n <=? 90)%nat then ascii_of_nat (n + 32) else c.

(** [key[-1].lower()]; [IndexError] on the empty string cannot arise where
    this is called, every caller has matched a non-empty prefix before. *)
Definition last_lower (key : string) : string :=
  match rev (list_ascii_of_string key) with
  | [] => EmptyString
  | c :: _ => String (lower_ascii c) EmptyString
  end.

Fixpoint drop_while {A : Type} (p : A → bool) (l : list A) : list A :=
  match l with
  | [] => []
  | x :: l' => if p x then drop_while p l' else l
  end.

(** [posixpath.dirname]: the text up to the last slash, trailing slashes
    stripped unless the head consists of slashes only. *)
Definition dirname (p : string) : string :=
  let head_rev := drop_while (λ c, negb (is_slash c)) (rev (list_ascii_of_string p)) in
  let head_rev' :=
    if forallb is_slash head_rev then head_rev else drop_while is_slash head_rev in
  string_of_list_ascii (rev head_rev').

(** [posixpath.join] of two components. *)
Definition path_join (a b : string) : string :=
  if startswith b "/" then b
  else match rev (list_ascii_of_string a) with
       | [] => b
       | c :: _ => if is_slash c then a +:+ b else a +:+ "/" +:+ b
       end.

(** No slash in a file name; a directory written with a trailing slash. *)
Definition no_slash (name : string) : bool :=
  forallb (λ c, negb (is_slash c)) (list_ascii_of_string name).

Definition ends_with_slash (dir : string) : bool :=
  match rev (list_ascii_of_string dir) with
  | c :: _ => is_slash c
  | [] => false
  end.

(** [s.split(sep)]. *)
Fixpoint split_on (sep : ascii) (s : string) : list string :=
  match s with
  | EmptyString => [EmptyString]
  | String c s' =>
      if Ascii.eqb c sep then EmptyString :: split_on sep s'
      else match split_on sep s' with
           | [] => [String c EmptyString]
           | w :: ws => String c w :: ws
           end
  end.

(** ** Rational helpers *)

(** [abs(v) > m] on floats. *)
Definition abs_gt (v m : Q) : bool := negb (Qle_bool (Qabs v) m).

(** [np.remainder(x, 1)]: [x - floor(x)]. *)
Definition remainder1 (x : Q) : Q := (x - inject_Z (Qfloor x))%Q.

Definition Qsum (l : list Q) : Q := foldr Qplus 0%Q l.

(** * correction/handler.py *)

Module Handler.
Local Open Scope Q_scope.

(** A labelled table: header map, row labels, named columns in order. *)
Record DataFrame : Type := {
  headers : gmap string Q;
  index : list string;
  columns : list (string * list Q)
}.

(** Modelled from the spec: the column names of [correction.constants],
    which section 3 of the specification spells DELTA, DIFF, WEIGHT, VALUE
    and ERROR. *)
Definition DELTA : string := "DELTA".
Definition DIFF : string := "DIFF".
Definition WEIGHT : string := "WEIGHT".
Definition VALUE : string := "VALUE".
Definition ERROR : string := "ERROR".

(** [df.loc[:, col].values] *)
Definition column (df : DataFrame) (col : string) : Result (list Q) :=
  match assoc col (columns df) with Some c => mret c | None => raise KeyError end.

(** [TfsDataFrame.__getitem__]: a column when there is one of that name,
    the header entry otherwise. *)
Inductive Item : Type :=
  | ItemColumn (c : list Q)
  | ItemHeader (h : Q).

Definition df_getitem (df : DataFrame) (key : string) : Result Item :=
  match assoc key (columns df) with
  | Some c => mret (ItemColumn c)
  | None => match headers df !! key with
            | Some h => mret (ItemHeader h)
            | None => raise KeyError
            end
  end.

(** The Delta Vector: rows (corrector name, DELTA value) in index order. *)
Definition Delta : Type := list (string * Q).

(** The combined response matrix: labelled columns in order. *)
Definition ResponseMatrix : Type := list (string * list Q).

(** What a run writes to disk. *)
Inductive File : Type :=
  | ParamFile (lines : list (string * Q))
  | KnobFile (hdrs : list (string * string)) (save_index : string) (rows : Delta).

Record Opt : Type := {
  optics_params : list string;
  meas_dir : string;
  beta_file_name : string;
  weights : gmap string Q;
  fullresponse_path : option string;
  variable_categories : list string;
  virt_flag : bool;
  max_iter : Z;
  output_dir : string;
  change_params_path : string;
  change_params_correct_path : string;
  knob_path : string;
  update_response : bool;
  method : string;
  svd_cut : option Q;
  n_correctors : option nat;
  min_corrector_strength : Q
}.

(** The externals of the handler.  [Model] is the lattice model table as
    the other packages of the repository see it. *)
Record World : Type := {
  Model : Type;
  (* optics_measurements.constants *)
  EXT : string;
  PHASE_NAME : string;
  DISPERSION_NAME : string;
  NORM_DISP_NAME : string;
  (* tfs.read(path, index="NAME") and pickle.load *)
  tfs_read : string → Result DataFrame;
  load_pickle : string → Result (gmap string DataFrame);
  (* the accelerator instance *)
  get_variables : list string → list string;
  accel_model : Model;
  accel_elements : Model;
  get_element_types_mask : Model → Model;
  (* correction.optics_class, response_twiss, filters, model_appenders *)
  add_coupling : Model → Model;
  create_response : Model → Model → list string → list string → gmap string DataFrame;
  filter_measurement :
    list string → gmap string DataFrame → Model → Opt → gmap string DataFrame;
  append_model_to_measurement :
    Model → gmap string DataFrame → list string → gmap string DataFrame;
  filter_response_index :
    gmap string DataFrame → gmap string DataFrame → list string → gmap string DataFrame;
  (* MAD-X run on the update script; reads the change-parameter file *)
  madx_twiss : gmap string File → string → string → Result Model;
  (* np.dot(np.linalg.pinv(R, cut), d) and OrthogonalMatchingPursuit(n).fit(R, d).coef_ *)
  pinv_solve : ResponseMatrix → Q → list Q → list Q;
  omp_solve : nat → ResponseMatrix → list Q → list Q;
  (* time.time() and datetime.fromtimestamp(t).ctime() *)
  time_now : Q;
  ctime : Q → string
}.

(** [read_meas] *)
Definition read_meas (W : World) (meas_dir filename : string) : Result DataFrame :=
  tfs_read W (path_join meas_dir filename).

(** [_get_varlist] *)
Definition _get_varlist (W : World) (variables : list string) (virt_flag : bool)
  : Result (list string) :=
  let varlist := get_variables W variables in
  if Nat.eqb (length varlist) 0 then raise ValueError else mret varlist.

(** The tune table built for the key "Q". *)
Definition tune_frame (q1 q2 : Q) : DataFrame :=
  {| headers := ∅;
     index := ["Q1"; "Q2"];
     columns := [(VALUE, [remainder1 q1; remainder1 q2]); (ERROR, [1 # 1000; 1 # 1000])] |}.

Definition is_coupling_key (key : string) : bool :=
  bool_decide (key ∈ ["F1001R"; "F1001I"; "F1010R"; "F1010I"]).

(** The table built under [elif key == "Q"]: the tune headers of the
    horizontal phase file, read twice, reduced modulo 1. *)
Definition tune_table (W : World) (meas_dir : string) : Result DataFrame :=
  t1 ← read_meas W meas_dir (PHASE_NAME W +:+ "x" +:+ EXT W);
  i1 ← df_getitem t1 "Q1";
  t2 ← read_meas W meas_dir (PHASE_NAME W +:+ "x" +:+ EXT W);
  i2 ← df_getitem t2 "Q2";
  match i1, i2 with
  | ItemHeader q1, ItemHeader q2 => mret (tune_frame q1 q2)
  | _, _ => raise ValueError (* a 2-d VALUE array is refused by pd.DataFrame *)
  end.

(** One turn of the loop over [filtered_keys] in [_get_measurment_data]. *)
Definition load_key (W : World) (meas_dir beta_file_name : string)
    (measurement : gmap string DataFrame) (key : string)
  : Result (gmap string DataFrame) :=
  if startswith key "MU" then
    t ← read_meas W meas_dir (PHASE_NAME W +:+ last_lower key +:+ EXT W);
    mret (<[key := t]> measurement)
  else if startswith key "D" then
    t ← read_meas W meas_dir (DISPERSION_NAME W +:+ last_lower key +:+ EXT W);
    mret (<[key := t]> measurement)
  else if String.eqb key "NDX" then
    t ← read_meas W meas_dir (NORM_DISP_NAME W +:+ last_lower key +:+ EXT W);
    mret (<[key := t]> measurement)
  else if is_coupling_key key then
    mret measurement
  else if String.eqb key "Q" then
    t ← tune_table W meas_dir;
    mret (<[key := t]> measurement)
  else if startswith key "BET" then
    t ← read_meas W meas_dir (beta_file_name +:+ last_lower key +:+ EXT W);
    mret (<[key := t]> measurement)
  else mret measurement.

Fixpoint load_keys (W : World) (meas_dir beta_file_name : string)
    (measurement : gmap string DataFrame) (keys : list string)
  : Result (gmap string DataFrame) :=
  match keys with
  | [] => mret measurement
  | key :: keys' =>
      m ← load_key W meas_dir beta_file_name measurement key;
      load_keys W meas_dir beta_file_name m keys'
  end.

(** [[k for k in keys if w_dict[k] != 0]] *)
Fixpoint filter_keys (w_dict : gmap string Q) (keys : list string) : Result (list string) :=
  match keys with
  | [] => mret []
  | k :: keys' =>
      w ← getitem w_dict k;
      rest ← filter_keys w_dict keys';
      mret (if Qeq_bool w 0 then rest else k :: rest)
  end.

(** [_get_measurment_data] *)
Definition _get_measurment_data (W : World) (keys : list string)
    (meas_dir beta_file_name : string) (w_dict : gmap string Q)
  : Result (list string * gmap string DataFrame) :=
  filtered_keys ← filter_keys w_dict keys;
  measurement ← load_keys W meas_dir beta_file_name ∅ filtered_keys;
  mret (filtered_keys, measurement).

(** [_load_fullresponse] *)
Definition _load_fullresponse (W : World) (full_response_path : string)
    (variables : list string) : Result (gmap string DataFrame) :=
  full_response_data ← load_pickle W full_response_path;
  let loaded_vars :=
    flat_map (λ kv : string * DataFrame, (columns kv.2).*1) (map_to_list full_response_data) in
  if negb (existsb (λ v, bool_decide (v ∈ loaded_vars)) variables)
  then raise ValueError
  else mret full_response_data.

(** [_maybe_add_coupling_to_model] *)
Definition _maybe_add_coupling_to_model (W : World) (model : Model W) (keys : list string)
  : Model W :=
  if existsb (λ key, negb (String.eqb key "")) (List.filter (λ key, startswith key "F1") keys)
  then add_coupling W model
  else model.

(** [_join_responses]: the per-key tables stacked, their columns aligned on
    [varslist], absent columns filled with 0.0.  [pd.concat] of an empty
    list of tables is a [ValueError]. *)
Definition _join_responses (resp : gmap string DataFrame) (keys varslist : list string)
  : Result ResponseMatrix :=
  frames ← mapM (getitem resp) keys;
  match frames with
  | [] => raise ValueError
  | _ :: _ =>
      mret (map (λ v, (v, concat (map (λ f : DataFrame,
                         match assoc v (columns f) with
                         | Some c => c
                         | None => replicate (length (index f)) 0
                         end) frames))) varslist)
  end.

(** [_join_columns]; [np.concatenate] of an empty list of arrays is a
    [ValueError]. *)
Definition _join_columns (col : string) (meas : gmap string DataFrame) (keys : list string)
  : Result (list Q) :=
  cols ← mapM (λ key, getitem meas key ≫= λ df, column df col) keys;
  match cols with
  | [] => raise ValueError
  | _ :: _ => mret (concat cols)
  end.

Definition zip_mul (a b : list Q) : list Q := zip_with Qmult a b.

(** [resp_matrix.mul(weight_vector, axis="index")] *)
Definition mul_index (resp_matrix : ResponseMatrix) (weight_vector : list Q)
  : Result ResponseMatrix :=
  if forallb (λ c : string * list Q, Nat.eqb (length c.2) (length weight_vector)) resp_matrix
  then mret (map (λ c : string * list Q, (c.1, zip_mul c.2 weight_vector)) resp_matrix)
  else raise ValueError.

(** [diff_vector * weight_vector] on two arrays. *)
Definition mul_arrays (a b : list Q) : Result (list Q) :=
  if Nat.eqb (length a) (length b) then mret (zip_mul a b) else raise ValueError.

(** [_pseudo_inverse] *)
Definition _pseudo_inverse (W : World) (response_mat : ResponseMatrix) (diff_vec : list Q)
    (opt : Opt) : Result (list Q) :=
  match svd_cut opt with
  | None => raise ValueError
  | Some cut => mret (pinv_solve W response_mat cut diff_vec)
  end.

(** [_orthogonal_matching_pursuit] *)
Definition _orthogonal_matching_pursuit (W : World) (response_mat : ResponseMatrix)
    (diff_vec : list Q) (opt : Opt) : Result (list Q) :=
  match n_correctors opt with
  | None => raise ValueError
  | Some n => mret (omp_solve W n response_mat diff_vec)
  end.

(** [_get_method_fun] *)
Definition _get_method_fun (W : World) (method : string)
  : Result (ResponseMatrix → list Q → Opt → Result (list Q)) :=
  if String.eqb method "pinv" then mret (_pseudo_inverse W)
  else if String.eqb method "omp" then mret (_orthogonal_matching_pursuit W)
  else raise KeyError.

(** [tfs.TfsDataFrame(data, index=vars_list, columns=[DELTA])] on a 1-d array. *)
Definition delta_frame (data : list Q) (vars_list : list string) : Result Delta :=
  if Nat.eqb (length data) (length vars_list) then mret (zip vars_list data)
  else raise ValueError.

(** [_calculate_delta] (its RMS log lines left out). *)
Definition _calculate_delta (W : World) (resp_matrix : ResponseMatrix)
    (meas_dict : gmap string DataFrame) (keys vars_list : list string)
    (method : string) (meth_opt : Opt) : Result Delta :=
  weight_vector ← _join_columns "WEIGHT" meas_dict keys;
  diff_vector ← _join_columns "DIFF" meas_dict keys;
  resp_weighted ← mul_index resp_matrix weight_vector;
  diff_weighted ← mul_arrays diff_vector weight_vector;
  method_fun ← _get_method_fun W method;
  delta ← method_fun resp_weighted diff_weighted meth_opt;
  delta_frame delta vars_list.

(** [delta += increment].  Both frames carry the index [vars_list]; pandas
    then adds row by row.  Frames with different indices, which the loop
    never produces (lemmas [iadd_aligned] and [iterate_aligned] below), are
    marked as an error here instead of modelling the NaN-filled outer
    join. *)
Definition iadd (delta increment : Delta) : Result Delta :=
  if bool_decide (delta.*1 = increment.*1)
  then mret (zip_with (λ a b : string * Q, (a.1, a.2 + b.2)) delta increment)
  else raise ValueError.

(** [resp_matrix.loc[:, labels]]: for each label the columns carrying it. *)
Definition loc_columns (resp_matrix : ResponseMatrix) (labels : list string)
  : Result ResponseMatrix :=
  selected ← mapM (λ l, match List.filter (λ c : string * list Q, String.eqb c.1 l) resp_matrix with
                        | [] => raise KeyError
                        | cs => mret cs
                        end) labels;
  mret (concat selected).

(** [_filter_by_strength] *)
Definition _filter_by_strength (delta : Delta) (resp_matrix : ResponseMatrix)
    (min_strength : Q) : Result (Delta * ResponseMatrix * list string) :=
  let delta := List.filter (λ row : string * Q, abs_gt row.2 min_strength) delta in
  resp ← loc_columns resp_matrix delta.*1;
  mret (delta, resp, delta.*1).

(** [-delta] *)
Definition neg (delta : Delta) : Delta := map (λ row : string * Q, (row.1, - row.2)) delta.

(** [writeparams]: one line "var = var value;" per row. *)
Definition writeparams (path_to_file : string) (delta : Delta) (fs : gmap string File)
  : gmap string File :=
  <[path_to_file := ParamFile delta]> fs.

(** [write_knob] *)
Definition write_knob (W : World) (knob_path : string) (delta : Delta)
    (fs : gmap string File) : gmap string File :=
  let a := time_now W in
  let delta_out := neg delta in
  let hdrs := [("PATH"%string, dirname knob_path); ("DATE"%string, ctime W a)] in
  <[knob_path := KnobFile hdrs "NAME" delta_out]> fs.

(** The variables the iteration phase of [correct] assigns. *)
Record Loop (W : World) : Type := {
  delta : Delta;
  resp_matrix : ResponseMatrix;
  vars_list : list string;
  meas_dict : gmap string DataFrame;
  resp_dict : gmap string DataFrame;
  accel : Model W * Model W;
  fs : gmap string File
}.
Arguments delta {W}.
Arguments resp_matrix {W}.
Arguments vars_list {W}.
Arguments meas_dict {W}.
Arguments resp_dict {W}.
Arguments accel {W}.
Arguments fs {W}.

(** "Update Model and Response", the part of the loop body under
    [if iteration > 0]. *)
Definition update_model_and_response (W : World) (opt : Opt) (optics_params : list string)
    (iteration : nat) (s : Loop W) : Result (Loop W) :=
  let corr_model_path :=
    path_join (output_dir opt) ("twiss_" +:+ pretty iteration +:+ EXT W) in
  corr_model_elements ← madx_twiss W (fs s) corr_model_path (change_params_path opt);
  let corr_model_elements := _maybe_add_coupling_to_model W corr_model_elements optics_params in
  let corr_model := get_element_types_mask W corr_model_elements in
  let meas_dict := append_model_to_measurement W corr_model (meas_dict s) optics_params in
  if update_response opt then
    let resp_dict :=
      create_response W corr_model corr_model_elements (variable_categories opt) optics_params in
    let resp_dict := filter_response_index W resp_dict meas_dict optics_params in
    resp_matrix ← _join_responses resp_dict optics_params (vars_list s);
    mret {| delta := delta s; resp_matrix := resp_matrix; vars_list := vars_list s;
            meas_dict := meas_dict; resp_dict := resp_dict;
            accel := (corr_model, corr_model_elements); fs := fs s |}
  else
    mret {| delta := delta s; resp_matrix := resp_matrix s; vars_list := vars_list s;
            meas_dict := meas_dict; resp_dict := resp_dict s;
            accel := accel s; fs := fs s |}.

(** The loop body up to and including [delta += _calculate_delta(...)]:
    the refreshed state and the accumulated, not yet pruned, delta. *)
Definition accumulate (W : World) (opt : Opt) (optics_params : list string)
    (iteration : nat) (s : Loop W) : Result (Loop W * Delta) :=
  s1 ← (if (0 <? iteration)%nat
        then update_model_and_response W opt optics_params iteration s
        else mret s);
  increment ← _calculate_delta W (resp_matrix s1) (meas_dict s1) optics_params (vars_list s1)
                 (method opt) opt;
  acc ← iadd (delta s1) increment;
  mret (s1, acc).

(** One pass of the loop body. *)
Definition iteration_body (W : World) (opt : Opt) (optics_params : list string)
    (iteration : nat) (s : Loop W) : Result (Loop W) :=
  '(s1, acc) ← accumulate W opt optics_params iteration s;
  '(delta, resp_matrix, vars_list) ←
    _filter_by_strength acc (resp_matrix s1) (min_corrector_strength opt);
  let fs1 := writeparams (change_params_path opt) delta (fs s1) in
  let fs2 := writeparams (change_params_correct_path opt) (neg delta) fs1 in
  mret {| delta := delta; resp_matrix := resp_matrix; vars_list := vars_list;
          meas_dict := meas_dict s1; resp_dict := resp_dict s1;
          accel := accel s1; fs := fs2 |}.

(** [for iteration in iterations: body] *)
Fixpoint iterate (W : World) (opt : Opt) (optics_params : list string)
    (iterations : list nat) (s : Loop W) : Result (Loop W) :=
  match iterations with
  | [] => mret s
  | iteration :: rest =>
      s' ← iteration_body W opt optics_params iteration s;
      iterate W opt optics_params rest s'
  end.

(** [correct] up to the iteration phase: the optics parameters kept and
    the loop variables as the first iteration finds them. *)
Definition correct_setup (W : World) (opt : Opt) (fs0 : gmap string File)
  : Result (list string * Loop W) :=
  vars_list ← _get_varlist W (variable_categories opt) (virt_flag opt);
  '(optics_params, meas_dict) ←
    _get_measurment_data W (optics_params opt) (meas_dir opt) (beta_file_name opt) (weights opt);
  resp_dict ← match fullresponse_path opt with
              | Some p => _load_fullresponse W p vars_list
              | None => mret (create_response W (accel_model W) (accel_elements W)
                                (variable_categories opt) optics_params)
              end;
  let nominal_model := _maybe_add_coupling_to_model W (accel_model W) optics_params in
  let meas_dict := filter_measurement W optics_params meas_dict nominal_model opt in
  let meas_dict := append_model_to_measurement W nominal_model meas_dict optics_params in
  let resp_dict := filter_response_index W resp_dict meas_dict optics_params in
  resp_matrix ← _join_responses resp_dict optics_params vars_list;
  let delta := map (λ v, (v, 0)) vars_list in
  mret (optics_params,
        {| delta := delta; resp_matrix := resp_matrix; vars_list := vars_list;
           meas_dict := meas_dict; resp_dict := resp_dict;
           accel := (nominal_model, accel_elements W); fs := fs0 |}).

(** [range(n)] for a Python int. *)
Definition range (n : Z) : list nat := seq 0 (Z.to_nat n).

(** [correct]: the loop variables and the files on disk when it returns. *)
Definition correct (W : World) (opt : Opt) (fs0 : gmap string File)
  : Result (Loop W) :=
  '(optics_params, s0) ← correct_setup W opt fs0;
  s ← iterate W opt optics_params (range (max_iter opt + 1)) s0;
  mret {| delta := delta s; resp_matrix := resp_matrix s; vars_list := vars_list s;
          meas_dict := meas_dict s; resp_dict := resp_dict s; accel := accel s;
          fs := write_knob W (knob_path opt) (delta s) (fs s) |}.

(** The three structures of the loop name the same correctors in the same
    order, without repetition. *)
Definition aligned {W : World} (s : Loop W) : Prop :=
  (delta s).*1 = vars_list s ∧ (resp_matrix s).*1 = vars_list s ∧ NoDup (vars_list s).

(** ** A concrete run

    Two correctors, the tune as the only optics parameter with non-zero
    weight, a response with orthonormal columns (for which the
    pseudo-inverse solution is the transposed response applied to the
    difference vector), and a model that is off by 0.01 in the second tune
    only. *)

Definition demo_phase_file : DataFrame :=
  {| headers := {["Q1" := 6231 # 100; "Q2" := 6032 # 100]}; index := []; columns := [] |}.

Definition demo_append (m : gmap string DataFrame) : gmap string DataFrame :=
  (λ df : DataFrame,
     {| headers := headers df; index := index df;
        columns := columns df ++ [(DIFF, [0; 1 # 100]); (WEIGHT, [1; 1])] |}) <$> m.

Definition demo_world : World :=
  {| Model := unit;
     EXT := ".tfs";
     PHASE_NAME := "getphase";
     DISPERSION_NAME := "getD";
     NORM_DISP_NAME := "getND";
     tfs_read := λ path, if String.eqb path "meas/getphasex.tfs"
                         then inr demo_phase_file else inl IOError;
     load_pickle := λ _, inl IOError;
     get_variables := λ _, ["kq1"; "kq2"]%string;
     accel_model := ();
     accel_elements := ();
     get_element_types_mask := λ m, m;
     add_coupling := λ m, m;
     create_response := λ _ _ _ _,
       {["Q"%string := {| headers := ∅; index := ["Q1"; "Q2"]%string;
                          columns := [("kq1"%string, [1; 0]); ("kq2"%string, [0; 1])] |}]};
     filter_measurement := λ _ m _ _, m;
     append_model_to_measurement := λ _ m _, demo_append m;
     filter_response_index := λ r _ _, r;
     madx_twiss := λ _ _ _, inr ();
     pinv_solve := λ rm _ d, map (λ c : string * list Q, Qsum (zip_mul c.2 d)) rm;
     omp_solve := λ _ rm d, map (λ c : string * list Q, Qsum (zip_mul c.2 d)) rm;
     time_now := 0;
     ctime := λ _, "Thu Jan  1 00:00:00 1970"%string |}.

Definition demo_opt : Opt :=
  {| optics_params := ["Q"; "BETX"]%string;
     meas_dir := "meas";
     beta_file_name := "getbeta";
     weights := {["Q"%string := 1; "BETX"%string := 0]};
     fullresponse_path := None;
     variable_categories := ["MQY"%string];
     virt_flag := false;
     max_iter := 2;
     output_dir := "results/";
     change_params_path := "results/changeparameters.madx";
     change_params_correct_path := "results/changeparameters_correct.madx";
     knob_path := "results/changeparameters.knob";
     update_response := true;
     method := "pinv";
     svd_cut := Some (1 # 100);
     n_correctors := None;
     min_corrector_strength := 0 |}.

(** The same run with the knob file sent to a directory of its own. *)
Definition demo_opt_elsewhere : Opt :=
  {| optics_params := optics_params demo_opt;
     meas_dir := meas_dir demo_opt;
     beta_file_name := beta_file_name demo_opt;
     weights := weights demo_opt;
     fullresponse_path := fullresponse_path demo_opt;
     variable_categories := variable_categories demo_opt;
     virt_flag := virt_flag demo_opt;
     max_iter := max_iter demo_opt;
     output_dir := "results";
     change_params_path := "results/changeparameters.madx";
     change_params_correct_path := "results/changeparameters_correct.madx";
     knob_path := "knobs/correction.knob";
     update_response := update_response demo_opt;
     method := method demo_opt;
     svd_cut := svd_cut demo_opt;
     n_correctors := n_correctors demo_opt;
     min_corrector_strength := min_corrector_strength demo_opt |}.

(** The same run with the loop switched off. *)
Definition demo_opt_no_iteration : Opt :=
  {| optics_params := optics_params demo_opt;
     meas_dir := meas_dir demo_opt;
     beta_file_name := beta_file_name demo_opt;
     weights := weights demo_opt;
     fullresponse_path := fullresponse_path demo_opt;
     variable_categories := variable_categories demo_opt;
     virt_flag := virt_flag demo_opt;
     max_iter := -1;
     output_dir := output_dir demo_opt;
     change_params_path := change_params_path demo_opt;
     change_params_correct_path := change_params_correct_path demo_opt;
     knob_path := knob_path demo_opt;
     update_response := update_response demo_opt;
     method := method demo_opt;
     svd_cut := svd_cut demo_opt;
     n_correctors := n_correctors demo_opt;
     min_corrector_strength := min_corrector_strength demo_opt |}.

(** A pickled full response on disk, and the world that finds it. *)
Definition demo_response : gmap string DataFrame :=
  {["Q"%string := {| headers := ∅; index := ["Q1"; "Q2"]%string;
                     columns := [("kq1"%string, [1; 0]); ("kq2"%string, [0; 1])] |}]}.

Definition demo_world_pickled : World :=
  {| Model := Model demo_world;
     EXT := EXT demo_world;
     PHASE_NAME := PHASE_NAME demo_world;
     DISPERSION_NAME := DISPERSION_NAME demo_world;
     NORM_DISP_NAME := NORM_DISP_NAME demo_world;
     tfs_read := tfs_read demo_world;
     load_pickle := λ _, inr demo_response;
     get_variables := get_variables demo_world;
     accel_model := accel_model demo_world;
     accel_elements := accel_elements demo_world;
     get_element_types_mask := get_element_types_mask demo_world;
     add_coupling := add_coupling demo_world;
     create_response := create_response demo_world;
     filter_measurement := filter_measurement demo_world;
     append_model_to_measurement := append_model_to_measurement demo_world;
     filter_response_index := filter_response_index demo_world;
     madx_twiss := madx_twiss demo_world;
     pinv_solve := pinv_solve demo_world;
     omp_solve := omp_solve demo_world;
     time_now := time_now demo_world;
     ctime := ctime demo_world |}.

(** Weighted measurement tables as [_calculate_delta] receives them. *)
Definition demo_meas : gmap string DataFrame :=
  {["Q"%string := {| headers := ∅; index := ["Q1"; "Q2"]%string;
                     columns := [(DIFF, [0; 1 # 100]); (WEIGHT, [1; 1])] |}]}.

End Handler.

(** * optics_measurements/beta_from_phase.py *)

Module BetaFromPhase.
Local Open Scope Q_scope.

Definition Matrix : Type := list (list Q).

(** ** Array helpers (numpy) *)

Definition dot (a b : list Q) : Q := Qsum (zip_with Qmult a b).

(** [a[mask]] *)
Fixpoint select {A : Type} (mask : list bool) (a : list A) : list A :=
  match mask, a with
  | m :: mask', x :: a' => if m then x :: select mask' a' else select mask' a'
  | _, _ => []
  end.

(** [np.diag(d)] *)
Definition np_diag (d : list Q) : Matrix :=
  imap (λ i x, imap (λ j _, if Nat.eqb i j then x else 0) d) d.

(** [np.transpose(m)] of a matrix with [p] columns. *)
Definition transpose (p : nat) (m : Matrix) : Matrix :=
  map (λ j, map (λ row, nth j row 0) m) (seq 0 p).

(** [np.dot(a, b)] of matrices, [b] with [p] columns. *)
Definition mat_mul (p : nat) (a b : Matrix) : Matrix :=
  map (λ row, map (λ col, dot row col) (transpose p b)) a.

(** [np.dot(m, v)] *)
Definition mat_vec (m : Matrix) (v : list Q) : list Q := map (λ row, dot row v) m.

(** [np.any(m)] *)
Definition np_any (m : Matrix) : bool :=
  existsb (λ row, existsb (λ x, negb (Qeq_bool x 0)) row) m.

(** [np.roll(a, shift, axis=0)] *)
Definition np_roll {A : Type} (shift : Z) (a : list A) : list A :=
  let n := length a in
  omap (λ i, a !! Z.to_nat ((Z.of_nat i - shift) `mod` Z.of_nat n)) (seq 0 n).

(** The externals of the analyser: SVD pseudo-inverse, square root,
    regular expressions, and the values the trigonometric formulas of the
    3-BPM method take on tilted phase matrices whose shapes fit (what they
    raise on other shapes is [formula_shapes] below). *)
Record World : Type := {
  pinv : Matrix → Matrix;           (* np.linalg.pinv(mat, rcond=RCOND) *)
  np_sqrt : Q → Q;
  re_compile : string → Result (string → bool);  (* re.compile(p), then str.contains *)
  cot_formulas : Matrix → Matrix → Matrix → Q → Q → list (Q * Q) → list (Q * Q * Q)
}.

(** ** N-BPM method *)

(** [_covariant_weighting] *)
Definition _covariant_weighting (W : World) (mat : Matrix) (col : list Q) : Result (Q * Q) :=
  let mat_inv := pinv W mat in
  let wb := map Qsum mat_inv in
  let mat_inv_sum := Qsum wb in
  if Qeq_bool mat_inv_sum 0 then raise ValueError
  else mret (dot wb col / mat_inv_sum,
             np_sqrt W (dot wb (mat_vec mat wb) / (mat_inv_sum * mat_inv_sum))).

(** What lines 143-185 of [n_bpm_method] assemble for one probed BPM: the
    candidate estimates of every retained pair and their propagation rows. *)
Record Probe : Type := {
  probed_bpm_name : string;
  betas : list Q;
  alphas : list Q;
  mat_t_beta : Matrix;
  mat_t_alpha : Matrix;
  diag : list Q
}.

(** One row of the result table. *)
Record BetaRow : Type := {
  NAME : string;
  BET : Q;
  ERRBET : Q;
  ALF : Q;
  ERRALF : Q;
  NCOMB : nat
}.

(** [mat_t[:, mask] . diag(diag[mask]) . mat_t[:, mask]^T] *)
Definition covariance (mat_t : Matrix) (diag : list Q) : Matrix :=
  let mask := map (λ d, negb (Qeq_bool d 0)) diag in
  let mat_diag := np_diag (select mask diag) in
  let mat_t_masked := map (select mask) mat_t in
  let k := length mat_t in
  let d := length (select mask diag) in
  mat_mul k mat_t_masked (mat_mul k mat_diag (transpose d mat_t_masked)).

(** The body of the loop over the probed BPMs, from [mask = diag != 0] on.
    A skipped BPM keeps the zeros its row was initialised with. *)
Definition probe_bpm (W : World) (p : Probe) : Result BetaRow :=
  let mat_v_beta := covariance (mat_t_beta p) (diag p) in
  let mat_v_alpha := covariance (mat_t_alpha p) (diag p) in
  if np_any mat_v_beta && np_any mat_v_alpha then
    '(beti, beterr) ← _covariant_weighting W mat_v_beta (betas p);
    '(alfi, alferr) ← _covariant_weighting W mat_v_alpha (alphas p);
    mret {| NAME := probed_bpm_name p; BET := beti; ERRBET := beterr;
            ALF := alfi; ERRALF := alferr; NCOMB := length (betas p) |}
  else
    mret {| NAME := probed_bpm_name p; BET := 0; ERRBET := 0;
            ALF := 0; ERRALF := 0; NCOMB := 0 |}.

(** [n_bpm_method], given the assembled combinations of every BPM of
    [bk_model.index] in order. *)
Definition n_bpm_method (W : World) (probes : list Probe) : Result (list BetaRow) :=
  beta_df ← mapM (probe_bpm W) probes;
  mret (List.filter (λ row, (0 <? NCOMB row)%nat) beta_df).

(** ** Systematic errors *)

(** A row of the element table with the uncertainty columns. *)
Record Element : Type := {
  name : string;
  K1L : Q;
  UNC : bool;
  dK1 : Q;
  KdS : Q;
  mKdS : Q;
  dX : Q;
  BPMdS : Q
}.

(** A row of the error-definition table. *)
Record ErrDef : Type := {
  PATTERN : string;
  MAINFIELD : string;
  def_dK1 : Q;
  def_dX : Q;
  def_dS : Q
}.

(** [twiss_full.assign(UNC=False, dK1=0, KdS=0, mKdS=0, dX=0, BPMdS=0)] on
    the rows (element name, K1L). *)
Definition assign_columns (twiss_full : list (string * Q)) : list Element :=
  map (λ e : string * Q,
         {| name := e.1; K1L := e.2; UNC := false;
            dK1 := 0; KdS := 0; mKdS := 0; dX := 0; BPMdS := 0 |}) twiss_full.

(** The rows a pattern selects: the element of that label for "key:..."
    ([KeyError] when there is none), the names the expression is found in
    otherwise. *)
Definition pattern_mask (W : World) (patt : string) (twiss_full : list Element)
  : Result (list bool) :=
  if startswith patt "key:" then
    let label := nth 1 (split_on ":" patt) "" in
    let mask := map (λ e, String.eqb (name e) label) twiss_full in
    if existsb (λ b, b) mask then mret mask else raise KeyError
  else
    reg ← re_compile W patt;
    mret (map (λ e, reg (name e)) twiss_full).

(** Whether the pattern of [d] selects row [i] of the table. *)
Definition selects (W : World) (twiss_full : list Element) (d : ErrDef) (i : nat) : bool :=
  match pattern_mask W (PATTERN d) twiss_full with
  | inr mask => default false (mask !! i)
  | inl _ => false
  end.

(** The body of the loop over the error definitions, on one selected row. *)
Definition assign_row (d : ErrDef) (e : Element) : Element :=
  let dK1' := (def_dK1 d * K1L e) * (def_dK1 d * K1L e) in
  let dX' := def_dX d * 2 in
  if String.eqb (MAINFIELD d) "BPM" then
    {| name := name e; K1L := K1L e; UNC := true; dK1 := dK1'; KdS := KdS e;
       mKdS := mKdS e; dX := dX'; BPMdS := def_dS d * def_dS d |}
  else
    {| name := name e; K1L := K1L e; UNC := true; dK1 := dK1';
       KdS := (def_dS d * K1L e) * (def_dS d * K1L e);
       mKdS := mKdS e; dX := dX'; BPMdS := BPMdS e |}.

Definition assign_def (W : World) (twiss_full : list Element) (d : ErrDef)
  : Result (list Element) :=
  mask ← pattern_mask W (PATTERN d) twiss_full;
  mret (zip_with (λ (m : bool) e, if m then assign_row d e else e) mask twiss_full).

(** [for indx in errdefs.index: ...] *)
Fixpoint assign_loop (W : World) (errdefs : list ErrDef) (twiss_full : list Element)
  : Result (list Element) :=
  match errdefs with
  | [] => mret twiss_full
  | d :: errdefs' =>
      twiss_full' ← assign_def W twiss_full d;
      assign_loop W errdefs' twiss_full'
  end.

Definition set_mKdS (v : Q) (e : Element) : Element :=
  {| name := name e; K1L := K1L e; UNC := UNC e; dK1 := dK1 e; KdS := KdS e;
     mKdS := v; dX := dX e; BPMdS := BPMdS e |}.

Definition set_UNC (b : bool) (e : Element) : Element :=
  {| name := name e; K1L := K1L e; UNC := b; dK1 := dK1 e; KdS := KdS e;
     mKdS := mKdS e; dX := dX e; BPMdS := BPMdS e |}.

(** [_assign_uncertainties], on the element table and the table read from
    the error-definition file. *)
Definition _assign_uncertainties (W : World) (twiss_full : list (string * Q))
    (errdefs : list ErrDef) : Result (list Element) :=
  let twiss_full := assign_columns twiss_full in
  twiss_full ← assign_loop W errdefs twiss_full;
  let twiss_full := zip_with set_mKdS (np_roll 1 (map KdS twiss_full)) twiss_full in
  let twiss_full :=
    zip_with (λ next e, set_UNC (abs_gt next (1 # 1000000000000) || UNC e) e)
             (np_roll (-1) (map dK1 twiss_full)) twiss_full in
  mret (List.filter UNC twiss_full).

(** ** 3-BPM method *)

(** The start of a slice [a[start:]] and the stop of [a[:stop]] on an axis
    of length [len]. *)
Definition slice_bound (i : Z) (len : nat) : nat :=
  if (i <? 0)%Z then Z.to_nat (Z.max 0 (Z.of_nat len + i))
  else Z.to_nat (Z.min i (Z.of_nat len)).

(** [matrix[r0:r1, c0:c1] op= t], in place. *)
Definition update_block (op : Q → Q) (r0 r1 c0 c1 : nat) (matrix : Matrix) : Matrix :=
  imap (λ i row,
          imap (λ j x,
                  if (r0 <=? i)%nat && (i <? r1)%nat && (c0 <=? j)%nat && (j <? c1)%nat
                  then op x else x) row) matrix.

Definition shape0 (matrix : Matrix) : nat := length matrix.
Definition shape1 (matrix : Matrix) : nat :=
  match matrix with [] => 0%nat | row :: _ => length row end.

(** [scipy.linalg.circulant(c)] *)
Definition circulant (c : list nat) : list (list nat) :=
  let n := length c in
  map (λ i, map (λ j, nth ((i + n - j) `mod` n)%nat c 0%nat) (seq 0 n)) (seq 0 n).

(** [a[idx]] with an index array. *)
Definition take_at {A : Type} (idx : list nat) (a : list A) : Result (list A) :=
  mapM (λ i, match a !! i with Some x => mret x | None => raise IndexError end) idx.

(** [matrix[rows, cols]] with a 1-d and a 2-d index array broadcast together. *)
Definition fancy_index (matrix : Matrix) (rows : list nat) (cols : list (list nat))
  : Result Matrix :=
  mapM (λ crow, mapM (λ rc : nat * nat,
                        match matrix !! rc.1 ≫= (λ row, row !! rc.2) with
                        | Some x => mret x
                        | None => raise IndexError
                        end) (zip rows crow)) cols.

(** The array [matrix] refers to after the two in-place statements of
    [_tilt_slice_matrix]. *)
Definition tilt_in_place (matrix : Matrix) (slice_shift : nat) (tune : Q) : Matrix :=
  let n := shape0 matrix in
  let m := shape1 matrix in
  let matrix :=
    update_block (λ x, x + tune)
      (slice_bound (Z.of_nat n - Z.of_nat slice_shift) n) n
      0 (slice_bound (Z.of_nat slice_shift) m) matrix in
  update_block (λ x, x - tune)
    0 (slice_bound (Z.of_nat slice_shift) n)
    (slice_bound (Z.of_nat m - Z.of_nat slice_shift) m) m matrix.

(** [_tilt_slice_matrix]: the returned slice and the argument array as the
    call leaves it. *)
Definition _tilt_slice_matrix (matrix : Matrix) (slice_shift slice_width : nat) (tune : Q)
  : Result (Matrix * Matrix) :=
  let n := shape0 matrix in
  let invrange := map (λ k, n - 1 - k)%nat (seq 0 n) in
  let matrix := tilt_in_place matrix slice_shift tune in
  cols ← take_at invrange (circulant invrange);
  tilted ← fancy_index matrix (seq 0 n) cols;
  mret (take slice_width (np_roll (Z.of_nat slice_shift) tilted), matrix).

(** The phase matrices of one plane; [.values] hands out the arrays
    themselves, so a callee writing into them writes into these. *)
Record Phase : Type := {
  MEAS : Matrix;
  MODEL : Matrix;
  ERRMEAS : Matrix
}.

(** *** Shapes

    The formulas of [three_bpm_method] are whole-array expressions.  What
    they raise depends on the shapes of their operands only: a row index
    beyond the first axis is an [IndexError]; a binary operation on two axes
    that are neither equal nor of length one is a [ValueError]; so is the
    assignment of an array to a column of another length. *)

Definition shape (matrix : Matrix) : nat * nat := (shape0 matrix, shape1 matrix).

(** Two axes broadcast together. *)
Definition broadcast (a b : nat) : Result nat :=
  if Nat.eqb a b then mret a
  else if Nat.eqb a 1 then mret b
  else if Nat.eqb b 1 then mret a
  else raise ValueError.

(** A binary operation on two 2-d arrays; a 1-d array of length [n] takes
    part as [(1, n)]. *)
Definition broadcast2 (s t : nat * nat) : Result (nat * nat) :=
  c ← broadcast s.2 t.2;
  r ← broadcast s.1 t.1;
  mret (r, c).

(** [a[i]] on a 2-d array: the length of the row. *)
Definition row_shape (i : nat) (s : nat * nat) : Result nat :=
  if (i <? s.1)%nat then mret s.2 else raise IndexError.

(** [beta_df[column] = values] with a 1-d array. *)
Definition assign_shape (values rows : nat) : Result unit :=
  if Nat.eqb values rows then mret () else raise ValueError.

(** Lines 431-461 of [three_bpm_method] on shapes: the three tilted
    slices and the number of rows of [beta_df].  The elementwise steps
    ([1 / np.tan], [np.roll], [np.square], adding [EPSILON], dividing by a
    number) keep the shape of their operand and are left out. *)
Definition formula_shapes (meas model errmeas : nat * nat) (rows : nat) : Result unit :=
  (* bet_frac = (meas_shift1[0] / model_shift1[0] + meas_shift1[3] / model_shift1[3]
                 + meas_shift2[1] / model_shift2[1]) / 3 *)
  a ← row_shape 0 meas; b ← row_shape 0 model; f0 ← broadcast a b;
  a ← row_shape 3 meas; b ← row_shape 3 model; f3 ← broadcast a b;
  s ← broadcast f0 f3;
  a ← row_shape 1 meas; b ← row_shape 1 model; f1 ← broadcast a b;
  bet_frac ← broadcast s f1;
  (* beti = bet_frac * betmdl *)
  beti ← broadcast bet_frac rows;
  (* alfi = (bet_frac * (cot_model[1] + cot_model[3] + 2 * alfmdl)
             - (cot_meas[1] + cot_meas[3])) / 2 *)
  a ← row_shape 1 model; b ← row_shape 3 model; c ← broadcast a b;
  c ← broadcast c rows;
  t ← broadcast bet_frac c;
  a ← row_shape 1 meas; b ← row_shape 3 meas; d ← broadcast a b;
  alfi ← broadcast t d;
  (* sin_squared_model = tilted_errmeas / np.square(np.sin(tilted_model)) * betmdl *)
  q ← broadcast2 errmeas model;
  sin_squared_model ← broadcast2 q (1%nat, rows);
  (* sin_squ_model_shift1 = sin_squared_model
       + np.roll(sin_squared_model, -1, axis=0) / np.square(cot_phase_model_shift1) *)
  q ← broadcast2 sin_squared_model model;
  shift1 ← broadcast2 sin_squared_model q;
  (* sin_squ_model_shift2, with cot_phase_model_shift2 *)
  q ← broadcast2 sin_squared_model model;
  shift2 ← broadcast2 sin_squared_model q;
  (* beterr = np.sqrt(shift1[0] + shift1[3] + shift2[1]) / 3 *)
  a ← row_shape 0 shift1; b ← row_shape 3 shift1; e ← broadcast a b;
  c ← row_shape 1 shift2;
  beterr ← broadcast e c;
  (* beta_df["BET" + plane] = beti, then ERRBET and ALF *)
  _ ← assign_shape beti rows;
  _ ← assign_shape beterr rows;
  assign_shape alfi rows.

(** [three_bpm_method]: the rows (BET, ERRBET, ALF) computed for the
    skeleton rows (model beta, model alpha), and the phase matrices as the
    call leaves them. *)
Definition three_bpm_method (W : World) (phase : Phase) (meas_and_mdl_tunes : Q * Q)
    (beta_df : list (Q * Q)) : Result (list (Q * Q * Q) * Phase) :=
  let '(tune, mdltune) := meas_and_mdl_tunes in
  '(tilted_meas, meas) ← _tilt_slice_matrix (MEAS phase) 2 5 tune;
  '(tilted_model, model) ← _tilt_slice_matrix (MODEL phase) 2 5 mdltune;
  '(tilted_errmeas, errmeas) ← _tilt_slice_matrix (ERRMEAS phase) 2 5 mdltune;
  _ ← formula_shapes (shape tilted_meas) (shape tilted_model) (shape tilted_errmeas)
        (length beta_df);
  mret (cot_formulas W tilted_meas tilted_model tilted_errmeas tune mdltune beta_df,
        {| MEAS := meas; MODEL := model; ERRMEAS := errmeas |}).

(** ** Concrete externals

    For [np.linalg.pinv] the exact Moore-Penrose inverse of the matrices of
    size one and two, which numpy computes in double precision and so up to
    rounding; a square root correct to six digits; regular expressions
    without metacharacters; and for the 3-BPM formulas noiseless data, on
    which they return the model values. *)

Definition pinv_small (m : Matrix) : Matrix :=
  match m with
  | [[a]] => [[if Qeq_bool a 0 then 0 else / a]]
  | [[a; b]; [c; d]] =>
      let det := a * d - b * c in
      if Qeq_bool det 0 then
        let f := a * a + b * b + c * c + d * d in
        if Qeq_bool f 0 then [[0; 0]; [0; 0]]
        else [[a / f; c / f]; [b / f; d / f]]
      else [[d / det; - b / det]; [- c / det; a / det]]
  | _ => m
  end.

Definition sqrt_6 (q : Q) : Q :=
  Z.sqrt (Qnum q * Z.pos (Qden q) * 10 ^ 12) # (Qden q * 1000000).

Fixpoint contains (s patt : string) : bool :=
  String.prefix patt s ||
  match s with
  | EmptyString => false
  | String _ s' => contains s' patt
  end.

Definition demo_world : World :=
  {| pinv := pinv_small;
     np_sqrt := sqrt_6;
     re_compile := λ patt, inr (λ s, contains s patt);
     cot_formulas := λ _ _ _ _ _ beta_df,
       map (λ b : Q * Q, (b.1, 0, b.2)) beta_df |}.

(** The four equations that make [x] the Moore-Penrose inverse of [a]. *)
Definition mat_eqb (a b : Matrix) : bool :=
  Nat.eqb (length a) (length b) &&
  forallb (λ rs : list Q * list Q,
             Nat.eqb (length rs.1) (length rs.2) &&
             forallb (λ xy : Q * Q, Qeq_bool xy.1 xy.2) (zip rs.1 rs.2)) (zip a b).

Definition penrose (n : nat) (a x : Matrix) : bool :=
  mat_eqb (mat_mul n (mat_mul n a x) a) a &&
  mat_eqb (mat_mul n (mat_mul n x a) x) x &&
  mat_eqb (transpose n (mat_mul n a x)) (mat_mul n a x) &&
  mat_eqb (transpose n (mat_mul n x a)) (mat_mul n x a).

(** Two retained pairs whose propagation rows are opposite, with one
    error source of variance 3: the covariance [[3, -3], [-3, 3]] is neither
    empty nor zero, and the weights of its pseudo-inverse,
    [[1/12, -1/12], [-1/12, 1/12]], sum to zero.  The weights computed in
    double precision cancel exactly on this matrix as well; that is not so
    for every singular covariance: on [[1, -1], [-1, 1]] rounding leaves a
    sum of -2^-55, and that BPM is weighted like a regular one. *)
Definition singular_probe : Probe :=
  {| probed_bpm_name := "BPM.2";
     betas := [100; 102];
     alphas := [1 # 2; 1 # 3];
     mat_t_beta := [[1]; [-1]];
     mat_t_alpha := [[1]; [-1]];
     diag := [3] |}.

(** A probed BPM with no retained pair. *)
Definition empty_probe : Probe :=
  {| probed_bpm_name := "BPM.1";
     betas := [];
     alphas := [];
     mat_t_beta := [];
     mat_t_alpha := [];
     diag := [1; 0; 4] |}.

(** Entry (i, j) of a matrix, a square matrix of size [n], and the two
    corner blocks [_tilt_slice_matrix] writes with [slice_shift = 2]: the
    last two rows of the first two columns, the first two rows of the last
    two columns. *)
Definition entry (matrix : Matrix) (i j : nat) : option Q :=
  matrix !! i ≫= λ row, row !! j.

Definition square (n : nat) (matrix : Matrix) : Prop :=
  length matrix = n ∧ Forall (λ row, length row = n) matrix.

Definition lower_left (n i j : nat) : bool :=
  (n - 2 <=? i)%nat && (i <? n)%nat && (j <? 2)%nat.

Definition upper_right (n i j : nat) : bool :=
  (i <? 2)%nat && (n - 2 <=? j)%nat && (j <? n)%nat.

Definition corner_shift (n : nat) (t : Q) (i j : nat) (x : Q) : Q :=
  let x := if lower_left n i j then x + t else x in
  if upper_right n i j then x - t else x.

(** Four BPMs, 0.08 of phase advance from one to the next, tune 0.32. *)
Definition ring_phase (step : Q) : Matrix :=
  map (λ i, map (λ j, inject_Z ((Z.of_nat j - Z.of_nat i) `mod` 4) * step)
              (seq 0 4)) (seq 0 4).

Definition demo_phase : Phase :=
  {| MEAS := ring_phase (8 # 100);
     MODEL := ring_phase (31 # 400);
     ERRMEAS := ring_phase (1 # 1000) |}.

(** A lattice of three elements and two error definitions that both
    select its quadrupole. *)
Definition overlap_quads : ErrDef :=
  {| PATTERN := "MQ"; MAINFIELD := "QUAD"; def_dK1 := 1 # 10; def_dX := 1;
     def_dS := 1 # 100 |}.

Definition overlap_key : ErrDef :=
  {| PATTERN := "key:MQ.1"; MAINFIELD := "QUAD"; def_dK1 := 1 # 10; def_dX := 3;
     def_dS := 1 # 100 |}.

Definition overlap_lattice : list (string * Q) :=
  [("MQ.1"%string, 2); ("DRIFT.1"%string, 0); ("MS.1"%string, 0)].

End BetaFromPhase.

(** * kmod/kmod_analysis.py *)

Module KmodAnalysis.
Local Open Scope R_scope.

(** A step of the modulation: quadrupole strength, the two tunes and the
    two "cleaned" flags.  Missing values are not modelled, so [dropna()]
    removes exactly the rows that [where(...)] has blanked. *)
Record Row : Type := {
  K : R;
  TUNEX : R;
  TUNEY : R;
  CLEANEDX : bool;
  CLEANEDY : bool
}.

(** A magnet table: its header and its rows. *)
Record MagnetDf : Type := {
  headers : gmap string R;
  rows : list Row
}.

(** [kmod_input_params] *)
Record KmodInput : Type := {
  errorL : R;
  errorK : R;
  misalignment : R;
  return_guess : string → R * R
}.

(** The externals: the header names of [kmod_constants] and the scipy
    optimisers. *)
Record World : Type := {
  get_k_col : string;
  get_tune_col : string → string;
  get_av_beta_col : string → string;
  get_av_beta_err_col : string → string;
  (* scipy.optimize.curve_fit(fit_prec, xdata, ydata, p0=1): av_beta[0] and
     sqrt(diag(av_beta_err))[0] *)
  curve_fit_prec : list R * list R → list R → R * R;
  (* scipy.optimize.minimize(fun, guess, method='nelder-mead', tol=1E-9).x *)
  minimize : (R * R → R) → R * R → R * R
}.

Definition PLANES : list string := ["X"; "Y"]%string.

Definition cleaned (plane : string) (r : Row) : bool :=
  if String.eqb plane "X" then CLEANEDX r else CLEANEDY r.

Definition tune (plane : string) (r : Row) : R :=
  if String.eqb plane "X" then TUNEX r else TUNEY r.

Definition Rsum (l : list R) : R := foldr Rplus 0 l.

(** [np.average]; on an empty selection numpy gives NaN, which the reals
    do not have. *)
Definition average (l : list R) : R := Rsum l / INR (length l).

(** [magnet_df.where(magnet_df[cleaned_col(plane)] == True)[col].dropna()] *)
Definition cleaned_column (col : Row → R) (plane : string) (magnet_df : MagnetDf) : list R :=
  map col (List.filter (cleaned plane) (rows magnet_df)).

Definition set_header (key : string) (v : R) (magnet_df : MagnetDf) : MagnetDf :=
  {| headers := <[key := v]> (headers magnet_df); rows := rows magnet_df |}.

Definition header (magnet_df : MagnetDf) (key : string) : Result R :=
  getitem (headers magnet_df) key.

(** [return_sign_for_err] *)
Definition return_sign_for_err (n : nat) : list (list R) :=
  let eye := λ (v : R) (i : nat), map (λ j, if Nat.eqb i j then v else 0) (seq 0 n) in
  replicate n 0 :: flat_map (λ i, [eye 1 i; eye (-1) i]) (seq 0 n).

(** [c[1::2]] *)
Fixpoint odd_entries {A : Type} (c : list A) : list A :=
  match c with
  | _ :: x :: c' => x :: odd_entries c'
  | _ => []
  end.

(** [np.sqrt(np.sum(np.maximum(np.absolute(c[1::2]-c[0]), abs(c[1::2]-c[0]))**2))],
    the error formula shared by [get_beta_waist], [calc_betastar] and
    [calc_beta_inst], on one column [c] of the perturbed results. *)
Definition envelope_err (c : list R) : R :=
  let c0 := nth 0 c 0 in
  let dev := map (λ x, x - c0) (odd_entries c) in
  sqrt (Rsum (map (λ d, (Rmax (Rabs d) (Rabs d)) ^ 2) dev)).

(** The body of the loop over the planes in [calc_betastar]: beta-star
    and its error from beta-at-waist, waist offset and their errors. *)
Definition betastar (betawaist betawaist_err waist waist_err : R) : R * R :=
  let sign := return_sign_for_err 2 in
  let betastar :=
    map (λ s, (betawaist + nth 0 s 0 * betawaist_err)
              + (waist + nth 1 s 0 * waist_err) ^ 2
                / (betawaist + nth 0 s 0 * betawaist_err)) sign in
  (nth 0 betastar 0, envelope_err betastar).

(** [calc_tune] *)
Definition calc_tune (W : World) (magnet_df : MagnetDf) : MagnetDf :=
  let magnet_df :=
    set_header (get_tune_col W "X") (average (cleaned_column TUNEX "X" magnet_df)) magnet_df in
  set_header (get_tune_col W "Y") (average (cleaned_column TUNEY "Y" magnet_df)) magnet_df.

(** [calc_k] *)
Definition calc_k (W : World) (magnet_df : MagnetDf) : MagnetDf :=
  let magnet_df :=
    set_header (get_k_col W) (average (cleaned_column K "X" magnet_df)) magnet_df in
  set_header (get_k_col W) (average (cleaned_column K "Y" magnet_df)) magnet_df.

(** [return_fit_input]: the two rows of [x]. *)
Definition return_fit_input (W : World) (magnet_df : MagnetDf) (plane : string)
  : Result (list R * list R) :=
  polarity ← header magnet_df "POLARITY";
  let sign := if String.eqb plane "X" then polarity else -1 * polarity in
  k_av ← header magnet_df (get_k_col W);
  length ← header magnet_df "LENGTH";
  tune_av ← header magnet_df (get_tune_col W plane);
  let ks := cleaned_column K plane magnet_df in
  mret (map (λ k, sign * (k - k_av) * length) ks, map (λ _, tune_av) ks).

(** [do_fit] with [use_approx=False], the only way it is called. *)
Definition do_fit (W : World) (magnet_df : MagnetDf) (plane : string) : Result (R * R) :=
  xdata ← return_fit_input W magnet_df plane;
  tune_av ← header magnet_df (get_tune_col W plane);
  let ydata := map (λ q, q - tune_av) (cleaned_column (tune plane) plane magnet_df) in
  mret (curve_fit_prec W xdata ydata).

(** [get_av_beta] *)
Definition get_av_beta (W : World) (magnet_df : MagnetDf) : Result MagnetDf :=
  '(bx, ex) ← do_fit W magnet_df "X";
  let magnet_df :=
    set_header (get_av_beta_err_col W "X") ex (set_header (get_av_beta_col W "X") bx magnet_df) in
  '(by_, ey) ← do_fit W magnet_df "Y";
  mret (set_header (get_av_beta_err_col W "Y") ey
          (set_header (get_av_beta_col W "Y") by_ magnet_df)).

(** [x == v] on header values. *)
Definition eqR (x v : R) : bool := if Req_dec_T x v then true else false.

(** [magnet1_df.headers['POLARITY'] == v1 and magnet2_df.headers['POLARITY'] == v2] *)
Definition polarities_are (magnet1_df magnet2_df : MagnetDf) (v1 v2 : R) : Result bool :=
  p1 ← header magnet1_df "POLARITY";
  if eqR p1 v1
  then p2 ← header magnet2_df "POLARITY"; mret (eqR p2 v2)
  else mret false.

(** [return_df]: [None] when no branch returns. *)
Definition return_df (magnet1_df magnet2_df : MagnetDf) (plane : string)
  : Result (option (MagnetDf * MagnetDf)) :=
  if String.eqb plane "X" then
    b ← polarities_are magnet1_df magnet2_df 1 (-1);
    if b : bool then mret (Some (magnet1_df, magnet2_df))
    else
      b ← polarities_are magnet1_df magnet2_df (-1) 1;
      if b : bool then mret (Some (magnet2_df, magnet1_df)) else mret None
  else if String.eqb plane "Y" then
    b ← polarities_are magnet1_df magnet2_df (-1) 1;
    if b : bool then mret (Some (magnet1_df, magnet2_df))
    else
      b ← polarities_are magnet1_df magnet2_df 1 (-1);
      if b : bool then mret (Some (magnet2_df, magnet1_df)) else mret None
  else mret None.

(** [average_beta_focussing_quadrupole] *)
Definition average_beta_focussing_quadrupole (b w L K Lstar : R) : R :=
  let beta0 := b + ((Lstar - w) ^ 2 / b) in
  let alpha0 := - (Lstar - w) / b in
  (beta0 / 2) * (1 + (sin (2 * sqrt K * L) / (2 * sqrt K * L)))
  - alpha0 * ((sin (sqrt K * L)) ^ 2 / (K * L))
  + (1 / (2 * K)) * ((1 + alpha0 ^ 2) / beta0) * (1 - (sin (2 * sqrt K * L) / (2 * sqrt K * L))).

(** [average_beta_defocussing_quadrupole] *)
Definition average_beta_defocussing_quadrupole (b w L K Lstar : R) : R :=
  let beta0 := b + ((Lstar - w) ^ 2 / b) in
  let alpha0 := - (Lstar - w) / b in
  (beta0 / 2) * (1 + (sinh (2 * sqrt K * L) / (2 * sqrt K * L)))
  - alpha0 * ((sinh (sqrt K * L)) ^ 2 / (K * L))
  + (1 / (2 * K)) * ((1 + alpha0 ^ 2) / beta0) * ((sinh (2 * sqrt K * L) / (2 * sqrt K * L)) - 1).

(** The header entries of a magnet that [chi2] reads. *)
Record MagnetHeaders : Type := {
  LENGTH : R;
  K_AV : R;
  LSTAR : R;
  AVBETA : R;
  AVBETAERR : R
}.

Definition read_headers (W : World) (magnet_df : MagnetDf) (plane : string)
  : Result MagnetHeaders :=
  l ← header magnet_df "LENGTH";
  k ← header magnet_df (get_k_col W);
  ls ← header magnet_df "LSTAR";
  b ← header magnet_df (get_av_beta_col W plane);
  e ← header magnet_df (get_av_beta_err_col W plane);
  mret {| LENGTH := l; K_AV := k; LSTAR := ls; AVBETA := b; AVBETAERR := e |}.

(** [chi2], on the header entries of the two magnets. *)
Definition chi2 (x : R * R) (foc def : MagnetHeaders) (kmod_input_params : KmodInput)
    (sign : list R) : R :=
  let b := x.1 in
  let w := x.2 in
  let s := λ i, nth i sign 0 in
  (average_beta_focussing_quadrupole b w
     (LENGTH foc + s 0%nat * errorL kmod_input_params)
     (K_AV foc + s 1%nat * errorK kmod_input_params * K_AV foc)
     (LSTAR foc + s 2%nat * misalignment kmod_input_params)
   - AVBETA foc + s 3%nat * AVBETAERR foc) ^ 2
  + (average_beta_defocussing_quadrupole b (- w)
       (LENGTH def + s 4%nat * errorL kmod_input_params)
       (K_AV def + s 5%nat * errorK kmod_input_params * K_AV def)
       (LSTAR def + s 6%nat * misalignment kmod_input_params)
     - AVBETA def + s 7%nat * AVBETAERR foc) ^ 2.

(** The tail of [get_beta_waist]: nominal values and errors from the
    17 rows of fit results. *)
Definition waist_results (results : list (R * R)) : R * R * R * R :=
  let beta_waist_err := envelope_err results.*1 in
  let waist_err := envelope_err results.*2 in
  ((nth 0 results (0, 0)).1, beta_waist_err, (nth 0 results (0, 0)).2, waist_err).

(** [get_beta_waist]; unpacking the [None] of [return_df] is a [TypeError]. *)
Definition get_beta_waist (W : World) (magnet1_df magnet2_df : MagnetDf)
    (kmod_input_params : KmodInput) (plane : string) : Result (R * R * R * R) :=
  let sign := return_sign_for_err 8 in
  pair ← return_df magnet1_df magnet2_df plane;
  match pair with
  | None => raise TypeError
  | Some (foc_magnet_df, def_magnet_df) =>
      foc ← read_headers W foc_magnet_df plane;
      def ← read_headers W def_magnet_df plane;
      let results :=
        map (λ s, minimize W (λ x, chi2 x foc def kmod_input_params s)
                    (return_guess kmod_input_params plane)) sign in
      mret (waist_results results)
  end.

(** [analyse]: the two magnet tables and the results for X and Y. *)
Definition analyse (W : World) (magnet1_df magnet2_df : MagnetDf)
    (kmod_input_params : KmodInput)
  : Result (MagnetDf * MagnetDf * ((R * R * R * R) * (R * R * R * R))) :=
  let magnet1_df := calc_tune W magnet1_df in
  let magnet2_df := calc_tune W magnet2_df in
  let magnet1_df := calc_k W magnet1_df in
  let magnet2_df := calc_k W magnet2_df in
  magnet1_df ← get_av_beta W magnet1_df;
  magnet2_df ← get_av_beta W magnet2_df;
  results_x ← get_beta_waist W magnet1_df magnet2_df kmod_input_params "X";
  results_y ← get_beta_waist W magnet1_df magnet2_df kmod_input_params "Y";
  mret (magnet1_df, magnet2_df, (results_x, results_y)).

(** [np.modf(x)[0]]: the fractional part, with the sign of [x]. *)
Definition modf_frac (x : R) : R :=
  if Rle_dec 0 x then frac_part x else - frac_part (- x).

(** [fit_prec] on one column [(x[0], x[1])] of [x]. *)
Definition fit_prec (x : R * R) (beta_av : R) : R :=
  (1 / (2 * PI))
  * acos (cos (2 * PI * modf_frac x.2)
          - 0.5 * beta_av * x.1 * sin (2 * PI * modf_frac x.2))
  - modf_frac x.2.

(** [fit_approx] on one column of [x]. *)
Definition fit_approx (x : R * R) (beta_av : R) : R := beta_av * x.1 / (4 * PI).

(** The sign table written out in [calc_beta_inst]. *)
Definition inst_sign : list (list R) := [[0; 0]; [1; 0]; [-1; 0]; [0; 1]; [0; -1]].

(** The body of the loop over the planes in [calc_beta_inst], on the
    results of one plane (beta-at-waist, its error, waist, its error). *)
Definition beta_inst (plane : string) (position : R) (results : R * R * R * R) : R * R :=
  let '(betawaist, betawaist_err, waist, waist_err) := results in
  let waist := if String.eqb plane "Y" then - waist else waist in
  let beta :=
    map (λ s, (betawaist + nth 0 s 0 * betawaist_err)
              + ((waist - position) + nth 1 s 0 * waist_err) ^ 2
                / (betawaist + nth 0 s 0 * betawaist_err)) inst_sign in
  (nth 0 beta 0, envelope_err beta).

(** [calc_beta_inst], on the results of the two planes. *)
Definition calc_beta_inst (name : string) (position : R)
    (results_df : (R * R * R * R) * (R * R * R * R)) : string * R * R * R * R :=
  let bx := beta_inst "X" position results_df.1 in
  let by_ := beta_inst "Y" position results_df.2 in
  (name, bx.1, bx.2, by_.1, by_.2).

(** [calc_beta_at_instruments]: one row per position of every instrument
    found. *)
Definition calc_beta_at_instruments (instruments_found : list (list (string * R)))
    (results_df : (R * R * R * R) * (R * R * R * R)) : list (string * R * R * R * R) :=
  flat_map (λ positions,
              map (λ np : string * R, calc_beta_inst np.1 np.2 results_df) positions)
           instruments_found.

(** [calc_betastar]: beta-star and its error for the two planes. *)
Definition calc_betastar (results_df : (R * R * R * R) * (R * R * R * R))
  : (R * R) * (R * R) :=
  let star := λ r : R * R * R * R, betastar r.1.1.1 r.1.1.2 r.1.2 r.2 in
  (star results_df.1, star results_df.2).

(** ** Concrete inputs *)

(** Two magnets of the same polarity. *)
Definition same_polarity_magnet : MagnetDf :=
  {| headers := {["POLARITY"%string := 1; "LENGTH"%string := 6; "LSTAR"%string := 23]};
     rows := [] |}.

(** A modulation of three steps; the first is rejected in the Y plane
    only, the last in the X plane only. *)
Definition three_steps : MagnetDf :=
  {| headers := {["POLARITY"%string := 1; "LENGTH"%string := 6; "LSTAR"%string := 23]};
     rows := [ {| K := 1; TUNEX := 0; TUNEY := 0; CLEANEDX := true; CLEANEDY := false |};
               {| K := 2; TUNEX := 0; TUNEY := 0; CLEANEDX := true; CLEANEDY := true |};
               {| K := 6; TUNEX := 0; TUNEY := 0; CLEANEDX := false; CLEANEDY := true |} ] |}.

(** Header names and optimisers for the examples: the minimiser stays at
    its starting point, the curve fit reports the mean of its data. *)
Definition demo_world : World :=
  {| get_k_col := "K";
     get_tune_col := λ plane, ("TUNE" +:+ plane)%string;
     get_av_beta_col := λ plane, ("AVERAGEBETA" +:+ plane)%string;
     get_av_beta_err_col := λ plane, ("ERRAVERAGEBETA" +:+ plane)%string;
     curve_fit_prec := λ _ ydata, (average ydata, 0);
     minimize := λ _ guess, guess |}.

Definition demo_input : KmodInput :=
  {| errorL := 0; errorK := 0; misalignment := 0; return_guess := λ _, (1, 0) |}.

(** Seventeen rows of fit results, one column: every "plus" row equals the
    nominal row, the first "minus" row is off by one. *)
Definition minus_row_off : list (R * R) :=
  [(10, 0); (10, 0); (11, 0); (10, 0); (10, 0); (10, 0); (10, 0); (10, 0); (10, 0);
   (10, 0); (10, 0); (10, 0); (10, 0); (10, 0); (10, 0); (10, 0); (10, 0)].

End KmodAnalysis.

(** * tune_analysis/bbq_tools.py *)

Module BbqTools.
Local Open Scope Q_scope.

(** A series of floats; [None] is NaN. *)
Definition Series : Type := list (option Q).

(** The pandas calls of [_get_interpolated_moving_average]:
    [interpolate("index")], and [rolling(length).mean()] and
    [rolling(length).std()] for a window that [rolling] accepts. *)
Record World : Type := {
  interpolate_index : Series → Series;
  rolling_mean : Z → Series → Series;
  rolling_std : Z → Series → Series
}.

(** [series <= v], [series >= v]: false on NaN. *)
Definition le_mask (s : Series) (v : Q) : list bool :=
  map (λ x, match x with Some q => Qle_bool q v | None => false end) s.
Definition ge_mask (s : Series) (v : Q) : list bool :=
  map (λ x, match x with Some q => Qle_bool v q | None => false end) s.

(** Comparison against a series, row by row. *)
Definition le_series (s t : Series) : list bool :=
  zip_with (λ x y, match x, y with Some a, Some b => Qle_bool a b | _, _ => false end) s t.
Definition ge_series (s t : Series) : list bool := le_series t s.

Definition isna (s : Series) : list bool :=
  map (λ x, match x with Some _ => false | None => true end) s.

Definition zeros (n : nat) : list bool := replicate n false.

Definition mask_or (a b : list bool) : list bool := zip_with orb a b.
Definition mask_not (a : list bool) : list bool := map negb a.

(** [sum(mask)] *)
Definition mask_sum (mask : list bool) : Z :=
  Z.of_nat (length (List.filter (λ b, b) mask)).

(** [_is_almost_empty_mask] *)
Definition _is_almost_empty_mask (mask : list bool) (av_length : Z) : Result unit :=
  if (mask_sum mask <=? av_length)%Z then raise ValueError else mret ().

(** [fillna(method="bfill")] and [fillna(method="ffill")] *)
Fixpoint bfill (s : Series) : Series :=
  match s with
  | [] => []
  | x :: s' =>
      let r := bfill s' in
      match x with
      | Some _ => x :: r
      | None => (match r with y :: _ => y | [] => None end) :: r
      end
  end.
Definition ffill (s : Series) : Series := rev (bfill (rev s)).

(** [series.shift(k)] *)
Definition shift (k : Z) (s : Series) : Series :=
  let n := length s in
  if (k <? 0)%Z
  then drop (Z.to_nat (- k)) s ++ replicate (Nat.min n (Z.to_nat (- k))) None
  else replicate (Nat.min n (Z.to_nat k)) None ++ take (n - Z.to_nat k) s.

(** [_get_interpolated_moving_average]; [data.rolling(length)] refuses a
    negative window with a [ValueError]. *)
Definition _get_interpolated_moving_average (W : World) (data_series : Series)
    (clean_mask : list bool) (length : Z) : Result (Series * Series) :=
  let data := zip_with (λ (x : option Q) (m : bool), if m then None else x)
                data_series clean_mask in
  let data := ffill (bfill (interpolate_index W data)) in
  let shift_by := (- Z.quot (length - 1) 2)%Z in
  if (length <? 0)%Z then raise ValueError
  else
    let data_mav := ffill (bfill (shift shift_by (rolling_mean W length data))) in
    let std_mav := ffill (bfill (shift shift_by (rolling_std W length data))) in
    mret (data_mav, std_mav).

(** [bool(x)] of an optional number. *)
Definition truthy_Z (x : option Z) : bool :=
  match x with Some z => negb (Z.eqb z 0) | None => false end.
Definition truthy_Q (x : option Q) : bool :=
  match x with Some q => negb (Qeq_bool q 0) | None => false end.

(** The exclusion mask of the first pass. *)
Definition cut_mask (data_series : Series) (min_val max_val : option Q) : list bool :=
  let min_mask := match min_val with
                  | Some v => le_mask data_series v
                  | None => zeros (length data_series)
                  end in
  let max_mask := match max_val with
                  | Some v => ge_mask data_series v
                  | None => zeros (length data_series)
                  end in
  mask_or (mask_or min_mask max_mask) (isna data_series).

Definition series_add (s : Series) (c : Q) : Series := map (fmap (λ x, x + c)) s.

(** [get_moving_average] *)
Definition get_moving_average (W : World) (data_series : Series) (length : Z)
    (min_val max_val : option Q) (fine_length : option Z) (fine_cut : option Q)
  : Result (Series * Series * list bool) :=
  if xorb (truthy_Z fine_length) (truthy_Q fine_cut) then raise NotImplementedError
  else
    let cut := cut_mask data_series min_val max_val in
    _ ← _is_almost_empty_mask (mask_not cut) length;
    '(data_mav, std_mav) ← _get_interpolated_moving_average W data_series cut length;
    match fine_length with
    | None => mret (data_mav, std_mav, cut)
    | Some fl =>
        match fine_cut with
        | None => raise TypeError  (* data_mav - None *)
        | Some fc =>
            let min_mask := le_series data_series (series_add data_mav (- fc)) in
            let max_mask := ge_series data_series (series_add data_mav fc) in
            let cut := mask_or (mask_or min_mask max_mask) (isna data_series) in
            _ ← _is_almost_empty_mask (mask_not cut) fl;
            '(data_mav, std_mav) ← _get_interpolated_moving_average W data_series cut fl;
            mret (data_mav, std_mav, cut)
        end
    end.

(** A point survives the first pass when it is a number strictly between
    the two bounds that are given. *)
Definition survives (min_val max_val : option Q) (x : option Q) : bool :=
  match x with
  | None => false
  | Some q =>
      negb (match min_val with Some v => Qle_bool q v | None => false end) &&
      negb (match max_val with Some v => Qle_bool v q | None => false end)
  end.

(** ** Concrete inputs: pandas stand-ins that return the series as it is. *)
Definition demo_world : World :=
  {| interpolate_index := λ s, s;
     rolling_mean := λ _ s, s;
     rolling_std := λ _ s, map (fmap (λ _, 0)) s |}.

Definition demo_series : Series :=
  [Some (31 # 100); Some (29 # 100); None; Some (90 # 100); Some (30 # 100)].

End BbqTools.

(** * tune_analysis/detuning_tools.py *)

Module DetuningTools.
Local Open Scope Q_scope.

(** [range(n)] for a Python int. *)
Definition range (n : Z) : list nat := seq 0 (Z.to_nat n).

(** The function [get_poly_fun(order)] returns, at a scalar [x]:
    [sum(beta[i] * np.power(x, i) for i in range(order+1))]. *)
Definition poly_func (order : Z) (beta : list Q) (x : Q) : Result Q :=
  terms ← mapM (λ i, match beta !! i with
                     | Some b => mret (b * x ^ Z.of_nat i)
                     | None => raise IndexError
                     end) (range (order + 1));
  mret (foldl Qplus 0 terms).

(** [[0.] + [1.] * order], the starting point [do_odr] hands to the fit. *)
Definition beta0 (order : Z) : list Q := 0 :: replicate (Z.to_nat order) 1.

End DetuningTools.

(** * Properties of the embedded code *)

(** ** Results *)

Lemma bind_inr {A B : Type} (r : Result A) (f : A → Result B) (b : B) :
  r ≫= f = inr b → ∃ a, r = inr a ∧ f a = inr b.
Proof. destruct r as [e|a]; simpl; [discriminate | eauto]. Qed.

Lemma mapM_inr {A B : Type} (f : A → Result B) (l : list A) (k : list B) :
  mapM f l = inr k → Forall2 (λ x y, f x = inr y) l k.
Proof.
  revert k. induction l as [|x l IH]; intros k H; simpl in H.
  - injection H as <-. constructor.
  - apply bind_inr in H as (y & Hy & H).
    apply bind_inr in H as (k' & Hk' & H).
    injection H as <-. constructor; auto.
Qed.

(** Splits a hypothesis [x ← r; k = inr b] into the steps that succeeded. *)
Ltac inv_bind H :=
  repeat match type of H with
  | (_ ≫= _) = inr _ =>
      let a := fresh "a" in
      let E := fresh "E" in
      apply bind_inr in H as (a & E & H)
  | (let '(_, _) := ?p in _) = inr _ => destruct p
  end.

(** ** Lists *)

Lemma filter_sublist {A : Type} (f : A → bool) (l : list A) :
  List.filter f l `sublist_of` l.
Proof.
  induction l as [|x l IH]; simpl; [constructor|].
  destruct (f x); by constructor.
Qed.

Lemma elem_of_filter_bool {A : Type} (f : A → bool) (l : list A) (x : A) :
  x ∈ List.filter f l ↔ x ∈ l ∧ f x = true.
Proof. rewrite !list_elem_of_In. apply filter_In. Qed.

Lemma NoDup_fst_functional {A B : Type} (l : list (A * B)) (x : A) (y1 y2 : B) :
  NoDup l.*1 → (x, y1) ∈ l → (x, y2) ∈ l → y1 = y2.
Proof.
  induction l as [|[a b] l IH]; simpl; intros Hnd H1 H2.
  - by apply elem_of_nil in H1.
  - apply NoDup_cons in Hnd as [Hnotin Hnd].
    apply elem_of_cons in H1 as [H1|H1]; apply elem_of_cons in H2 as [H2|H2].
    + congruence.
    + injection H1 as -> ->. exfalso. apply Hnotin.
      apply list_elem_of_fmap. by exists (a, y2).
    + injection H2 as -> ->. exfalso. apply Hnotin.
      apply list_elem_of_fmap. by exists (a, y1).
    + eauto.
Qed.

(** ** correction/handler.py: the iteration phase *)

Section handler_loop.
Import Handler.
Context (W : World) (opt : Opt) (optics_params : list string).

Lemma delta_frame_index (data : list Q) (vars : list string) (d : Delta) :
  delta_frame data vars = inr d → d.*1 = vars.
Proof.
  unfold delta_frame. destruct (Nat.eqb_spec (length data) (length vars)) as [Hlen|];
    [|discriminate].
  intros [= <-]. apply fst_zip. lia.
Qed.

Lemma zip_with_add_index (d inc : Delta) :
  d.*1 = inc.*1 →
  (zip_with (λ a b : string * Q, (a.1, (a.2 + b.2)%Q)) d inc).*1 = d.*1.
Proof.
  revert inc. induction d as [|a d IH]; intros [|b inc]; simpl; try done.
  intros [= _ Hrest]. f_equal. by apply IH.
Qed.

Lemma iadd_index (d inc acc : Delta) :
  iadd d inc = inr acc → acc.*1 = d.*1 ∧ d.*1 = inc.*1.
Proof.
  unfold iadd. case_bool_decide as Heq; [|discriminate].
  intros [= <-]. split; [by apply zip_with_add_index | done].
Qed.

(** Aligned frames add without an error. *)
Lemma iadd_aligned (d inc : Delta) : d.*1 = inc.*1 → ∃ acc, iadd d inc = inr acc.
Proof. intros Heq. unfold iadd. rewrite bool_decide_eq_true_2 by done. eauto. Qed.

Lemma calculate_delta_index rm md keys vars meth mopt (inc : Delta) :
  _calculate_delta W rm md keys vars meth mopt = inr inc → inc.*1 = vars.
Proof.
  unfold _calculate_delta. intros H. inv_bind H. by apply delta_frame_index in H.
Qed.

Lemma loc_columns_labels (rm rm' : ResponseMatrix) (labels : list string) :
  loc_columns rm labels = inr rm' → ∀ x, x ∈ rm'.*1 → x ∈ labels.
Proof.
  unfold loc_columns. intros H. inv_bind H. injection H as <-.
  apply mapM_inr in E. induction E as [|l cs labels css Hl _ IH]; simpl.
  - intros x Hx. by apply elem_of_nil in Hx.
  - intros x. rewrite fmap_app, elem_of_app. intros [Hx|Hx].
    + apply elem_of_cons. left.
      assert (Hcs : cs = List.filter (λ c : string * list Q, String.eqb c.1 l) rm).
      { destruct (List.filter _ rm); [discriminate | by injection Hl]. }
      apply list_elem_of_fmap in Hx as ([c col] & -> & Hc).
      rewrite Hcs in Hc. apply elem_of_filter_bool in Hc as [_ Hc].
      simpl in *. by apply String.eqb_eq in Hc.
    + apply elem_of_cons. right. by apply IH.
Qed.

(** Selecting labels that are all among the columns raises no [KeyError]. *)
Lemma loc_columns_present (rm : ResponseMatrix) (labels : list string) :
  (∀ l, l ∈ labels → l ∈ rm.*1) → ∃ rm', loc_columns rm labels = inr rm'.
Proof.
  intros Hin. unfold loc_columns.
  assert (∃ css, mapM (λ l, match List.filter (λ c : string * list Q, String.eqb c.1 l) rm with
                            | [] => raise KeyError
                            | cs => mret cs
                            end) labels = inr css) as [css ->]; [|simpl; eauto].
  induction labels as [|l labels IH]; simpl; [eauto|].
  destruct IH as [css ->]; [intros l' Hl'; apply Hin; by right|].
  assert (Hl : l ∈ rm.*1) by (apply Hin; by left).
  apply list_elem_of_fmap in Hl as ([c col] & -> & Hc).
  assert (Hf : (c, col) ∈ List.filter (λ c0 : string * list Q, String.eqb c0.1 c) rm).
  { apply elem_of_filter_bool. split; [done|]. apply String.eqb_refl. }
  simpl in *. destruct (List.filter _ rm); [by apply elem_of_nil in Hf | simpl; eauto].
Qed.

Lemma update_keeps_delta (it : nat) (s s' : Loop W) :
  update_model_and_response W opt optics_params it s = inr s' →
  delta s' = delta s ∧ vars_list s' = vars_list s.
Proof.
  unfold update_model_and_response. intros H. inv_bind H.
  destruct (update_response opt); inv_bind H; by injection H as <-.
Qed.

(** The increment is computed over [vars_list], the index of the running
    delta: [delta += increment] adds aligned frames. *)
Lemma accumulate_index (it : nat) (s s1 : Loop W) (acc : Delta) :
  accumulate W opt optics_params it s = inr (s1, acc) →
  acc.*1 = (delta s).*1 ∧ (delta s).*1 = vars_list s ∧
  delta s1 = delta s ∧ vars_list s1 = vars_list s.
Proof.
  unfold accumulate. intros H. inv_bind H. injection H as <- <-.
  apply calculate_delta_index in E0. apply iadd_index in E1 as [Hacc Hd].
  assert (delta a = delta s ∧ vars_list a = vars_list s) as [Hdl Hvl].
  { destruct (0 <? it)%nat; [by eapply update_keeps_delta | by injection E as <-]. }
  rewrite <- Hdl, <- Hvl. repeat split; congruence.
Qed.

Lemma filter_by_strength_inv (acc d : Delta) (rm rm' : ResponseMatrix) (m : Q)
    (vars : list string) :
  _filter_by_strength acc rm m = inr (d, rm', vars) →
  d = List.filter (λ row : string * Q, abs_gt row.2 m) acc ∧
  vars = d.*1 ∧ (∀ x, x ∈ rm'.*1 → x ∈ d.*1).
Proof.
  unfold _filter_by_strength. intros H. inv_bind H. injection H as <- <- <-.
  repeat split. by eapply loc_columns_labels.
Qed.

Lemma iteration_body_inv (it : nat) (s s' : Loop W) :
  iteration_body W opt optics_params it s = inr s' →
  ∃ s1 acc,
    accumulate W opt optics_params it s = inr (s1, acc) ∧
    delta s' = List.filter (λ row : string * Q, abs_gt row.2 (min_corrector_strength opt)) acc ∧
    vars_list s' = (delta s').*1 ∧
    (∀ x, x ∈ (resp_matrix s').*1 → x ∈ (delta s').*1).
Proof.
  unfold iteration_body. intros H. inv_bind H. injection H as <-. simpl.
  apply filter_by_strength_inv in E0 as (Hd & Hv & Hrm). eauto 10.
Qed.

Lemma iteration_body_sublist (it : nat) (s s' : Loop W) :
  iteration_body W opt optics_params it s = inr s' →
  (delta s').*1 `sublist_of` (delta s).*1.
Proof.
  intros (s1 & acc & Hacc & Hd & _)%iteration_body_inv.
  apply accumulate_index in Hacc as (<- & _). rewrite Hd.
  apply fmap_sublist, filter_sublist.
Qed.

Lemma iterate_app (its1 its2 : list nat) (s : Loop W) :
  iterate W opt optics_params (its1 ++ its2) s =
  iterate W opt optics_params its1 s ≫= iterate W opt optics_params its2.
Proof.
  revert s. induction its1 as [|it its1 IH]; intros s; simpl; [done|].
  destruct (iteration_body W opt optics_params it s) as [e|s']; simpl; [done|]. apply IH.
Qed.

(** The index of the Delta Vector only ever shrinks. *)
Lemma iterate_sublist (its : list nat) (s s' : Loop W) :
  iterate W opt optics_params its s = inr s' →
  (delta s').*1 `sublist_of` (delta s).*1.
Proof.
  revert s. induction its as [|it its IH]; intros s H; simpl in H.
  - by injection H as <-.
  - inv_bind H. etrans; [by apply IH | by eapply iteration_body_sublist].
Qed.

(** After at least one pass, the variable list is the index of the Delta
    Vector and the response matrix has no other columns. *)
Lemma iterate_aligned (its : list nat) (it : nat) (s s' : Loop W) :
  iterate W opt optics_params (its ++ [it]) s = inr s' →
  vars_list s' = (delta s').*1 ∧ (∀ x, x ∈ (resp_matrix s').*1 → x ∈ (delta s').*1).
Proof.
  rewrite iterate_app. intros H. inv_bind H. simpl in H. inv_bind H. injection H as <-.
  apply iteration_body_inv in E0 as (_ & _ & _ & _ & Hv & Hrm). done.
Qed.
End handler_loop.

Section handler_run.
Import Handler.

Lemma correct_setup_index (W : World) (opt : Opt) (fs0 : gmap string File)
    (optics_params : list string) (s0 : Loop W) :
  correct_setup W opt fs0 = inr (optics_params, s0) → (delta s0).*1 = vars_list s0.
Proof.
  unfold correct_setup. intros H. inv_bind H. injection H as <- <-. simpl.
  rewrite <- list_fmap_compose. apply list_fmap_id.
Qed.

(** C1.  In the iteration loop of [correct], a corrector whose accumulated
    |DELTA| does not exceed [min_corrector_strength] at iteration [i] is
    absent from the Delta Vector, from the variable list and from the
    columns of the response matrix after iteration [i] and after every
    later iteration [i + k] of the run, whatever increments the solver
    computes later.  Corrector names are distinct, as the accelerator
    hands them out. *)
Theorem pruned_corrector_never_reappears
    (W : World) (opt : Opt) (fs0 : gmap string File) (optics_params : list string)
    (s0 s_in s1 s_out : Loop W) (i k : nat) (acc : Delta) (v : string) (x : Q) :
  correct_setup W opt fs0 = inr (optics_params, s0) →
  NoDup (vars_list s0) →
  iterate W opt optics_params (seq 0 i) s0 = inr s_in →
  accumulate W opt optics_params i s_in = inr (s1, acc) →
  (v, x) ∈ acc →
  abs_gt x (min_corrector_strength opt) = false →
  iterate W opt optics_params (seq 0 (S (i + k))) s0 = inr s_out →
  v ∈ vars_list s_in ∧
  (v ∉ (delta s_out).*1) ∧ (v ∉ vars_list s_out) ∧ (v ∉ (resp_matrix s_out).*1).
Proof.
  intros Hsetup Hnd Hin Hacc Hv Hx Hout.
  split.
  { apply accumulate_index in Hacc as (Hidx & Hvars & _). rewrite <- Hvars, <- Hidx.
    apply list_elem_of_fmap. by exists (v, x). }
  assert (Hv_out : v ∉ (delta s_out).*1).
  { replace (S (i + k)) with (i + S k)%nat in Hout by lia.
    rewrite seq_app, iterate_app, Hin in Hout. simpl in Hout.
    apply bind_inr in Hout as (s_i & Hbody & Hrest).
    apply iteration_body_inv in Hbody as (s1' & acc' & Hacc' & Hd & _).
    rewrite Hacc in Hacc'. injection Hacc' as <- <-.
    apply accumulate_index in Hacc as (Hidx & _).
    assert (Hnd_acc : NoDup acc.*1).
    { rewrite Hidx. eapply sublist_NoDup; [|by eapply iterate_sublist].
      by erewrite correct_setup_index. }
    intros Hcontra.
    eapply elem_of_sublist in Hcontra; [|by eapply iterate_sublist].
    rewrite Hd in Hcontra.
    apply list_elem_of_fmap in Hcontra as ([v' y] & -> & Hy).
    apply elem_of_filter_bool in Hy as [Hy Hgt]. simpl in *.
    assert (y = x) as -> by (by eapply NoDup_fst_functional).
    congruence. }
  replace (S (i + k)) with (i + k + 1)%nat in Hout by lia.
  rewrite seq_app in Hout. simpl in Hout.
  apply iterate_aligned in Hout as [Hvars Hrm].
  rewrite Hvars. repeat split; auto.
Qed.

Lemma pruned_corrector_never_reappears_witness :
  ∃ (optics_params : list string) (s0 s_out : Loop demo_world),
    correct_setup demo_world demo_opt ∅ = inr (optics_params, s0) ∧
    iterate demo_world demo_opt optics_params (seq 0 3) s0 = inr s_out ∧
    "kq1"%string ∈ vars_list s0 ∧
    ("kq1"%string ∉ (delta s_out).*1) ∧ ("kq1"%string ∉ vars_list s_out) ∧
    ("kq1"%string ∉ (resp_matrix s_out).*1).
Proof.
  do 3 eexists. split; [vm_compute; reflexivity|]. split; [vm_compute; reflexivity|].
  eapply (pruned_corrector_never_reappears demo_world demo_opt ∅ ["Q"%string]
            _ _ _ _ 0 2 _ "kq1"%string _).
  - vm_compute. reflexivity.
  - apply (bool_decide_unpack _). vm_compute. exact I.
  - reflexivity.
  - vm_compute. reflexivity.
  - apply elem_of_cons. left. reflexivity.
  - reflexivity.
  - vm_compute. reflexivity.
Defined.
End handler_run.

(** ** correction/handler.py: measurement loading *)

Section handler_measurement.
Import Handler.
Local Open Scope Q_scope.
Context (W : World) (meas_dir beta_file_name : string).

Lemma remainder1_range (q : Q) : 0 <= remainder1 q ∧ remainder1 q < 1.
Proof.
  unfold remainder1. pose proof (Qfloor_le q) as Hle. pose proof (Qlt_floor q) as Hlt.
  rewrite inject_Z_plus in Hlt. change (inject_Z 1) with 1 in Hlt.
  split; lra.
Qed.

Lemma remainder1_integer (q : Q) : q - remainder1 q == inject_Z (Qfloor q).
Proof. unfold remainder1. ring. Qed.

Lemma filter_keys_spec (w_dict : gmap string Q) (keys fk : list string) :
  filter_keys w_dict keys = inr fk →
  ∀ k, k ∈ fk ↔ k ∈ keys ∧ ∃ wk, w_dict !! k = Some wk ∧ Qeq_bool wk 0 = false.
Proof.
  revert fk. induction keys as [|key keys IH]; intros fk H; simpl in H.
  - injection H as <-. intros k. split; [by intros ?%elem_of_nil | by intros [?%elem_of_nil _]].
  - inv_bind H. injection H as <-. specialize (IH _ E0).
    unfold getitem in E. destruct (w_dict !! key) as [wk|] eqn:Hw; [|discriminate].
    injection E as <-. intros k. destruct (Qeq_bool wk 0) eqn:Hz.
    + rewrite IH, elem_of_cons. split.
      * intros [Hk Hex]. split; [by right | done].
      * intros [[->|Hk] (wk' & Hwk' & Hnz)]; [congruence | eauto].
    + rewrite !elem_of_cons, IH. split.
      * intros [->|[Hk Hex]]; [split; [by left | eauto] | split; [by right | done]].
      * intros [[->|Hk] Hex]; [by left | by right].
Qed.

(** A key is the only entry of the dictionary its turn of the loop can
    touch. *)
Lemma load_key_other (m m' : gmap string DataFrame) (key k : string) :
  load_key W meas_dir beta_file_name m key = inr m' → k ≠ key → m' !! k = m !! k.
Proof.
  unfold load_key. intros H Hne.
  repeat match type of H with
  | (if ?b then _ else _) = _ => destruct b
  end; inv_bind H; injection H as <-; by rewrite ?lookup_insert_ne.
Qed.

Lemma load_keys_other (m m' : gmap string DataFrame) (keys : list string) (k : string) :
  load_keys W meas_dir beta_file_name m keys = inr m' → k ∉ keys → m' !! k = m !! k.
Proof.
  revert m. induction keys as [|key keys IH]; intros m H Hk; simpl in H.
  - by injection H as <-.
  - apply not_elem_of_cons in Hk as [Hne Hk]. inv_bind H.
    rewrite (IH _ H Hk). by eapply load_key_other.
Qed.

Lemma load_key_Q (m m' : gmap string DataFrame) :
  load_key W meas_dir beta_file_name m "Q" = inr m' →
  ∃ t, tune_table W meas_dir = inr t ∧ m' = <["Q"%string := t]> m.
Proof.
  unfold load_key. simpl. intros H. inv_bind H. injection H as <-. eauto.
Qed.

Lemma load_keys_Q_kept (m m' : gmap string DataFrame) (keys : list string) (t : DataFrame) :
  load_keys W meas_dir beta_file_name m keys = inr m' →
  tune_table W meas_dir = inr t → m !! "Q"%string = Some t → m' !! "Q"%string = Some t.
Proof.
  revert m. induction keys as [|key keys IH]; intros m H Ht Hm; simpl in H.
  - by injection H as <-.
  - inv_bind H. apply (IH _ H Ht).
    destruct (decide (key = "Q"%string)) as [->|Hne].
    + apply load_key_Q in E as (t' & Ht' & ->). rewrite Ht in Ht'. injection Ht' as <-.
      apply lookup_insert_eq.
    + erewrite load_key_other; eauto.
Qed.

Lemma load_keys_Q (m m' : gmap string DataFrame) (keys : list string) :
  load_keys W meas_dir beta_file_name m keys = inr m' → "Q"%string ∈ keys →
  ∃ t, tune_table W meas_dir = inr t ∧ m' !! "Q"%string = Some t.
Proof.
  revert m. induction keys as [|key keys IH]; intros m H Hin; simpl in H.
  - by apply elem_of_nil in Hin.
  - inv_bind H. destruct (decide (key = "Q"%string)) as [->|Hne].
    + apply load_key_Q in E as (t & Ht & ->). exists t. split; [done|].
      eapply load_keys_Q_kept; eauto. apply lookup_insert_eq.
    + apply elem_of_cons in Hin as [?|Hin]; [congruence|]. eauto.
Qed.

Lemma tune_table_inv (t : DataFrame) :
  tune_table W meas_dir = inr t →
  ∃ f q1 q2,
    read_meas W meas_dir (PHASE_NAME W +:+ "x" +:+ EXT W) = inr f ∧
    df_getitem f "Q1" = inr (ItemHeader q1) ∧
    df_getitem f "Q2" = inr (ItemHeader q2) ∧
    t = tune_frame q1 q2.
Proof.
  unfold tune_table. intros H. inv_bind H. rewrite E in E1. injection E1 as <-.
  destruct a0 as [|q1], a2 as [|q2]; try discriminate.
  injection H as <-. eauto 10.
Qed.

(** C7.  [_get_measurment_data] leaves every key of weight zero out of
    the returned key list and out of the measurement dictionary; and when
    "Q" is requested with non-zero weight, its table has the rows Q1 and
    Q2, a VALUE column with the two tune headers of the horizontal phase
    file reduced modulo 1 (a value in [0, 1) that differs from the header
    by an integer) and an ERROR column holding 0.001 twice. *)
Theorem measurement_data_skips_zero_weight_and_builds_tune
    (keys : list string) (w_dict : gmap string Q)
    (filtered_keys : list string) (measurement : gmap string DataFrame) :
  _get_measurment_data W keys meas_dir beta_file_name w_dict
    = inr (filtered_keys, measurement) →
  (∀ k wk, w_dict !! k = Some wk → wk == 0 →
     (k ∉ filtered_keys) ∧ measurement !! k = None) ∧
  (∀ wq, "Q"%string ∈ keys → w_dict !! "Q"%string = Some wq → ¬ wq == 0 →
     ∃ f q1 q2 t,
       read_meas W meas_dir (PHASE_NAME W +:+ "x" +:+ EXT W) = inr f ∧
       df_getitem f "Q1" = inr (ItemHeader q1) ∧
       df_getitem f "Q2" = inr (ItemHeader q2) ∧
       "Q"%string ∈ filtered_keys ∧
       measurement !! "Q"%string = Some t ∧
       index t = ["Q1"; "Q2"]%string ∧
       column t VALUE = inr [remainder1 q1; remainder1 q2] ∧
       column t ERROR = inr [1 # 1000; 1 # 1000] ∧
       (0 <= remainder1 q1 ∧ remainder1 q1 < 1 ∧
        q1 - remainder1 q1 == inject_Z (Qfloor q1)) ∧
       (0 <= remainder1 q2 ∧ remainder1 q2 < 1 ∧
        q2 - remainder1 q2 == inject_Z (Qfloor q2))).
Proof.
  unfold _get_measurment_data. intros H. inv_bind H. injection H as <- <-.
  pose proof (filter_keys_spec _ _ _ E) as Hfk. split.
  - intros k wk Hw Hz.
    assert (Hk : k ∉ a).
    { rewrite Hfk. intros [_ (wk' & Hw' & Hnz)].
      rewrite Hw in Hw'. injection Hw' as <-.
      apply Qeq_bool_iff in Hz. congruence. }
    split; [done|]. erewrite load_keys_other; eauto. apply lookup_empty.
  - intros wq Hin Hw Hnz.
    assert (HQ : "Q"%string ∈ a).
    { apply Hfk. split; [done|]. exists wq. split; [done|].
      destruct (Qeq_bool wq 0) eqn:Hb; [|done]. by apply Qeq_bool_iff in Hb. }
    destruct (load_keys_Q _ _ _ E0 HQ) as (t & Ht & Hm).
    apply tune_table_inv in Ht as (f & q1 & q2 & Hf & H1 & H2 & ->).
    exists f, q1, q2, (tune_frame q1 q2).
    repeat split; auto; try apply remainder1_range; apply remainder1_integer.
Qed.

End handler_measurement.

Lemma measurement_data_witness :
  ∃ filtered_keys measurement,
    Handler._get_measurment_data Handler.demo_world ["Q"; "BETX"]%string "meas" "getbeta"
      {["Q"%string := 1%Q; "BETX"%string := 0%Q]} = inr (filtered_keys, measurement) ∧
    ("BETX"%string ∉ filtered_keys) ∧ measurement !! "BETX"%string = None.
Proof.
  do 2 eexists. split; [vm_compute; reflexivity|].
  eapply (measurement_data_skips_zero_weight_and_builds_tune Handler.demo_world
            "meas" "getbeta" ["Q"; "BETX"]%string {["Q"%string := 1%Q; "BETX"%string := 0%Q]}).
  - vm_compute. reflexivity.
  - reflexivity.
  - reflexivity.
Defined.

(** ** correction/handler.py: the knob file *)

Lemma list_ascii_of_string_app (a b : string) :
  list_ascii_of_string (a +:+ b) = list_ascii_of_string a ++ list_ascii_of_string b.
Proof. induction a as [|c a IH]; simpl; [done | by rewrite IH]. Qed.

Lemma drop_while_app_all {A : Type} (p : A → bool) (l k : list A) :
  forallb p l = true → drop_while p (l ++ k) = drop_while p k.
Proof.
  induction l as [|x l IH]; simpl; [done|].
  intros [Hx Hl]%andb_prop. rewrite Hx. auto.
Qed.

Lemma forallb_rev {A : Type} (p : A → bool) (l : list A) :
  forallb p (rev l) = forallb p l.
Proof.
  induction l as [|x l IH]; simpl; [done|].
  rewrite forallb_app, IH. simpl. rewrite andb_true_r. apply andb_comm.
Qed.

Lemma dirname_no_slash (name : string) : no_slash name = true → dirname name = "".
Proof.
  unfold no_slash, dirname. intros H.
  assert (Hd : drop_while (λ c, negb (is_slash c)) (rev (list_ascii_of_string name)) = []).
  { rewrite <- (app_nil_r (rev (list_ascii_of_string name))).
    rewrite drop_while_app_all; [done | by rewrite forallb_rev]. }
  cbv zeta. rewrite Hd. reflexivity.
Qed.

(** [dirname] undoes [join] on a directory written without trailing slash. *)
Lemma dirname_path_join (dir name : string) :
  no_slash name = true → ends_with_slash dir = false →
  dirname (path_join dir name) = dir.
Proof.
  unfold no_slash, ends_with_slash, path_join. intros Hname Hdir.
  assert (Hstart : startswith name "/" = false).
  { destruct name as [|c name]; [done|].
    cbn [list_ascii_of_string forallb] in Hname.
    apply andb_prop in Hname as [Hc _]. unfold startswith.
    change (String.prefix "/" (String c name))
      with (if ascii_dec "/" c then String.prefix "" name else false).
    destruct (ascii_dec "/" c) as [<-|]; [discriminate | done]. }
  rewrite Hstart.
  destruct (rev (list_ascii_of_string dir)) as [|c r] eqn:Hrev.
  { assert (Hnil : list_ascii_of_string dir = []).
    { by rewrite <- (rev_involutive (list_ascii_of_string dir)), Hrev. }
    destruct dir; [by apply dirname_no_slash | discriminate]. }
  rewrite Hdir. unfold dirname. cbv zeta.
  rewrite !list_ascii_of_string_app, !rev_app_distr.
  assert (Hd : drop_while (λ c0, negb (is_slash c0))
                 ((rev (list_ascii_of_string name) ++ rev (list_ascii_of_string "/")) ++
                  rev (list_ascii_of_string dir)) = slash :: c :: r).
  { rewrite <- app_assoc, drop_while_app_all by (by rewrite forallb_rev).
    by rewrite Hrev. }
  rewrite Hd. cbn [forallb drop_while]. change (is_slash slash) with true.
  rewrite Hdir. cbn [andb drop_while].
  rewrite <- Hrev, rev_involutive. apply string_of_list_ascii_of_string.
Qed.

Section handler_knob.
Import Handler.

(** C8, as the code has it.  When [correct] returns, the knob file holds
    the negated Delta Vector of the last iteration under the index name
    NAME, a DATE header with the [ctime] text of the time of writing, and
    a PATH header with the directory part ([os.path.dirname]) of the knob
    path; that is the configured output directory whenever the knob path
    is the output directory, written without a trailing slash, joined
    with a file name. *)
Theorem knob_file_contents (W : World) (opt : Opt) (fs0 : gmap string File) (s : Loop W) :
  correct W opt fs0 = inr s →
  (∃ optics_params s0 s_last,
     correct_setup W opt fs0 = inr (optics_params, s0) ∧
     iterate W opt optics_params (range (max_iter opt + 1)) s0 = inr s_last ∧
     delta s = delta s_last) ∧
  fs s !! knob_path opt =
    Some (KnobFile [("PATH"%string, dirname (knob_path opt));
                    ("DATE"%string, ctime W (time_now W))]
            "NAME" (map (λ row : string * Q, (row.1, (- row.2)%Q)) (delta s))) ∧
  (∀ name, no_slash name = true → ends_with_slash (output_dir opt) = false →
           knob_path opt = path_join (output_dir opt) name →
           dirname (knob_path opt) = output_dir opt).
Proof.
  unfold correct. intros H. inv_bind H. injection H as <-. simpl.
  split; [eauto 10|]. split.
  - unfold write_knob. by rewrite lookup_insert_eq.
  - intros name Hname Hdir ->. by apply dirname_path_join.
Qed.
End handler_knob.

Lemma knob_file_contents_witness :
  ∃ s : Handler.Loop Handler.demo_world,
    Handler.correct Handler.demo_world Handler.demo_opt ∅ = inr s ∧
    Handler.fs s !! "results/changeparameters.knob"%string =
      Some (Handler.KnobFile
              [("PATH"%string, "results"%string);
               ("DATE"%string, "Thu Jan  1 00:00:00 1970"%string)]
              "NAME" (map (λ row : string * Q, (row.1, (- row.2)%Q)) (Handler.delta s))).
Proof.
  eexists. split; [vm_compute; reflexivity|].
  apply (knob_file_contents Handler.demo_world Handler.demo_opt ∅).
  vm_compute. reflexivity.
Defined.

(** C8, as the specification words it, fails.  With the output directory written
    "results/" and the knob file directly inside it, the PATH header is
    "results"; with the knob path configured in another directory, the PATH
    header names that directory. *)
Lemma knob_path_header_counterexample :
  (∃ (s : Handler.Loop Handler.demo_world) hdrs rows,
     Handler.knob_path Handler.demo_opt
       = path_join (Handler.output_dir Handler.demo_opt) "changeparameters.knob" ∧
     Handler.correct Handler.demo_world Handler.demo_opt ∅ = inr s ∧
     Handler.fs s !! Handler.knob_path Handler.demo_opt
       = Some (Handler.KnobFile hdrs "NAME" rows) ∧
     assoc "PATH" hdrs = Some "results"%string ∧
     assoc "PATH" hdrs ≠ Some (Handler.output_dir Handler.demo_opt)) ∧
  (∃ (s : Handler.Loop Handler.demo_world) hdrs rows,
     Handler.correct Handler.demo_world Handler.demo_opt_elsewhere ∅ = inr s ∧
     Handler.fs s !! Handler.knob_path Handler.demo_opt_elsewhere
       = Some (Handler.KnobFile hdrs "NAME" rows) ∧
     assoc "PATH" hdrs = Some "knobs"%string ∧
     assoc "PATH" hdrs ≠ Some (Handler.output_dir Handler.demo_opt_elsewhere)).
Proof.
  split.
  - do 3 eexists. split; [reflexivity|]. split; [vm_compute; reflexivity|].
    split; [vm_compute; reflexivity|]. split; [reflexivity|]. discriminate.
  - do 3 eexists. split; [vm_compute; reflexivity|].
    split; [vm_compute; reflexivity|]. split; [reflexivity|]. discriminate.
Qed.

(** ** optics_measurements/beta_from_phase.py: the N-BPM method *)

Lemma mapM_app {A B : Type} (f : A → Result B) (l1 l2 : list A) :
  mapM f (l1 ++ l2) = mapM f l1 ≫= λ k1, mapM f l2 ≫= λ k2, mret (k1 ++ k2).
Proof.
  induction l1 as [|x l1 IH]; simpl.
  - by destruct (mapM f l2).
  - destruct (f x) as [e|y]; simpl; [done|]. rewrite IH.
    destruct (mapM f l1) as [e|k1]; simpl; [done|].
    by destruct (mapM f l2).
Qed.

Section n_bpm.
Import BetaFromPhase.
Local Open Scope Q_scope.
Context (W : World).

(** A BPM whose beta or alpha covariance has no non-zero entry (no
    retained pair, or an all-zero matrix) is skipped without an error and
    keeps the marker zero. *)
Lemma probe_bpm_skips (p : Probe) :
  np_any (covariance (mat_t_beta p) (diag p)) &&
  np_any (covariance (mat_t_alpha p) (diag p)) = false →
  probe_bpm W p = inr {| NAME := probed_bpm_name p; BET := 0; ERRBET := 0;
                         ALF := 0; ERRALF := 0; NCOMB := 0 |}.
Proof. unfold probe_bpm. by intros ->. Qed.

Lemma covariance_no_pairs (d : list Q) : np_any (covariance [] d) = false.
Proof. reflexivity. Qed.

(** Such a BPM is left out of the result table and the run goes on with
    the other BPMs. *)
Lemma n_bpm_method_skips (before after : list Probe) (p : Probe) :
  np_any (covariance (mat_t_beta p) (diag p)) &&
  np_any (covariance (mat_t_alpha p) (diag p)) = false →
  n_bpm_method W (before ++ p :: after) = n_bpm_method W (before ++ after).
Proof.
  intros Hp. unfold n_bpm_method. rewrite !mapM_app. simpl.
  rewrite (probe_bpm_skips p Hp). simpl.
  destruct (mapM (probe_bpm W) before) as [e|k1]; simpl; [done|].
  destruct (mapM (probe_bpm W) after) as [e|k2]; simpl; [done|].
  by rewrite !List.filter_app.
Qed.

(** A covariance that is not all zero goes to [_covariant_weighting],
    whose [ValueError] on weights summing to zero nothing catches. *)
Lemma probe_bpm_raises (p : Probe) :
  np_any (covariance (mat_t_beta p) (diag p)) &&
  np_any (covariance (mat_t_alpha p) (diag p)) = true →
  Qsum (map Qsum (pinv W (covariance (mat_t_beta p) (diag p)))) == 0 →
  probe_bpm W p = inl ValueError.
Proof.
  unfold probe_bpm. intros -> Hsum. unfold _covariant_weighting.
  apply Qeq_bool_iff in Hsum. by rewrite Hsum.
Qed.

Lemma n_bpm_method_raises (before after : list Probe) (p : Probe) (rows : list BetaRow) :
  mapM (probe_bpm W) before = inr rows →
  probe_bpm W p = inl ValueError →
  n_bpm_method W (before ++ p :: after) = inl ValueError.
Proof.
  intros Hb Hp. unfold n_bpm_method. rewrite mapM_app, Hb. simpl. by rewrite Hp.
Qed.
End n_bpm.

(** The matrix [pinv_small] returns for the covariance of [singular_probe]
    is its Moore-Penrose inverse. *)
Lemma singular_probe_pinv :
  let cov := BetaFromPhase.covariance (BetaFromPhase.mat_t_beta BetaFromPhase.singular_probe)
               (BetaFromPhase.diag BetaFromPhase.singular_probe) in
  cov = [[3; -3]; [-3; 3]]%Q ∧
  BetaFromPhase.penrose 2 cov (BetaFromPhase.pinv_small cov) = true.
Proof. split; vm_compute; reflexivity. Qed.

(** C2.  The N-BPM method skips a BPM with no retained pair and goes on;
    but on a BPM whose covariance is not all zero and whose pseudo-inverse
    has inverse-variance weights summing to zero, it raises [ValueError]
    instead of skipping, whatever BPMs come before (as long as they did not
    raise themselves) or after: nothing catches what [_covariant_weighting]
    raises, and the whole analysis stops there. *)
Theorem singular_covariance_is_fatal
    (W : BetaFromPhase.World) (before after : list BetaFromPhase.Probe)
    (p : BetaFromPhase.Probe) (rows : list BetaFromPhase.BetaRow) :
  mapM (BetaFromPhase.probe_bpm W) before = inr rows →
  BetaFromPhase.np_any
    (BetaFromPhase.covariance (BetaFromPhase.mat_t_beta p) (BetaFromPhase.diag p)) &&
  BetaFromPhase.np_any
    (BetaFromPhase.covariance (BetaFromPhase.mat_t_alpha p) (BetaFromPhase.diag p)) = true →
  (Qsum (map Qsum (BetaFromPhase.pinv W
     (BetaFromPhase.covariance (BetaFromPhase.mat_t_beta p) (BetaFromPhase.diag p)))) == 0)%Q →
  BetaFromPhase.n_bpm_method W (before ++ p :: after) = inl ValueError.
Proof.
  intros Hbefore Hany Hsum.
  eapply n_bpm_method_raises; [exact Hbefore|].
  by apply probe_bpm_raises.
Qed.

Lemma singular_covariance_is_fatal_witness :
  BetaFromPhase.n_bpm_method BetaFromPhase.demo_world [BetaFromPhase.empty_probe] = inr [] ∧
  BetaFromPhase.n_bpm_method BetaFromPhase.demo_world
    [BetaFromPhase.empty_probe; BetaFromPhase.singular_probe] = inl ValueError.
Proof.
  split; [reflexivity|].
  apply (singular_covariance_is_fatal BetaFromPhase.demo_world
           [BetaFromPhase.empty_probe] [] BetaFromPhase.singular_probe
           [ {| BetaFromPhase.NAME := "BPM.1"; BetaFromPhase.BET := 0;
                BetaFromPhase.ERRBET := 0; BetaFromPhase.ALF := 0;
                BetaFromPhase.ERRALF := 0; BetaFromPhase.NCOMB := 0 |} ]%Q).
  - reflexivity.
  - reflexivity.
  - reflexivity.
Defined.

(** ** optics_measurements/beta_from_phase.py: systematic errors *)

Lemma omap_length_total {A B : Type} (f : A → option B) (l : list A) :
  (∀ x, x ∈ l → is_Some (f x)) → length (omap f l) = length l.
Proof.
  induction l as [|x l IH]; simpl; [done|]. intros H.
  destruct (H x) as [y Hy]; [by left|]. rewrite Hy. simpl. f_equal.
  apply IH. intros z Hz. apply H. by right.
Qed.

Lemma np_roll_length {A : Type} (shift : Z) (a : list A) :
  length (BetaFromPhase.np_roll shift a) = length a.
Proof.
  unfold BetaFromPhase.np_roll. rewrite omap_length_total; [by rewrite length_seq|].
  intros i Hi%elem_of_seq. apply lookup_lt_is_Some.
  pose proof (Z.mod_pos_bound (Z.of_nat i - shift) (Z.of_nat (length a))) as Hb. lia.
Qed.

Section assign_uncertainties.
Import BetaFromPhase.
Local Open Scope Q_scope.
Context (W : World).

Lemma pattern_mask_names (patt : string) (t1 t2 : list Element) :
  map name t1 = map name t2 → pattern_mask W patt t1 = pattern_mask W patt t2.
Proof.
  intros Hn. unfold pattern_mask.
  assert (Hmap : ∀ f : string → bool, map (λ e, f (name e)) t1 = map (λ e, f (name e)) t2).
  { intros f. by rewrite <- !(map_map name f), Hn. }
  destruct (startswith patt "key:").
  - by rewrite (Hmap (λ n, String.eqb n (nth 1 (split_on ":" patt) ""))).
  - destruct (re_compile W patt) as [e|reg]; simpl; [done|]. by rewrite (Hmap reg).
Qed.

Lemma pattern_mask_length (patt : string) (t : list Element) (mask : list bool) :
  pattern_mask W patt t = inr mask → length mask = length t.
Proof.
  unfold pattern_mask. destruct (startswith patt "key:").
  - destruct (existsb _ _); [|discriminate]. intros [= <-]. by rewrite length_map.
  - intros H. inv_bind H. injection H as <-. by rewrite length_map.
Qed.

Lemma assign_row_fields (d : ErrDef) (e : Element) :
  name (assign_row d e) = name e ∧ K1L (assign_row d e) = K1L e ∧
  dX (assign_row d e) = def_dX d * 2 ∧ UNC (assign_row d e) = true.
Proof. unfold assign_row. by destruct (String.eqb (MAINFIELD d) "BPM"). Qed.

(** One error definition: a selected row gets the definition's dX times
    two, whatever it held before; the other rows keep theirs. *)
Lemma assign_def_row (t t' : list Element) (d : ErrDef) (i : nat) (e : Element) :
  assign_def W t d = inr t' → t !! i = Some e →
  ∃ e', t' !! i = Some e' ∧ name e' = name e ∧
        (if selects W t d i then dX e' = def_dX d * 2 ∧ UNC e' = true
         else dX e' = dX e ∧ UNC e' = UNC e).
Proof.
  unfold assign_def, selects. intros H He. inv_bind H. injection H as <-.
  rewrite E. pose proof (pattern_mask_length _ _ _ E) as Hlen.
  destruct (lookup_lt_is_Some_2 a i) as [m Hm].
  { rewrite Hlen. by eapply lookup_lt_Some. }
  rewrite lookup_zip_with, Hm, He. simpl.
  destruct m; eexists; (split; [done|]).
  - by destruct (assign_row_fields d e) as (? & ? & ? & ?).
  - done.
Qed.

Lemma assign_def_names (t t' : list Element) (d : ErrDef) :
  assign_def W t d = inr t' → map name t' = map name t.
Proof.
  intros H. apply list_eq. intros i. rewrite !list_lookup_fmap.
  destruct (t !! i) as [e|] eqn:He.
  - destruct (assign_def_row _ _ _ _ _ H He) as (e' & -> & Hn & _). simpl. by rewrite Hn.
  - unfold assign_def in H. inv_bind H. injection H as <-.
    rewrite lookup_zip_with, He. simpl. by destruct (a !! i).
Qed.

Lemma assign_loop_names (errdefs : list ErrDef) (t t' : list Element) :
  assign_loop W errdefs t = inr t' → map name t' = map name t.
Proof.
  revert t. induction errdefs as [|d errdefs IH]; intros t H; simpl in H.
  - by injection H as <-.
  - inv_bind H. rewrite (IH _ H). by eapply assign_def_names.
Qed.

(** Definitions that do not select a row leave its dX and its flag. *)
Lemma assign_loop_unselected (post : list ErrDef) (t t' : list Element) (i : nat)
    (e : Element) :
  assign_loop W post t = inr t' → t !! i = Some e →
  (∀ d', d' ∈ post → selects W t d' i = false) →
  ∃ e', t' !! i = Some e' ∧ name e' = name e ∧ dX e' = dX e ∧ UNC e' = UNC e.
Proof.
  revert t e. induction post as [|d post IH]; intros t e H He Hpost; simpl in H.
  - injection H as <-. eauto.
  - inv_bind H.
    destruct (assign_def_row _ _ _ _ _ E He) as (e1 & He1 & Hn1 & Hsel).
    rewrite (Hpost d) in Hsel by (by left). destruct Hsel as [HdX HUNC].
    destruct (IH a e1 H He1) as (e' & He' & Hn' & HdX' & HUNC').
    { intros d' Hd'. unfold selects.
      rewrite (pattern_mask_names _ a t) by (by eapply assign_def_names).
      apply Hpost. by right. }
    exists e'. repeat split; congruence.
Qed.

(** The loop over the error definitions: the last definition that
    selects a row decides its dX. *)
Lemma assign_loop_last_match (pre post : list ErrDef) (d : ErrDef)
    (t t' : list Element) (i : nat) (e : Element) :
  assign_loop W (pre ++ d :: post) t = inr t' → t !! i = Some e →
  selects W t d i = true → (∀ d', d' ∈ post → selects W t d' i = false) →
  ∃ e', t' !! i = Some e' ∧ name e' = name e ∧ dX e' = def_dX d * 2 ∧ UNC e' = true.
Proof.
  revert t e. induction pre as [|d0 pre IH]; intros t e H He Hd Hpost; simpl in H.
  - inv_bind H.
    destruct (assign_def_row _ _ _ _ _ E He) as (e1 & He1 & Hn1 & Hsel).
    rewrite Hd in Hsel. destruct Hsel as [HdX HUNC].
    destruct (assign_loop_unselected post a t' i e1 H He1) as (e' & He' & Hn' & HdX' & HUNC').
    { intros d' Hd'. unfold selects.
      rewrite (pattern_mask_names _ a t) by (by eapply assign_def_names).
      by apply Hpost. }
    exists e'. repeat split; congruence.
  - inv_bind H.
    destruct (assign_def_row _ _ _ _ _ E He) as (e1 & He1 & Hn1 & _).
    assert (Hsame : ∀ d', selects W a d' i = selects W t d' i).
    { intros d'. unfold selects.
      by rewrite (pattern_mask_names _ a t) by (by eapply assign_def_names). }
    destruct (IH a e1 H He1) as (e' & He' & Hn' & Hrest).
    { by rewrite Hsame. }
    { intros d' Hd'. rewrite Hsame. by apply Hpost. }
    exists e'. split; [done|]. split; [congruence | done].
Qed.

(** C4, as the code has it.  In the table [_assign_uncertainties]
    returns, an element selected by at least one error definition carries
    dX = 2 x the transverse-misalignment value of the last definition, in
    table order, that selects it: each match assigns, none adds. *)
Theorem misalignment_term_of_last_match
    (twiss_full : list (string * Q)) (errdefs pre post : list ErrDef) (d : ErrDef)
    (out : list Element) (i : nat) (nm : string) (k1l : Q) :
  _assign_uncertainties W twiss_full errdefs = inr out →
  errdefs = pre ++ d :: post →
  twiss_full !! i = Some (nm, k1l) →
  selects W (assign_columns twiss_full) d i = true →
  (∀ d', d' ∈ post → selects W (assign_columns twiss_full) d' i = false) →
  ∃ e, e ∈ out ∧ name e = nm ∧ dX e = def_dX d * 2.
Proof.
  unfold _assign_uncertainties. intros H -> Hi Hd Hpost. inv_bind H. injection H as <-.
  assert (He : assign_columns twiss_full !! i =
               Some {| name := nm; K1L := k1l; UNC := false; dK1 := 0; KdS := 0;
                       mKdS := 0; dX := 0; BPMdS := 0 |}).
  { unfold assign_columns. by rewrite list_lookup_fmap, Hi. }
  destruct (assign_loop_last_match _ _ _ _ _ _ _ E He Hd Hpost)
    as (e' & He' & Hn & HdX & HUNC). simpl in Hn.
  set (t2 := zip_with set_mKdS (np_roll 1 (map KdS a)) a).
  destruct (lookup_lt_is_Some_2 (np_roll 1 (map KdS a)) i) as [v Hv].
  { rewrite np_roll_length, length_map. by eapply lookup_lt_Some. }
  assert (H2 : t2 !! i = Some (set_mKdS v e')).
  { unfold t2. by rewrite lookup_zip_with, Hv, He'. }
  destruct (lookup_lt_is_Some_2 (np_roll (-1) (map dK1 t2)) i) as [nx Hnx].
  { rewrite np_roll_length, length_map. by eapply lookup_lt_Some. }
  exists (set_UNC (abs_gt nx (1 # 1000000000000) || UNC (set_mKdS v e')) (set_mKdS v e')).
  split; [|by split].
  apply elem_of_filter_bool. split.
  - eapply list_elem_of_lookup_2. by rewrite lookup_zip_with, Hnx, H2.
  - simpl. rewrite HUNC. apply orb_true_r.
Qed.
End assign_uncertainties.

Lemma misalignment_term_of_last_match_witness :
  ∃ e, e ∈ [ {| BetaFromPhase.name := "MQ.1"; BetaFromPhase.K1L := 2;
                BetaFromPhase.UNC := true;
                BetaFromPhase.dK1 := (1 # 10) * 2 * ((1 # 10) * 2);
                BetaFromPhase.KdS := (1 # 100) * 2 * ((1 # 100) * 2);
                BetaFromPhase.mKdS := 0; BetaFromPhase.dX := 3 * 2;
                BetaFromPhase.BPMdS := 0 |};
             {| BetaFromPhase.name := "MS.1"; BetaFromPhase.K1L := 0;
                BetaFromPhase.UNC := true; BetaFromPhase.dK1 := 0;
                BetaFromPhase.KdS := 0; BetaFromPhase.mKdS := 0;
                BetaFromPhase.dX := 0; BetaFromPhase.BPMdS := 0 |} ]%Q ∧
       BetaFromPhase.name e = "MQ.1"%string ∧ BetaFromPhase.dX e = (3 * 2)%Q.
Proof.
  apply (misalignment_term_of_last_match BetaFromPhase.demo_world BetaFromPhase.overlap_lattice
           [BetaFromPhase.overlap_quads; BetaFromPhase.overlap_key] [BetaFromPhase.overlap_quads] [] BetaFromPhase.overlap_key _ 0 "MQ.1" 2%Q).
  - reflexivity.
  - reflexivity.
  - reflexivity.
  - reflexivity.
  - intros d' Hd'. by apply elem_of_nil in Hd'.
Defined.

(** C4, as the specification words it, fails: two definitions select MQ.1, with
    transverse-misalignment values 1 and 3; the element ends with
    dX = 6, not 2 + 6. *)
Lemma misalignment_additive_counterexample :
  BetaFromPhase.selects BetaFromPhase.demo_world
    (BetaFromPhase.assign_columns BetaFromPhase.overlap_lattice) BetaFromPhase.overlap_quads 0 = true ∧
  BetaFromPhase.selects BetaFromPhase.demo_world
    (BetaFromPhase.assign_columns BetaFromPhase.overlap_lattice) BetaFromPhase.overlap_key 0 = true ∧
  ∃ e rest,
    BetaFromPhase._assign_uncertainties BetaFromPhase.demo_world BetaFromPhase.overlap_lattice
      [BetaFromPhase.overlap_quads; BetaFromPhase.overlap_key] = inr (e :: rest) ∧
    BetaFromPhase.name e = "MQ.1"%string ∧
    (BetaFromPhase.dX e == 6)%Q ∧
    ¬ (BetaFromPhase.dX e ==
       2 * BetaFromPhase.def_dX BetaFromPhase.overlap_quads + 2 * BetaFromPhase.def_dX BetaFromPhase.overlap_key)%Q.
Proof.
  split; [reflexivity|]. split; [reflexivity|].
  do 2 eexists. split; [vm_compute; reflexivity|]. split; [reflexivity|].
  split; [reflexivity|]. discriminate.
Qed.


(** ** optics_measurements/beta_from_phase.py: the 3-BPM method *)

Section three_bpm.
Import BetaFromPhase.
Local Open Scope Q_scope.

Lemma entry_update_block (op : Q → Q) (r0 r1 c0 c1 : nat) (matrix : Matrix) (i j : nat) :
  entry (update_block op r0 r1 c0 c1 matrix) i j =
  (λ x, if (r0 <=? i)%nat && (i <? r1)%nat && (c0 <=? j)%nat && (j <? c1)%nat
        then op x else x) <$> entry matrix i j.
Proof.
  unfold entry, update_block, Matrix in *. rewrite list_lookup_imap.
  destruct (matrix !! i) as [row|]; simpl; [|done].
  by rewrite list_lookup_imap.
Qed.

Lemma slice_bound_stop (n : nat) : (2 ≤ n)%nat → slice_bound 2 n = 2%nat.
Proof. intros Hn. unfold slice_bound. simpl. lia. Qed.

Lemma slice_bound_start (n : nat) :
  (2 ≤ n)%nat → slice_bound (Z.of_nat n - Z.of_nat 2) n = (n - 2)%nat.
Proof.
  intros Hn. unfold slice_bound.
  destruct (Z.ltb_spec (Z.of_nat n - Z.of_nat 2) 0); lia.
Qed.

Lemma square_shape (n : nat) (matrix : Matrix) :
  (2 ≤ n)%nat → square n matrix → shape0 matrix = n ∧ shape1 matrix = n.
Proof.
  intros Hn [Hlen Hrows]. split; [done|]. unfold shape1.
  destruct matrix as [|row rows]; simpl in *; [lia|].
  by apply Forall_cons in Hrows as [? _].
Qed.

(** What the two in-place statements of [_tilt_slice_matrix] do to the
    caller's array: the tune is added in the lower left corner block and
    subtracted in the upper right one; no other entry is written. *)
Lemma tilt_in_place_entry (n : nat) (matrix : Matrix) (t : Q) (i j : nat) :
  (2 ≤ n)%nat → square n matrix →
  entry (tilt_in_place matrix 2 t) i j = corner_shift n t i j <$> entry matrix i j.
Proof.
  intros Hn Hsq. destruct (square_shape n matrix Hn Hsq) as [H0 H1].
  unfold tilt_in_place. rewrite H0, H1.
  rewrite !entry_update_block, slice_bound_stop, slice_bound_start by done.
  destruct (entry matrix i j) as [x|]; simpl; [|done].
  unfold corner_shift, lower_left, upper_right. simpl.
  by rewrite !andb_true_r.
Qed.

Lemma tilt_slice_matrix_array (matrix tilted matrix' : Matrix) (w : nat) (t : Q) :
  _tilt_slice_matrix matrix 2 w t = inr (tilted, matrix') →
  matrix' = tilt_in_place matrix 2 t.
Proof. unfold _tilt_slice_matrix. intros H. inv_bind H. by injection H as _ <-. Qed.

(** C9, as the code has it.  When [three_bpm_method] returns, every
    entry of the input phase matrices MEAS, MODEL and ERRMEAS outside the
    two 2 x 2 corner blocks is unchanged; in the block of the last two
    rows and first two columns the tune has been added, in the block of
    the first two rows and last two columns it has been subtracted (the
    measured tune for MEAS, the model tune for MODEL and ERRMEAS). *)
Theorem three_bpm_method_shifts_corner_blocks
    (W : World) (phase phase' : Phase) (tune mdltune : Q) (beta_df : list (Q * Q))
    (res : list (Q * Q * Q)) (n : nat) :
  three_bpm_method W phase (tune, mdltune) beta_df = inr (res, phase') →
  (2 ≤ n)%nat →
  square n (MEAS phase) → square n (MODEL phase) → square n (ERRMEAS phase) →
  ∀ i j,
    entry (MEAS phase') i j = corner_shift n tune i j <$> entry (MEAS phase) i j ∧
    entry (MODEL phase') i j = corner_shift n mdltune i j <$> entry (MODEL phase) i j ∧
    entry (ERRMEAS phase') i j = corner_shift n mdltune i j <$> entry (ERRMEAS phase) i j ∧
    (lower_left n i j = false → upper_right n i j = false →
     entry (MEAS phase') i j = entry (MEAS phase) i j ∧
     entry (MODEL phase') i j = entry (MODEL phase) i j ∧
     entry (ERRMEAS phase') i j = entry (ERRMEAS phase) i j).
Proof.
  unfold three_bpm_method. intros H Hn Hmeas Hmodel Herr i j. inv_bind H.
  injection H as _ <-. simpl.
  apply tilt_slice_matrix_array in E as ->.
  apply tilt_slice_matrix_array in E0 as ->.
  apply tilt_slice_matrix_array in E1 as ->.
  rewrite !(tilt_in_place_entry n) by done.
  repeat split; try done; unfold corner_shift; rewrite H, H0;
    by destruct (entry _ i j).
Qed.
End three_bpm.

Lemma three_bpm_method_shifts_corner_blocks_witness :
  ∃ res phase',
    BetaFromPhase.three_bpm_method BetaFromPhase.demo_world BetaFromPhase.demo_phase
      (32 # 100, 31 # 100)%Q [(100, 0); (101, 0); (102, 0); (103, 0)]%Q = inr (res, phase') ∧
    BetaFromPhase.entry (BetaFromPhase.MEAS phase') 3 0 =
      Some (inject_Z ((0 - 3) `mod` 4) * (8 # 100) + (32 # 100))%Q ∧
    BetaFromPhase.entry (BetaFromPhase.MEAS phase') 2 3 =
      BetaFromPhase.entry (BetaFromPhase.MEAS BetaFromPhase.demo_phase) 2 3.
Proof.
  do 2 eexists. split; [vm_compute; reflexivity|].
  assert (Hsq : ∀ step, BetaFromPhase.square 4 (BetaFromPhase.ring_phase step)).
  { intros step. split; [reflexivity | repeat constructor]. }
  pose proof (three_bpm_method_shifts_corner_blocks BetaFromPhase.demo_world
                BetaFromPhase.demo_phase _ (32 # 100)%Q (31 # 100)%Q
                [(100, 0); (101, 0); (102, 0); (103, 0)]%Q _ 4 eq_refl
                ltac:(lia) (Hsq _) (Hsq _) (Hsq _)) as H.
  split.
  - destruct (H 3%nat 0%nat) as [H1 _]. exact H1.
  - destruct (H 2%nat 3%nat) as (_ & _ & _ & H4).
    destruct (H4 eq_refl eq_refl) as [H1 _]. exact H1.
Defined.

(** C9, as the specification words it, fails: after the 3-BPM method has run on
    four BPMs with tune 0.32, the entry of MEAS from the last BPM to the
    first has moved from 0.08 to 0.40. *)
Lemma three_bpm_method_mutates_counterexample :
  ∃ res phase' before after,
    BetaFromPhase.three_bpm_method BetaFromPhase.demo_world BetaFromPhase.demo_phase
      (32 # 100, 31 # 100)%Q [(100, 0); (101, 0); (102, 0); (103, 0)]%Q = inr (res, phase') ∧
    BetaFromPhase.entry (BetaFromPhase.MEAS BetaFromPhase.demo_phase) 3 0 = Some before ∧
    BetaFromPhase.entry (BetaFromPhase.MEAS phase') 3 0 = Some after ∧
    (before == 8 # 100)%Q ∧ (after == 40 # 100)%Q ∧ ¬ (after == before)%Q ∧
    BetaFromPhase.MEAS phase' ≠ BetaFromPhase.MEAS BetaFromPhase.demo_phase.
Proof.
  do 4 eexists. split; [vm_compute; reflexivity|].
  split; [vm_compute; reflexivity|]. split; [vm_compute; reflexivity|].
  split; [reflexivity|]. split; [reflexivity|]. split; discriminate.
Qed.

(** ** kmod/kmod_analysis.py *)

Section kmod.
Import KmodAnalysis.
Local Open Scope R_scope.

Lemma Rsum_nonneg (l : list R) : Forall (λ x, 0 <= x) l → 0 <= Rsum l.
Proof.
  induction 1 as [|x l Hx _ IH]; simpl; [lra|]. lra.
Qed.

Lemma Rsum_ge_elem (l : list R) (x : R) :
  Forall (λ y, 0 <= y) l → x ∈ l → x <= Rsum l.
Proof.
  induction 1 as [|y l Hy Hl IH]; intros Hx.
  - by apply elem_of_nil in Hx.
  - simpl. pose proof (Rsum_nonneg l Hl). apply elem_of_cons in Hx as [->|Hx]; [lra|].
    specialize (IH Hx). lra.
Qed.

(** What the error formula computes: the root of the summed squares of
    the deviations of the odd ("plus") rows from row 0.  The two arguments
    of [np.maximum] are the same array. *)
Lemma envelope_err_plus_rows (c : list R) :
  envelope_err c = sqrt (Rsum (map (λ x, (x - nth 0 c 0) ^ 2) (odd_entries c))).
Proof.
  unfold envelope_err. f_equal. f_equal. rewrite map_map. apply map_ext.
  intros x. unfold Rmax. destruct (Rle_dec _ _); by rewrite pow2_abs.
Qed.

Lemma odd_entries_ext {A : Type} (c c' : list A) :
  length c = length c' →
  (∀ i, Nat.odd i = true → c !! i = c' !! i) →
  odd_entries c = odd_entries c'.
Proof.
  revert c'. induction c as [c IH] using (induction_ltof1 _ (@length A)).
  unfold ltof in IH. intros c' Hlen Hodd.
  destruct c as [|a [|x t]], c' as [|a' [|x' t']]; try done.
  simpl in *. f_equal.
  - specialize (Hodd 1%nat eq_refl). simpl in Hodd. congruence.
  - apply IH; [simpl; lia | lia |].
    intros i Hi. apply (Hodd (S (S i))). by rewrite Nat.odd_succ_succ.
Qed.

(** Two columns of fit results that agree on the nominal row and on the
    "plus" rows get the same error, whatever their "minus" rows hold. *)
Lemma envelope_err_ignores_minus_rows (c c' : list R) :
  length c = length c' →
  (∀ i, i = 0%nat ∨ Nat.odd i = true → c !! i = c' !! i) →
  envelope_err c = envelope_err c'.
Proof.
  intros Hlen Hrows. unfold envelope_err.
  rewrite (odd_entries_ext c c') by auto.
  assert (H0 : nth 0 c 0 = nth 0 c' 0).
  { specialize (Hrows 0%nat (or_introl eq_refl)). by destruct c, c'; simplify_eq/=. }
  by rewrite H0.
Qed.

(** The reported error covers the deviation of every "plus" row. *)
Lemma envelope_err_covers_plus (c : list R) (x : R) :
  x ∈ odd_entries c → Rabs (x - nth 0 c 0) <= envelope_err c.
Proof.
  intros Hx. rewrite envelope_err_plus_rows, <- sqrt_Rsqr_abs.
  apply sqrt_le_1_alt. unfold Rsqr.
  replace ((x - nth 0 c 0) * (x - nth 0 c 0)) with ((x - nth 0 c 0) ^ 2) by ring.
  apply Rsum_ge_elem.
  - apply Forall_forall. intros y (z & -> & _)%list_elem_of_fmap. apply pow2_ge_0.
  - apply list_elem_of_fmap. by exists x.
Qed.

Lemma Rsum_no_deviation (l : list R) (c0 : R) :
  (∀ x, x ∈ l → x = c0) → Rsum (map (λ x, (x - c0) ^ 2) l) = 0.
Proof.
  induction l as [|x l IH]; intros Hl; [reflexivity|].
  unfold Rsum in *. cbn [map foldr].
  rewrite IH by (intros z Hz; apply Hl; by right).
  rewrite (Hl x) by (by left). ring.
Qed.

(** C3.  The error [get_beta_waist] reports never reads the "minus" rows:
    when every "plus" row of the beta-at-waist column equals the nominal
    row 0, the reported error on beta-at-waist is 0, so it lies strictly
    below the deviation of any row - necessarily a "minus" row - that
    differs from the nominal one. *)
Theorem waist_error_ignores_minus_rows (results : list (R * R)) (i : nat) (y : R) :
  (∀ x, x ∈ odd_entries results.*1 → x = (nth 0 results (0, 0)).1) →
  results.*1 !! i = Some y →
  y ≠ (nth 0 results (0, 0)).1 →
  (waist_results results).1.1.2 = 0 ∧
  (waist_results results).1.1.2 < Rabs (y - (nth 0 results (0, 0)).1).
Proof.
  intros Hplus Hi Hy.
  assert (Hnom : nth 0 results.*1 0 = (nth 0 results (0, 0)).1).
  { by destruct results as [|[b w] rest]. }
  assert (Herr : envelope_err results.*1 = 0).
  { rewrite envelope_err_plus_rows, Hnom.
    rewrite Rsum_no_deviation by done. apply sqrt_0. }
  unfold waist_results. simpl. rewrite Herr. split; [done|].
  apply Rabs_pos_lt. lra.
Qed.

Context (W : World).

(** The rows a plane has kept do not depend on the header. *)
Lemma cleaned_column_set_header (col : Row → R) (plane key : string) (v : R)
    (magnet_df : MagnetDf) :
  cleaned_column col plane (set_header key v magnet_df) = cleaned_column col plane magnet_df.
Proof. reflexivity. Qed.

Lemma calc_k_header (magnet_df : MagnetDf) :
  calc_k W magnet_df =
  set_header (get_k_col W) (average (cleaned_column K "Y" magnet_df)) magnet_df.
Proof.
  unfold calc_k, set_header. simpl. f_equal. apply insert_insert_eq.
Qed.

Lemma polarities_are_known (m1 m2 : MagnetDf) (p1 p2 v1 v2 : R) :
  headers m1 !! "POLARITY"%string = Some p1 →
  headers m2 !! "POLARITY"%string = Some p2 →
  polarities_are m1 m2 v1 v2 = inr (eqR p1 v1 && eqR p2 v2).
Proof.
  intros H1 H2. unfold polarities_are, header, getitem. rewrite H1. simpl.
  destruct (eqR p1 v1); [|done]. by rewrite H2.
Qed.

Lemma eqR_false (x v : R) : x ≠ v → eqR x v = false.
Proof. intros H. unfold eqR. by destruct (Req_dec_T x v). Qed.

Lemma eqR_true (x : R) : eqR x x = true.
Proof. unfold eqR. by destruct (Req_dec_T x x). Qed.

Lemma not_both (p1 p2 v1 v2 : R) : ¬ (p1 = v1 ∧ p2 = v2) → eqR p1 v1 && eqR p2 v2 = false.
Proof.
  intros H. unfold eqR.
  destruct (Req_dec_T p1 v1), (Req_dec_T p2 v2); simpl; try done. by destruct H.
Qed.

Lemma return_df_unrecognized (magnet1_df magnet2_df : MagnetDf) (plane : string)
    (p1 p2 : R) :
  headers magnet1_df !! "POLARITY"%string = Some p1 →
  headers magnet2_df !! "POLARITY"%string = Some p2 →
  ¬ (p1 = 1 ∧ p2 = -1) → ¬ (p1 = -1 ∧ p2 = 1) →
  return_df magnet1_df magnet2_df plane = inr None.
Proof.
  intros H1 H2 Hfd Hdf. unfold return_df.
  rewrite !(polarities_are_known _ _ p1 p2) by done.
  rewrite (not_both _ _ _ _ Hfd), (not_both _ _ _ _ Hdf). simpl.
  by destruct (String.eqb plane "X"), (String.eqb plane "Y").
Qed.

Lemma get_beta_waist_unpacks (magnet1_df magnet2_df : MagnetDf)
    (kmod_input_params : KmodInput) (plane : string) :
  return_df magnet1_df magnet2_df plane = inr None →
  get_beta_waist W magnet1_df magnet2_df kmod_input_params plane = inl TypeError.
Proof. intros Hr. unfold get_beta_waist. by rewrite Hr. Qed.

(** C5, as the code has it.  When the two POLARITY headers are not one
    +1 and one -1, [return_df] returns [None] without raising, for either
    plane, and [get_beta_waist] stops at once, before any of its fits, with
    the [TypeError] of unpacking it, which is not an error of the
    InvalidInput kind. *)
Theorem unrecognized_polarity_is_a_type_error
    (magnet1_df magnet2_df : MagnetDf) (kmod_input_params : KmodInput)
    (plane : string) (p1 p2 : R) :
  headers magnet1_df !! "POLARITY"%string = Some p1 →
  headers magnet2_df !! "POLARITY"%string = Some p2 →
  ¬ (p1 = 1 ∧ p2 = -1) → ¬ (p1 = -1 ∧ p2 = 1) →
  return_df magnet1_df magnet2_df plane = inr None ∧
  get_beta_waist W magnet1_df magnet2_df kmod_input_params plane = inl TypeError ∧
  is_InvalidInput TypeError = false.
Proof.
  intros H1 H2 Hfd Hdf.
  pose proof (return_df_unrecognized _ _ plane _ _ H1 H2 Hfd Hdf) as Hr.
  split; [done|]. split; [|done]. by apply get_beta_waist_unpacks.
Qed.

(** C10.  [calc_k] leaves in the header the average of K over the rows
    cleaned in the Y plane; the X-plane average written first is
    overwritten, so the table [calc_k] returns is the one a single write
    of the Y-plane average gives, and the regression input of either
    plane, X included, is centred on that Y-plane average. *)
Theorem calc_k_keeps_only_the_y_average
    (magnet_df : MagnetDf) (plane : string) (polarity length tune_av : R) :
  headers magnet_df !! "POLARITY"%string = Some polarity →
  headers magnet_df !! "LENGTH"%string = Some length →
  headers magnet_df !! get_tune_col W plane = Some tune_av →
  get_k_col W ≠ "POLARITY"%string → get_k_col W ≠ "LENGTH"%string →
  get_k_col W ≠ get_tune_col W plane →
  let k_y := average (cleaned_column K "Y" magnet_df) in
  let sign := if String.eqb plane "X" then polarity else -1 * polarity in
  headers (calc_k W magnet_df) !! get_k_col W = Some k_y ∧
  calc_k W magnet_df = set_header (get_k_col W) k_y magnet_df ∧
  return_fit_input W (calc_k W magnet_df) plane =
    inr (map (λ k, sign * (k - k_y) * length) (cleaned_column K plane magnet_df),
         map (λ _, tune_av) (cleaned_column K plane magnet_df)).
Proof.
  intros Hp Hl Ht Hkp Hkl Hkt k_y sign. rewrite calc_k_header. fold k_y.
  split; [apply lookup_insert_eq|]. split; [done|].
  unfold return_fit_input, header, getitem, set_header. simpl.
  rewrite (lookup_insert_ne _ _ "POLARITY"%string) by done.
  rewrite (lookup_insert_ne _ _ "LENGTH"%string) by done.
  rewrite (lookup_insert_ne _ _ (get_tune_col W plane)) by done.
  rewrite lookup_insert_eq, Hp, Hl, Ht. reflexivity.
Qed.
End kmod.

Lemma waist_error_ignores_minus_rows_witness :
  (KmodAnalysis.waist_results KmodAnalysis.minus_row_off).1.1.2 = 0%R ∧
  ((KmodAnalysis.waist_results KmodAnalysis.minus_row_off).1.1.2 < Rabs (11 - 10))%R.
Proof.
  apply (waist_error_ignores_minus_rows KmodAnalysis.minus_row_off 2 11%R).
  - intros x Hx. simpl in Hx.
    repeat (apply elem_of_cons in Hx as [->|Hx]; [reflexivity|]).
    by apply elem_of_nil in Hx.
  - reflexivity.
  - simpl. lra.
Defined.

Lemma unrecognized_polarity_is_a_type_error_witness :
  KmodAnalysis.return_df KmodAnalysis.same_polarity_magnet
    KmodAnalysis.same_polarity_magnet "X" = inr None ∧
  KmodAnalysis.get_beta_waist KmodAnalysis.demo_world KmodAnalysis.same_polarity_magnet
    KmodAnalysis.same_polarity_magnet KmodAnalysis.demo_input "X" = inl TypeError ∧
  is_InvalidInput TypeError = false.
Proof.
  apply (unrecognized_polarity_is_a_type_error KmodAnalysis.demo_world
           KmodAnalysis.same_polarity_magnet KmodAnalysis.same_polarity_magnet
           KmodAnalysis.demo_input "X" 1%R 1%R).
  - reflexivity.
  - reflexivity.
  - intros [_ H]. lra.
  - intros [H _]. lra.
Defined.

(** C5, as the specification words it, fails: with both magnets of polarity +1 the
    role assignment returns, and what stops [get_beta_waist] is not an
    error of the InvalidInput kind. *)
Lemma unrecognized_polarity_counterexample :
  KmodAnalysis.headers KmodAnalysis.same_polarity_magnet !! "POLARITY"%string = Some 1%R ∧
  KmodAnalysis.return_df KmodAnalysis.same_polarity_magnet
    KmodAnalysis.same_polarity_magnet "X" = inr None ∧
  ¬ ∃ e, KmodAnalysis.get_beta_waist KmodAnalysis.demo_world
           KmodAnalysis.same_polarity_magnet KmodAnalysis.same_polarity_magnet
           KmodAnalysis.demo_input "X" = inl e ∧ is_InvalidInput e = true.
Proof.
  assert (Hr : KmodAnalysis.return_df KmodAnalysis.same_polarity_magnet
                 KmodAnalysis.same_polarity_magnet "X" = inr None).
  { apply (return_df_unrecognized _ _ _ 1%R 1%R); try reflexivity.
    - intros [_ H]. lra.
    - intros [H _]. lra. }
  split; [reflexivity|]. split; [done|].
  intros (e & He & Hk).
  rewrite (get_beta_waist_unpacks KmodAnalysis.demo_world _ _ _ _ Hr) in He.
  injection He as <-. discriminate.
Qed.

Lemma calc_k_keeps_only_the_y_average_witness :
  let magnet_df := KmodAnalysis.calc_tune KmodAnalysis.demo_world KmodAnalysis.three_steps in
  KmodAnalysis.headers (KmodAnalysis.calc_k KmodAnalysis.demo_world magnet_df) !! "K"%string
    = Some (KmodAnalysis.average [2; 6]%R) ∧
  KmodAnalysis.return_fit_input KmodAnalysis.demo_world
    (KmodAnalysis.calc_k KmodAnalysis.demo_world magnet_df) "X"
    = inr (map (λ k, 1 * (k - KmodAnalysis.average [2; 6]) * 6)%R [1; 2]%R,
           map (λ _, KmodAnalysis.average [0; 0]%R) [1; 2]%R).
Proof.
  intros magnet_df.
  destruct (calc_k_keeps_only_the_y_average KmodAnalysis.demo_world magnet_df "X"
              1%R 6%R (KmodAnalysis.average [0; 0]%R)) as (Hk & _ & Hfit);
    [reflexivity | reflexivity | reflexivity | discriminate | discriminate | discriminate |].
  split; [exact Hk | exact Hfit].
Defined.

(** ** tune_analysis/bbq_tools.py *)

Section bbq.
Import BbqTools.
Local Open Scope Z_scope.

(** The points the first exclusion mask lets through. *)
Lemma mask_not_cut_mask (data_series : Series) (min_val max_val : option Q) :
  mask_not (cut_mask data_series min_val max_val) = map (survives min_val max_val) data_series.
Proof.
  unfold mask_not, cut_mask, mask_or, le_mask, ge_mask, isna, zeros.
  induction data_series as [|x l IH]; [by destruct min_val, max_val|].
  destruct min_val as [lo|], max_val as [hi|]; simpl in *; rewrite IH; f_equal;
    destruct x as [q|]; simpl; try done;
    repeat match goal with |- context [Qle_bool ?a ?b] => destruct (Qle_bool a b) end; done.
Qed.

Lemma mask_sum_survivors (data_series : Series) (min_val max_val : option Q) :
  mask_sum (mask_not (cut_mask data_series min_val max_val)) =
  Z.of_nat (length (List.filter (survives min_val max_val) data_series)).
Proof.
  rewrite mask_not_cut_mask. unfold mask_sum. f_equal.
  induction data_series as [|x l IH]; simpl; [done|].
  destruct (survives min_val max_val x); simpl; by rewrite IH.
Qed.

Lemma is_almost_empty_mask_spec (mask : list bool) (av_length : Z) :
  (mask_sum mask ≤ av_length → _is_almost_empty_mask mask av_length = inl ValueError) ∧
  (av_length + 1 ≤ mask_sum mask → _is_almost_empty_mask mask av_length = inr ()).
Proof.
  unfold _is_almost_empty_mask.
  destruct (Z.leb_spec (mask_sum mask) av_length); split; intros; try done; lia.
Qed.

(** C6.  Whatever the series holds: when at most [length] points
    survive the first exclusion mask, [get_moving_average] raises an
    error of the InvalidInput kind - the [ValueError] of the guard, unless
    the fine-cleaning options are inconsistent, which is reported first,
    as [NotImplementedError]; when at least [length + 1] points survive,
    the guard raises nothing. *)
Theorem moving_average_guard
    (W : World) (data_series : Series) (length : Z) (min_val max_val : option Q)
    (fine_length : option Z) (fine_cut : option Q) :
  let survivors :=
    Z.of_nat (List.length (List.filter (survives min_val max_val) data_series)) in
  (survivors ≤ length →
   (∃ e, get_moving_average W data_series length min_val max_val fine_length fine_cut
           = inl e ∧ is_InvalidInput e = true) ∧
   (xorb (truthy_Z fine_length) (truthy_Q fine_cut) = false →
    get_moving_average W data_series length min_val max_val fine_length fine_cut
      = inl ValueError)) ∧
  (length + 1 ≤ survivors →
   _is_almost_empty_mask (mask_not (cut_mask data_series min_val max_val)) length = inr ()).
Proof.
  intros survivors. unfold survivors. rewrite <- mask_sum_survivors.
  destruct (is_almost_empty_mask_spec
              (mask_not (cut_mask data_series min_val max_val)) length) as [Hle Hgt].
  split; [|done]. intros Hs. specialize (Hle Hs).
  unfold get_moving_average.
  destruct (xorb (truthy_Z fine_length) (truthy_Q fine_cut)).
  - split; [by exists NotImplementedError | done].
  - rewrite Hle. split; [by exists ValueError | done].
Qed.
End bbq.

Lemma moving_average_guard_witness :
  BbqTools.get_moving_average BbqTools.demo_world BbqTools.demo_series 3
    (Some (1 # 10)) (Some (1 # 2)) None None = inl ValueError ∧
  BbqTools._is_almost_empty_mask
    (BbqTools.mask_not (BbqTools.cut_mask BbqTools.demo_series (Some (1 # 10)) (Some (1 # 2)))) 2
  = inr ().
Proof.
  split.
  - apply (moving_average_guard BbqTools.demo_world BbqTools.demo_series 3
             (Some (1 # 10)) (Some (1 # 2)) None None); [vm_compute; discriminate | reflexivity].
  - apply (moving_average_guard BbqTools.demo_world BbqTools.demo_series 2
             (Some (1 # 10)) (Some (1 # 2)) None None). vm_compute. discriminate.
Defined.


(** ** correction/handler.py: further properties *)

Lemma mapM_total {A B : Type} (g : A → Result B) (f : A → B) (l : list A) :
  (∀ x, x ∈ l → g x = inr (f x)) → mapM g l = inr (map f l).
Proof.
  induction l as [|x l IH]; intros H; simpl; [done|].
  rewrite (H x) by (by left). simpl.
  rewrite IH by (intros z Hz; apply H; by right). done.
Qed.

Lemma concat_replicate_zero (ns : list nat) :
  concat (map (λ n, replicate n 0%Q) ns) = replicate (sum_list ns) 0%Q.
Proof.
  induction ns as [|n ns IH]; simpl; [done|]. by rewrite IH, replicate_add.
Qed.

Section handler_more.
Import Handler.
Local Open Scope Q_scope.

(** X1.  [_join_responses], given at least one key and a response table
    for every key, returns a matrix whose column labels are the variable
    list, in order; a variable that is a column of none of the tables gets a
    column of zeros as long as all their rows together.  A key without a
    response table is a [KeyError], and an empty list of keys is the
    [ValueError] of [pd.concat]. *)
Theorem join_responses_columns
    (resp : gmap string DataFrame) (keys varslist : list string) :
  (keys ≠ [] → (∀ k, k ∈ keys → is_Some (resp !! k)) →
   ∃ rm, _join_responses resp keys varslist = inr rm ∧
         rm.*1 = varslist ∧
         ∀ v col, (v, col) ∈ rm →
           (∀ k f, k ∈ keys → resp !! k = Some f → assoc v (columns f) = None) →
           col = replicate
                   (sum_list (map (λ k, from_option (λ f, length (index f)) 0%nat (resp !! k))
                                  keys)) 0) ∧
  (∀ k, k ∈ keys → resp !! k = None → _join_responses resp keys varslist = inl KeyError) ∧
  (keys = [] → _join_responses resp keys varslist = inl ValueError).
Proof.
  split; [|split].
  - intros Hkeys Hall. unfold _join_responses.
    set (frame := λ k, default {| headers := ∅; index := []; columns := [] |} (resp !! k)).
    rewrite (mapM_total (getitem resp) frame).
    2:{ intros k Hk. unfold getitem, frame. by destruct (Hall k Hk) as [f ->]. }
    simpl. destruct (map frame keys) as [|f0 fs] eqn:Hframes;
      [by apply map_eq_nil in Hframes|].
    rewrite <- Hframes. eexists. split; [reflexivity|]. split.
    { rewrite <- list_fmap_compose. apply list_fmap_id. }
    intros v col Hin Habs. apply list_elem_of_fmap in Hin as (v' & [= <- ->] & _).
    rewrite <- concat_replicate_zero, !map_map. f_equal. apply map_ext_in.
    intros k Hk%list_elem_of_In. unfold frame.
    destruct (Hall k Hk) as [f Hf]. rewrite Hf. simpl. by rewrite (Habs k f Hk Hf).
  - intros k Hk Hnone. unfold _join_responses.
    assert (mapM (getitem resp) keys = inl KeyError) as ->; [|done].
    induction keys as [|k' keys IH]; [by apply elem_of_nil in Hk|]. simpl.
    assert (Hg : getitem resp k' = match resp !! k' with
                                   | Some f => inr f
                                   | None => inl KeyError
                                   end) by done.
    rewrite Hg. destruct (resp !! k') as [f|] eqn:Hk'; simpl; [|reflexivity].
    apply elem_of_cons in Hk as [->|Hk]; [congruence|]. by rewrite IH.
  - by intros ->.
Qed.

Lemma join_responses_columns_witness :
  (∃ rm, _join_responses
           {["Q"%string := {| headers := ∅; index := ["Q1"; "Q2"]%string;
                              columns := [("kq1"%string, [1; 0])] |}]}
           ["Q"%string] ["kq1"; "kq2"]%string = inr rm ∧
         rm.*1 = ["kq1"; "kq2"]%string ∧
         ("kq2"%string, [0; 0]) ∈ rm) ∧
  _join_responses
    {["Q"%string := {| headers := ∅; index := ["Q1"; "Q2"]%string;
                       columns := [("kq1"%string, [1; 0])] |}]}
    [] ["kq1"; "kq2"]%string = inl ValueError.
Proof.
  split.
  - destruct (join_responses_columns
                {["Q"%string := {| headers := ∅; index := ["Q1"; "Q2"]%string;
                                   columns := [("kq1"%string, [1; 0])] |}]}
                ["Q"%string] ["kq1"; "kq2"]%string) as [Hok _].
    destruct Hok as (rm & Hrm & Hlabels & _).
    + discriminate.
    + intros k [->|Hk%elem_of_nil]%elem_of_cons; [by eexists | done].
    + exists rm. split; [done|]. split; [done|].
      vm_compute in Hrm. injection Hrm as <-. apply elem_of_cons. right. by left.
  - by apply (join_responses_columns _ [] _).
Defined.

Lemma filter_label_unique (rm : ResponseMatrix) (l : string) :
  NoDup rm.*1 → l ∈ rm.*1 →
  (List.filter (λ c : string * list Q, String.eqb c.1 l) rm).*1 = [l].
Proof.
  induction rm as [|[c col] rm IH]; simpl; intros Hnd Hl; [by apply elem_of_nil in Hl|].
  apply NoDup_cons in Hnd as [Hc Hnd].
  destruct (String.eqb_spec c l) as [->|Hne]; simpl.
  - f_equal. clear IH Hl. induction rm as [|[c' col'] rm IH]; simpl; [done|].
    apply not_elem_of_cons in Hc as [Hne Hc]. apply NoDup_cons in Hnd as [_ Hnd].
    simpl in *. destruct (String.eqb_spec c' l) as [->|_]; [done | auto].
  - apply elem_of_cons in Hl as [->|Hl]; [done | auto].
Qed.

(** On a matrix with distinct column labels, selecting present labels
    returns exactly those columns, in the order asked for. *)
Lemma loc_columns_exact (rm rm' : ResponseMatrix) (labels : list string) :
  NoDup rm.*1 → (∀ l, l ∈ labels → l ∈ rm.*1) →
  loc_columns rm labels = inr rm' → rm'.*1 = labels.
Proof.
  intros Hnd Hin. unfold loc_columns. intros H. inv_bind H. injection H as <-.
  apply mapM_inr in E. revert Hin.
  induction E as [|l cs labels css Hl _ IH]; intros Hin; simpl; [done|].
  rewrite fmap_app, IH by (intros l' Hl'; apply Hin; by right). 
  assert (Hcs : cs = List.filter (λ c : string * list Q, String.eqb c.1 l) rm).
  { destruct (List.filter _ rm); [discriminate | by injection Hl]. }
  rewrite Hcs, filter_label_unique; [done | done | apply Hin; by left].
Qed.

Section handler_invariant.
Context (W : World) (opt : Opt) (optics_params : list string).

Lemma join_responses_labels (resp : gmap string DataFrame) (keys vars : list string)
    (rm : ResponseMatrix) :
  _join_responses resp keys vars = inr rm → rm.*1 = vars.
Proof.
  unfold _join_responses. intros H. inv_bind H.
  destruct a as [|f frames]; [discriminate|]. injection H as <-.
  rewrite <- list_fmap_compose. apply list_fmap_id.
Qed.

Lemma update_keeps_aligned (it : nat) (s s' : Loop W) :
  update_model_and_response W opt optics_params it s = inr s' → aligned s → aligned s'.
Proof.
  unfold update_model_and_response, aligned. intros H (Hd & Hr & Hnd). inv_bind H.
  destruct (update_response opt); inv_bind H; injection H as <-; simpl; [|done].
  match goal with Hj : _join_responses _ _ _ = inr _ |- _ =>
    by apply join_responses_labels in Hj end.
Qed.

Lemma iteration_body_aligned (it : nat) (s s' : Loop W) :
  iteration_body W opt optics_params it s = inr s' → aligned s →
  aligned s' ∧ vars_list s' `sublist_of` vars_list s.
Proof.
  unfold iteration_body. intros H Hal. inv_bind H. injection H as <-.
  unfold aligned. simpl.
  unfold accumulate in E. inv_bind E. injection E as <- <-.
  assert (aligned a) as (Hd & Hr & Hnd).
  { destruct (0 <? it)%nat; [by eapply update_keeps_aligned | by injection E1 as <-]. }
  assert (vars_list a = vars_list s) as Hvs.
  { destruct (0 <? it)%nat; [by eapply update_keeps_delta | by injection E1 as <-]. }
  apply iadd_index in E3 as [Hacc _].
  unfold _filter_by_strength in E0. inv_bind E0. injection E0 as <- <- <-.
  match goal with |- context [List.filter ?f ?l] => set (kept := List.filter f l) in * end.
  assert (Hsub : kept.*1 `sublist_of` vars_list a).
  { rewrite <- Hd, <- Hacc. apply fmap_sublist, filter_sublist. }
  split; [|by rewrite <- Hvs]. split; [done|]. split.
  - eapply loc_columns_exact; [by rewrite Hr | | exact E].
    intros l Hl. rewrite Hr. by eapply elem_of_sublist.
  - by eapply sublist_NoDup.
Qed.

(** X2.  From the state [correct] sets up to the state after any number
    of iterations, the index of the Delta Vector, the variable list and the
    column labels of the response matrix are one and the same list without
    repetition, and that list is a sublist of the one the run started with:
    the three structures shrink together and keep their order. *)
Theorem loop_structures_stay_aligned
    (fs0 : gmap string File) (s0 s : Loop W) (iterations : list nat) :
  correct_setup W opt fs0 = inr (optics_params, s0) →
  NoDup (vars_list s0) →
  iterate W opt optics_params iterations s0 = inr s →
  aligned s ∧ vars_list s `sublist_of` vars_list s0.
Proof.
  intros Hsetup Hnd Hit.
  assert (Hal0 : aligned s0).
  { split; [by eapply correct_setup_index|]. split; [|done].
    unfold correct_setup in Hsetup. inv_bind Hsetup. injection Hsetup as _ <-. simpl.
    match goal with Hj : _join_responses _ _ _ = inr _ |- _ =>
      by apply join_responses_labels in Hj end. }
  clear Hsetup Hnd. revert s0 Hal0 Hit.
  induction iterations as [|it its IH]; intros s0 Hal0 Hit; simpl in Hit.
  - by injection Hit as <-.
  - inv_bind Hit. destruct (iteration_body_aligned _ _ _ E Hal0) as [Hal1 Hsub1].
    destruct (IH _ Hal1 Hit) as [Hal Hsub]. split; [done | by etrans].
Qed.
End handler_invariant.

Lemma loop_structures_stay_aligned_witness :
  ∃ (optics_params : list string) (s0 s : Loop demo_world),
    correct_setup demo_world demo_opt ∅ = inr (optics_params, s0) ∧
    iterate demo_world demo_opt optics_params (seq 0 3) s0 = inr s ∧
    aligned s ∧ vars_list s `sublist_of` vars_list s0.
Proof.
  do 3 eexists. split; [vm_compute; reflexivity|]. split; [vm_compute; reflexivity|].
  eapply (loop_structures_stay_aligned demo_world demo_opt _ ∅ _ _ (seq 0 3)).
  - vm_compute. reflexivity.
  - apply (bool_decide_unpack _). vm_compute. exact I.
  - vm_compute. reflexivity.
Defined.

Lemma filter_label_entry (rm : ResponseMatrix) (l : string) (col : list Q) :
  NoDup rm.*1 → (l, col) ∈ rm →
  List.filter (λ c : string * list Q, String.eqb c.1 l) rm = [(l, col)].
Proof.
  induction rm as [|[c col'] rm IH]; simpl; intros Hnd Hl; [by apply elem_of_nil in Hl|].
  apply NoDup_cons in Hnd as [Hc Hnd].
  apply elem_of_cons in Hl as [[= <- <-]|Hl].
  - rewrite String.eqb_refl. f_equal.
    clear IH. induction rm as [|[c' col''] rm IH]; simpl; [done|].
    apply not_elem_of_cons in Hc as [Hne Hc]. apply NoDup_cons in Hnd as [_ Hnd].
    simpl in *. destruct (String.eqb_spec c' l) as [->|_]; [done | auto].
  - destruct (String.eqb_spec c l) as [->|_]; [|auto].
    exfalso. apply Hc. apply list_elem_of_fmap. by exists (l, col).
Qed.

(** Selecting all labels of a matrix with distinct labels returns it. *)
Lemma loc_columns_all (rm : ResponseMatrix) :
  NoDup rm.*1 → loc_columns rm rm.*1 = inr rm.
Proof.
  intros Hnd. unfold loc_columns.
  rewrite (mapM_total _ (λ l, List.filter (λ c : string * list Q, String.eqb c.1 l) rm)).
  2:{ intros l ([l' col] & -> & Hc)%list_elem_of_fmap.
      cbn [fst]. by rewrite (filter_label_entry rm l' col). }
  simpl. f_equal.
  assert (H : ∀ part, (∀ c, c ∈ part → c ∈ rm) →
            concat (map (λ l, List.filter (λ c : string * list Q, String.eqb c.1 l) rm)
                        part.*1) = part).
  { induction part as [|[l col] part IH]; intros Hin; simpl; [done|].
    rewrite (filter_label_entry rm l col) by (done || apply Hin; by left). simpl.
    f_equal. apply IH. intros c Hc. apply Hin. by right. }
  by apply H.
Qed.

Lemma abs_gt_spec (v m : Q) : abs_gt v m = true ↔ m < Qabs v.
Proof.
  unfold abs_gt. rewrite negb_true_iff. split.
  - intros H. apply Qnot_le_lt. intros Hle. apply Qle_bool_iff in Hle. congruence.
  - intros H. destruct (Qle_bool (Qabs v) m) eqn:E; [|done].
    apply Qle_bool_iff in E. lra.
Qed.

Lemma filter_all_true {A : Type} (f : A → bool) (l : list A) :
  (∀ x, x ∈ l → f x = true) → List.filter f l = l.
Proof.
  induction l as [|x l IH]; intros H; simpl; [done|].
  rewrite (H x) by (by left). f_equal. apply IH. intros y Hy. apply H. by right.
Qed.

(** X3.  On a delta and a response matrix that name the same distinct
    correctors, [_filter_by_strength] raises nothing; it keeps, in order,
    exactly the rows whose |DELTA| is strictly above [min_strength], and the
    columns and the variable list it returns carry the labels of those rows.
    A negative [min_strength] removes nothing. *)
Theorem filter_by_strength_keeps_strong (acc : Delta) (rm : ResponseMatrix) (m : Q) :
  NoDup rm.*1 → acc.*1 = rm.*1 →
  ∃ d rm', _filter_by_strength acc rm m = inr (d, rm', d.*1) ∧
    rm'.*1 = d.*1 ∧ d `sublist_of` acc ∧
    (∀ v x, (v, x) ∈ d ↔ (v, x) ∈ acc ∧ m < Qabs x) ∧
    (m < 0 → d = acc ∧ rm' = rm).
Proof.
  intros Hnd Hidx. unfold _filter_by_strength.
  set (d := List.filter (λ row : string * Q, abs_gt row.2 m) acc).
  assert (Hsub : d `sublist_of` acc) by apply filter_sublist.
  assert (Hin : ∀ l, l ∈ d.*1 → l ∈ rm.*1).
  { intros l Hl. rewrite <- Hidx. eapply elem_of_sublist; [done|]. by apply fmap_sublist. }
  destruct (loc_columns_present rm d.*1 Hin) as [rm' Hrm'].
  exists d, rm'. rewrite Hrm'. simpl. split; [done|].
  split; [by eapply loc_columns_exact|]. split; [done|]. split.
  - intros v x. unfold d. rewrite elem_of_filter_bool. simpl. rewrite abs_gt_spec. tauto.
  - intros Hneg.
    assert (Hd : d = acc).
    { apply filter_all_true. intros [v x] _. simpl. apply abs_gt_spec.
      pose proof (Qabs_nonneg x). lra. }
    split; [done|]. rewrite Hd, Hidx, loc_columns_all in Hrm' by done. by injection Hrm'.
Qed.

Lemma filter_by_strength_keeps_strong_witness :
  ∃ d rm', _filter_by_strength [("kq1"%string, 0.001); ("kq2"%string, - 0.03)]
             [("kq1"%string, [1; 0]); ("kq2"%string, [0; 1])] 0.01 = inr (d, rm', d.*1) ∧
    rm'.*1 = d.*1 ∧ d `sublist_of` [("kq1"%string, 0.001); ("kq2"%string, - 0.03)] ∧
    (("kq2"%string, - 0.03) ∈ d) ∧ (("kq1"%string, 0.001) ∉ d).
Proof.
  destruct (filter_by_strength_keeps_strong
              [("kq1"%string, 0.001); ("kq2"%string, - 0.03)]
              [("kq1"%string, [1; 0]); ("kq2"%string, [0; 1])] 0.01)
    as (d & rm' & Hrun & Hlab & Hsub & Hiff & _).
  - apply (bool_decide_unpack _). vm_compute. exact I.
  - reflexivity.
  - exists d, rm'. repeat split; try done.
    + apply Hiff. split; [apply elem_of_cons; right; by left|]. vm_compute. reflexivity.
    + intros [_ Hlt]%Hiff. vm_compute in Hlt. discriminate.
Defined.

Section handler_outputs.
Context (W : World) (opt : Opt).

Lemma iteration_body_files (optics_params : list string) (it : nat) (s s' : Loop W) :
  iteration_body W opt optics_params it s = inr s' →
  ∃ base, fs s' = writeparams (change_params_correct_path opt) (neg (delta s'))
                    (writeparams (change_params_path opt) (delta s') base).
Proof.
  unfold iteration_body. intros H. inv_bind H. injection H as <-. simpl. eauto.
Qed.

Lemma range_last (n : Z) : (0 <= n)%Z → range (n + 1) = range n ++ [Z.to_nat n].
Proof.
  intros Hn. unfold range. rewrite Z2Nat.inj_add by lia.
  change (Z.to_nat 1) with 1%nat. by rewrite seq_app.
Qed.

(** X4.  A run of [correct] with [max_iter >= 0] and three distinct
    output paths leaves three consistent files: the change-parameter file
    holds the delta the run ends with, the "correct" change-parameter file
    holds its negation, and the knob file holds, under the index name NAME,
    the same negated rows as the "correct" file. *)
Theorem correct_writes_consistent_files (fs0 : gmap string File) (s : Loop W) :
  (0 <= max_iter opt)%Z →
  change_params_path opt ≠ change_params_correct_path opt →
  knob_path opt ≠ change_params_path opt →
  knob_path opt ≠ change_params_correct_path opt →
  correct W opt fs0 = inr s →
  fs s !! change_params_path opt = Some (ParamFile (delta s)) ∧
  fs s !! change_params_correct_path opt = Some (ParamFile (neg (delta s))) ∧
  ∃ hdrs, fs s !! knob_path opt = Some (KnobFile hdrs "NAME" (neg (delta s))).
Proof.
  intros Hmax Hcc Hkc Hkk. unfold correct. intros H. inv_bind H. injection H as <-. simpl.
  rewrite range_last, iterate_app in E0 by done. inv_bind E0. simpl in E0. inv_bind E0.
  injection E0 as <-.
  match goal with Hb : iteration_body _ _ _ _ _ = inr ?s' |- _ =>
    apply iteration_body_files in Hb as [base Hfs] end.
  unfold write_knob, writeparams in *. rewrite Hfs.
  rewrite lookup_insert_ne, lookup_insert_ne, lookup_insert_eq by done.
  rewrite lookup_insert_ne, lookup_insert_eq by done.
  rewrite lookup_insert_eq. eauto.
Qed.

(** X5.  With a negative [max_iter] the loop body never runs: [correct]
    returns the all-zero delta over the variable list, writes a knob file
    whose rows are all zero, and leaves the two change-parameter paths as it
    found them. *)
Theorem correct_without_iterations (fs0 : gmap string File) (s : Loop W) :
  (max_iter opt < 0)%Z →
  knob_path opt ≠ change_params_path opt →
  knob_path opt ≠ change_params_correct_path opt →
  correct W opt fs0 = inr s →
  delta s = map (λ v, (v, 0)) (vars_list s) ∧
  (∃ hdrs, fs s !! knob_path opt = Some (KnobFile hdrs "NAME" (map (λ v, (v, 0)) (vars_list s)))) ∧
  fs s !! change_params_path opt = fs0 !! change_params_path opt ∧
  fs s !! change_params_correct_path opt = fs0 !! change_params_correct_path opt.
Proof.
  intros Hmax Hkc Hkk. unfold correct. intros H. inv_bind H. injection H as <-. simpl.
  assert (Hr : range (max_iter opt + 1) = []).
  { unfold range. replace (Z.to_nat (max_iter opt + 1)) with 0%nat by lia. done. }
  rewrite Hr in E0. simpl in E0. injection E0 as <-.
  unfold correct_setup in E. inv_bind E. injection E as _ <-. simpl.
  unfold write_knob. rewrite lookup_insert_eq, !lookup_insert_ne by done.
  split; [done|]. split; [|done]. eexists. do 2 f_equal.
  unfold neg. rewrite map_map. done.
Qed.
End handler_outputs.

Lemma correct_writes_consistent_files_witness :
  ∃ s : Loop demo_world,
    correct demo_world demo_opt ∅ = inr s ∧
    fs s !! change_params_path demo_opt = Some (ParamFile (delta s)) ∧
    fs s !! change_params_correct_path demo_opt = Some (ParamFile (neg (delta s))) ∧
    ∃ hdrs, fs s !! knob_path demo_opt = Some (KnobFile hdrs "NAME" (neg (delta s))).
Proof.
  eexists. split; [vm_compute; reflexivity|].
  apply (correct_writes_consistent_files demo_world demo_opt ∅).
  - vm_compute. discriminate.
  - apply (bool_decide_unpack _). vm_compute. exact I.
  - apply (bool_decide_unpack _). vm_compute. exact I.
  - apply (bool_decide_unpack _). vm_compute. exact I.
  - vm_compute. reflexivity.
Defined.

Lemma correct_without_iterations_witness :
  ∃ s : Loop demo_world,
    correct demo_world demo_opt_no_iteration ∅ = inr s ∧
    delta s = map (λ v, (v, 0)) (vars_list s) ∧
    (∃ hdrs, fs s !! knob_path demo_opt_no_iteration =
             Some (KnobFile hdrs "NAME" (map (λ v, (v, 0)) (vars_list s)))) ∧
    fs s !! change_params_path demo_opt_no_iteration =
      (∅ : gmap string File) !! change_params_path demo_opt_no_iteration ∧
    fs s !! change_params_correct_path demo_opt_no_iteration =
      (∅ : gmap string File) !! change_params_correct_path demo_opt_no_iteration.
Proof.
  eexists. split; [vm_compute; reflexivity|].
  apply (correct_without_iterations demo_world demo_opt_no_iteration ∅).
  - reflexivity.
  - apply (bool_decide_unpack _). vm_compute. exact I.
  - apply (bool_decide_unpack _). vm_compute. exact I.
  - vm_compute. reflexivity.
Defined.

Section handler_loading.
Context (W : World) (meas_dir beta_file_name : string).

Lemma load_key_coupling (m : gmap string DataFrame) (key : string) :
  is_coupling_key key = true → load_key W meas_dir beta_file_name m key = inr m.
Proof.
  unfold is_coupling_key. intros Hk%bool_decide_eq_true.
  repeat (apply elem_of_cons in Hk as [->|Hk]; [reflexivity|]).
  by apply elem_of_nil in Hk.
Qed.

Lemma load_key_dom (m m' : gmap string DataFrame) (key k : string) :
  load_key W meas_dir beta_file_name m key = inr m' →
  is_Some (m' !! k) → k = key ∨ is_Some (m !! k).
Proof.
  intros H Hk. destruct (decide (k = key)) as [->|Hne]; [by left|].
  right. by rewrite <- (load_key_other W meas_dir beta_file_name m m' key k).
Qed.

Lemma load_keys_dom (m m' : gmap string DataFrame) (keys : list string) (k : string) :
  load_keys W meas_dir beta_file_name m keys = inr m' →
  is_Some (m' !! k) → k ∈ keys ∨ is_Some (m !! k).
Proof.
  revert m. induction keys as [|key keys IH]; intros m H Hk; simpl in H.
  - injection H as <-. by right.
  - inv_bind H. destruct (IH _ H Hk) as [Hin|Hs]; [left; by right|].
    destruct (load_key_dom _ _ _ _ E Hs) as [->|Hm]; [left; by left | by right].
Qed.

Lemma load_keys_coupling (m m' : gmap string DataFrame) (keys : list string) (k : string) :
  load_keys W meas_dir beta_file_name m keys = inr m' →
  is_coupling_key k = true → m' !! k = m !! k.
Proof.
  revert m. induction keys as [|key keys IH]; intros m H Hk; simpl in H.
  - by injection H as <-.
  - inv_bind H. rewrite (IH _ H Hk). destruct (decide (k = key)) as [->|Hne].
    + rewrite load_key_coupling in E by done. by injection E as <-.
    + by eapply load_key_other.
Qed.

(** X6.  [_get_measurment_data] returns tables only for keys it kept,
    that is keys of non-zero weight.  The four coupling keys F1001R, F1001I,
    F1010R and F1010I are kept in the returned key list when their weight is
    not zero, but no table is ever loaded for them. *)
Theorem coupling_keys_are_kept_but_never_loaded
    (keys fk : list string) (w_dict : gmap string Q) (m : gmap string DataFrame) :
  _get_measurment_data W keys meas_dir beta_file_name w_dict = inr (fk, m) →
  (∀ k, is_Some (m !! k) → k ∈ fk) ∧
  (∀ k, is_coupling_key k = true → m !! k = None) ∧
  (∀ k wk, k ∈ keys → w_dict !! k = Some wk → ¬ wk == 0 → k ∈ fk).
Proof.
  unfold _get_measurment_data. intros H. inv_bind H. injection H as <- <-.
  split; [|split].
  - intros k Hk. destruct (load_keys_dom _ _ _ _ E0 Hk) as [Hin|Hs]; [done|].
    rewrite lookup_empty in Hs. by destruct Hs.
  - intros k Hk. by rewrite (load_keys_coupling _ _ _ _ E0 Hk), lookup_empty.
  - intros k wk Hin Hw Hne. apply (filter_keys_spec _ _ _ E). split; [done|].
    exists wk. split; [done|]. destruct (Qeq_bool wk 0) eqn:Eq; [|done].
    by apply Qeq_bool_iff in Eq.
Qed.

(** X7.  [_load_fullresponse] returns the unpickled dictionary unchanged
    as soon as one of the variables is a column of one of its tables, and
    raises [ValueError] when none is; with no variables at all it always
    raises. *)
Theorem load_fullresponse_needs_a_known_variable
    (path : string) (variables : list string) (data : gmap string DataFrame) :
  load_pickle W path = inr data →
  ((∃ v k f, v ∈ variables ∧ data !! k = Some f ∧ v ∈ (columns f).*1) →
   _load_fullresponse W path variables = inr data) ∧
  ((∀ v k f, v ∈ variables → data !! k = Some f → v ∉ (columns f).*1) →
   _load_fullresponse W path variables = inl ValueError).
Proof.
  intros Hload. unfold _load_fullresponse. rewrite Hload. simpl.
  set (loaded := flat_map (λ kv : string * DataFrame, (columns kv.2).*1) (map_to_list data)).
  assert (Hloaded : ∀ v, v ∈ loaded ↔ ∃ k f, data !! k = Some f ∧ v ∈ (columns f).*1).
  { intros v. unfold loaded. rewrite list_elem_of_In, in_flat_map. split.
    - intros ([k f] & Hkf%list_elem_of_In%elem_of_map_to_list & Hv%list_elem_of_In). eauto.
    - intros (k & f & Hkf & Hv). exists (k, f). split.
      + by apply list_elem_of_In, elem_of_map_to_list.
      + by apply list_elem_of_In. }
  split.
  - intros (v & k & f & Hv & Hkf & Hcol).
    assert (existsb (λ v, bool_decide (v ∈ loaded)) variables = true) as ->; [|done].
    apply existsb_exists. exists v. split; [by apply list_elem_of_In|].
    apply bool_decide_eq_true, Hloaded. eauto.
  - intros Hnone.
    assert (existsb (λ v, bool_decide (v ∈ loaded)) variables = false) as ->; [|done].
    apply not_true_is_false. intros (v & Hv%list_elem_of_In & Hd)%existsb_exists.
    apply bool_decide_eq_true, Hloaded in Hd as (k & f & Hkf & Hcol).
    by apply (Hnone v k f).
Qed.
End handler_loading.

Lemma coupling_keys_are_kept_but_never_loaded_witness :
  ∃ fk m,
    _get_measurment_data demo_world ["Q"; "F1001R"]%string "meas" "getbeta"
      {["Q"%string := 1; "F1001R"%string := 1]} = inr (fk, m) ∧
    "F1001R"%string ∈ fk ∧ m !! "F1001R"%string = None.
Proof.
  destruct (_get_measurment_data demo_world ["Q"; "F1001R"]%string "meas" "getbeta"
              {["Q"%string := 1; "F1001R"%string := 1]}) as [e|[fk m]] eqn:Hrun;
    [vm_compute in Hrun; discriminate|].
  exists fk, m. split; [done|].
  destruct (coupling_keys_are_kept_but_never_loaded demo_world "meas" "getbeta"
              ["Q"; "F1001R"]%string fk {["Q"%string := 1; "F1001R"%string := 1]} m Hrun)
    as (_ & Hnone & Hkept).
  split.
  - apply (Hkept "F1001R"%string 1).
    + apply elem_of_cons. right. by left.
    + reflexivity.
    + intros Heq. vm_compute in Heq. discriminate.
  - by apply Hnone.
Defined.

Lemma load_fullresponse_needs_a_known_variable_witness :
  _load_fullresponse demo_world_pickled "fullresponse" ["kq2"; "kq9"]%string = inr demo_response ∧
  _load_fullresponse demo_world_pickled "fullresponse" ["kq9"]%string = inl ValueError.
Proof.
  destruct (load_fullresponse_needs_a_known_variable demo_world_pickled "fullresponse"
              ["kq2"; "kq9"]%string demo_response) as [Hok _]; [reflexivity|].
  destruct (load_fullresponse_needs_a_known_variable demo_world_pickled "fullresponse"
              ["kq9"]%string demo_response) as [_ Hbad]; [reflexivity|].
  split.
  - apply Hok. exists "kq2"%string, "Q"%string. eexists. split; [by left|].
    split; [reflexivity|]. apply elem_of_cons. right. by left.
  - apply Hbad. intros v k f ->%list_elem_of_singleton Hkf.
    unfold demo_response in Hkf. apply lookup_singleton_Some in Hkf as [_ <-]. simpl.
    intros Hin. repeat (apply elem_of_cons in Hin as [Hin|Hin]; [discriminate|]).
    by apply elem_of_nil in Hin.
Defined.

Section handler_method.
Context (W : World).

(** X8.  Once the weighted response and the weighted difference vector
    are built, the outcome of [_calculate_delta] is decided by the method: a
    name other than "pinv" and "omp" is a [KeyError]; "pinv" without
    [svd_cut] and "omp" without [n_correctors] are a [ValueError]; and "pinv"
    with a cut returns the solver's values indexed by the variable list,
    provided there is one value per variable. *)
Theorem calculate_delta_by_method
    (rm rw : ResponseMatrix) (meas : gmap string DataFrame) (keys vars : list string)
    (method : string) (opt : Opt) (w d : list Q) :
  _join_columns "WEIGHT" meas keys = inr w →
  _join_columns "DIFF" meas keys = inr d →
  mul_index rm w = inr rw →
  length d = length w →
  (method ≠ "pinv"%string → method ≠ "omp"%string →
   _calculate_delta W rm meas keys vars method opt = inl KeyError) ∧
  (method = "pinv"%string → svd_cut opt = None →
   _calculate_delta W rm meas keys vars method opt = inl ValueError) ∧
  (method = "omp"%string → n_correctors opt = None →
   _calculate_delta W rm meas keys vars method opt = inl ValueError) ∧
  (∀ cut, method = "pinv"%string → svd_cut opt = Some cut →
   length (pinv_solve W rw cut (zip_mul d w)) = length vars →
   _calculate_delta W rm meas keys vars method opt =
   inr (zip vars (pinv_solve W rw cut (zip_mul d w)))).
Proof.
  intros Hw Hd Hrw Hlen. unfold _calculate_delta.
  change (_join_columns WEIGHT meas keys) with (_join_columns "WEIGHT" meas keys).
  change (_join_columns DIFF meas keys) with (_join_columns "DIFF" meas keys).
  rewrite Hw, Hd. simpl. rewrite Hrw. simpl.
  unfold mul_arrays. rewrite Hlen, Nat.eqb_refl. simpl. unfold _get_method_fun.
  repeat split.
  - intros Hp Ho. apply String.eqb_neq in Hp, Ho. by rewrite Hp, Ho.
  - intros -> Hcut. simpl. unfold _pseudo_inverse. by rewrite Hcut.
  - intros -> Hn. simpl. unfold _orthogonal_matching_pursuit. by rewrite Hn.
  - intros cut -> Hcut Hl. simpl. unfold _pseudo_inverse. rewrite Hcut. simpl.
    unfold delta_frame. by rewrite Hl, Nat.eqb_refl.
Qed.
End handler_method.

Lemma calculate_delta_by_method_witness :
  _calculate_delta demo_world [("kq1"%string, [1; 0]); ("kq2"%string, [0; 1])] demo_meas
    ["Q"%string] ["kq1"; "kq2"]%string "svd" demo_opt = inl KeyError.
Proof.
  eapply (calculate_delta_by_method demo_world _ _ demo_meas ["Q"%string] _ "svd" demo_opt).
  - vm_compute. reflexivity.
  - vm_compute. reflexivity.
  - vm_compute. reflexivity.
  - reflexivity.
  - discriminate.
  - discriminate.
Defined.
End handler_more.

(** ** optics_measurements/beta_from_phase.py: further properties *)

Lemma omap_total {A B : Type} (f : A → option B) (g : A → B) (l : list A) :
  (∀ x, x ∈ l → f x = Some (g x)) → omap f l = map g l.
Proof.
  induction l as [|x l IH]; intros H; simpl; [done|].
  rewrite (H x) by (by left). f_equal. apply IH. intros z Hz. apply H. by right.
Qed.

(** [np.roll(a, shift)[i] = a[(i - shift) mod len(a)]] *)
Lemma np_roll_lookup {A : Type} (shift : Z) (a : list A) (i : nat) :
  (i < length a)%nat →
  BetaFromPhase.np_roll shift a !! i =
  a !! Z.to_nat ((Z.of_nat i - shift) `mod` Z.of_nat (length a)).
Proof.
  intros Hi. unfold BetaFromPhase.np_roll.
  destruct a as [|x0 a0] eqn:Ha; [simpl in Hi; lia|]. rewrite <- Ha in *. clear Ha a0.
  rewrite (omap_total _ (λ i, default x0
             (a !! Z.to_nat ((Z.of_nat i - shift) `mod` Z.of_nat (length a))))).
  - rewrite list_lookup_fmap, lookup_seq_lt by done. simpl.
    destruct (lookup_lt_is_Some_2 a
                (Z.to_nat ((Z.of_nat i - shift) `mod` Z.of_nat (length a)))) as [y ->]; [|done].
    pose proof (Z.mod_pos_bound (Z.of_nat i - shift) (Z.of_nat (length a))). lia.
  - intros k Hk%elem_of_seq.
    destruct (lookup_lt_is_Some_2 a
                (Z.to_nat ((Z.of_nat k - shift) `mod` Z.of_nat (length a)))) as [y ->]; [|done].
    pose proof (Z.mod_pos_bound (Z.of_nat k - shift) (Z.of_nat (length a))). lia.
Qed.

Section tilt.
Import BetaFromPhase.
Local Open Scope Q_scope.

Lemma take_at_total {A : Type} (f : nat → A) (idx : list nat) (a : list A) :
  (∀ i, i ∈ idx → a !! i = Some (f i)) → take_at idx a = inr (map f idx).
Proof.
  intros H. unfold take_at. apply mapM_total. intros i Hi. by rewrite (H i Hi).
Qed.

Lemma fancy_index_total (matrix : Matrix) (rows : list nat) (cols : list (list nat))
    (f : nat → nat → Q) :
  (∀ crow rc, crow ∈ cols → rc ∈ zip rows crow → entry matrix rc.1 rc.2 = Some (f rc.1 rc.2)) →
  fancy_index matrix rows cols =
  inr (map (λ crow, map (λ rc : nat * nat, f rc.1 rc.2) (zip rows crow)) cols).
Proof.
  intros H. unfold fancy_index. apply mapM_total. intros crow Hcrow.
  apply mapM_total. intros rc Hrc. specialize (H crow rc Hcrow Hrc).
  unfold entry in H. by rewrite H.
Qed.

Lemma update_block_square (op : Q → Q) (r0 r1 c0 c1 n : nat) (matrix : Matrix) :
  square n matrix → square n (update_block op r0 r1 c0 c1 matrix).
Proof.
  intros [Hlen Hrows]. unfold update_block, square, Matrix in *.
  split; [by rewrite length_imap|].
  apply Forall_lookup. intros i row. rewrite list_lookup_imap.
  destruct (matrix !! i) as [row0|] eqn:Hi; simpl; [|done]. intros [= <-].
  rewrite length_imap. by eapply (Forall_lookup_1 _ _ _ _ Hrows).
Qed.

Lemma tilt_in_place_square (n : nat) (matrix : Matrix) (s : nat) (t : Q) :
  square n matrix → square n (tilt_in_place matrix s t).
Proof. intros H. unfold tilt_in_place. by do 2 apply update_block_square. Qed.

Lemma square_entry (n : nat) (matrix : Matrix) (i j : nat) :
  square n matrix → (i < n)%nat → (j < n)%nat → is_Some (entry matrix i j).
Proof.
  intros [Hlen Hrows] Hi Hj. unfold entry, Matrix in *.
  destruct (lookup_lt_is_Some_2 matrix i) as [row Hrow]; [lia|]. rewrite Hrow. simpl.
  apply lookup_lt_is_Some. by rewrite (Forall_lookup_1 _ _ _ _ Hrows Hrow).
Qed.

(** The index arithmetic of [circulant(invrange)[invrange]]. *)
Lemma circulant_invrange_index (n k j : nat) :
  (k < n)%nat → (j < n)%nat →
  (n - 1 - (n - 1 - k + n - j) mod n = (k + j) mod n)%nat.
Proof.
  intros Hk Hj. destruct (Nat.lt_ge_cases (k + j) n) as [Hlt|Hge].
  - rewrite (Nat.mod_small (k + j)) by done.
    replace (n - 1 - k + n - j)%nat with ((n - 1 - k - j) + 1 * n)%nat by lia.
    rewrite Nat.Div0.mod_add, Nat.mod_small; lia.
  - replace (k + j)%nat with ((k + j - n) + 1 * n)%nat at 1 by lia.
    rewrite Nat.Div0.mod_add, (Nat.mod_small (k + j - n)) by lia.
    rewrite Nat.mod_small; lia.
Qed.

Lemma tilted_columns (n : nat) :
  take_at (map (λ k, n - 1 - k)%nat (seq 0 n))
          (circulant (map (λ k, n - 1 - k)%nat (seq 0 n))) =
  inr (map (λ k, map (λ j, ((k + j) mod n)%nat) (seq 0 n)) (seq 0 n)).
Proof.
  set (invrange := map (λ k, n - 1 - k)%nat (seq 0 n)).
  assert (Hlen : length invrange = n) by (unfold invrange; by rewrite length_map, length_seq).
  rewrite (take_at_total
             (λ i, map (λ j, nth ((i + n - j) mod n) invrange 0%nat) (seq 0 n))).
  2:{ intros i (k & -> & Hk%elem_of_seq)%list_elem_of_fmap. unfold circulant.
      rewrite Hlen, list_lookup_fmap, lookup_seq_lt by lia. done. }
  f_equal. unfold invrange at 2. rewrite map_map. apply map_ext_in.
  intros k Hk%list_elem_of_In%elem_of_seq. apply map_ext_in.
  intros j Hj%list_elem_of_In%elem_of_seq.
  assert (Hm : ((n - 1 - k + n - j) mod n < n)%nat) by (apply Nat.mod_upper_bound; lia).
  unfold invrange.
  rewrite (nth_indep _ 0%nat (n - 1 - 0)%nat) by (by rewrite length_map, length_seq).
  rewrite (map_nth (λ k, n - 1 - k)%nat), seq_nth by done. simpl.
  apply circulant_invrange_index; lia.
Qed.

(** [_tilt_slice_matrix] on a square matrix: success, the shape of the
    slice and every entry of it. *)
Lemma tilt_slice_matrix_on_square
    (n : nat) (matrix : Matrix) (slice_shift slice_width : nat) (tune : Q) :
  square n matrix →
  ∃ tilted,
    _tilt_slice_matrix matrix slice_shift slice_width tune =
      inr (tilted, tilt_in_place matrix slice_shift tune) ∧
    length tilted = (slice_width `min` n)%nat ∧
    Forall (λ row, length row = n) tilted ∧
    ∀ r j, (r < slice_width `min` n)%nat → (j < n)%nat →
      entry tilted r j =
      entry (tilt_in_place matrix slice_shift tune) j
            ((Z.to_nat ((Z.of_nat r - Z.of_nat slice_shift) `mod` Z.of_nat n) + j) mod n).
Proof.
  intros Hsq. pose proof (tilt_in_place_square n matrix slice_shift tune Hsq) as Hsq'.
  set (matrix' := tilt_in_place matrix slice_shift tune) in *.
  assert (Hn : shape0 matrix = n) by apply Hsq.
  unfold _tilt_slice_matrix. fold matrix'. rewrite Hn.
  rewrite tilted_columns. simpl.
  set (f := λ i j : nat, default 0 (entry matrix' i j)).
  set (cols := map (λ k, map (λ j, ((k + j) mod n)%nat) (seq 0 n)) (seq 0 n)).
  assert (Hzip : ∀ k, zip (seq 0 n) (map (λ j, ((k + j) mod n)%nat) (seq 0 n)) =
                      map (λ j, (j, ((k + j) mod n)%nat)) (seq 0 n)).
  { intros k. generalize (seq 0 n). intros l. induction l; simpl; [done | by f_equal]. }
  rewrite (fancy_index_total matrix' (seq 0 n) cols f).
  2:{ intros crow [i c] (k & -> & Hk%elem_of_seq)%list_elem_of_fmap. rewrite Hzip.
      intros (j & [= -> ->] & Hj%elem_of_seq)%list_elem_of_fmap. simpl. unfold f.
      destruct (square_entry n matrix' j ((k + j) mod n)) as [x ->]; try done; try lia.
      apply Nat.mod_upper_bound. lia. }
  simpl. eexists. split; [reflexivity|].
  set (raw := map (λ crow, map (λ rc : nat * nat, f rc.1 rc.2) (zip (seq 0 n) crow)) cols).
  assert (Hraw : length raw = n) by (unfold raw, cols; by rewrite !length_map, length_seq).
  assert (Hrow : ∀ k, (k < n)%nat →
            raw !! k = Some (map (λ j, f j ((k + j) mod n)%nat) (seq 0 n))).
  { intros k Hk. unfold raw, cols.
    rewrite list_lookup_fmap, list_lookup_fmap, lookup_seq_lt by done. simpl.
    by rewrite Hzip, map_map. }
  split; [by rewrite length_take, np_roll_length, Hraw|]. split.
  - apply Forall_lookup. intros r row Hr. unfold Matrix in *.
    pose proof (lookup_lt_Some _ _ _ Hr) as Hlt.
    rewrite length_take, np_roll_length, Hraw in Hlt.
    rewrite lookup_take_lt in Hr by lia. rewrite np_roll_lookup in Hr by lia.
    rewrite Hraw, Hrow in Hr.
    + injection Hr as <-. by rewrite length_map, length_seq.
    + pose proof (Z.mod_pos_bound (Z.of_nat r - Z.of_nat slice_shift) (Z.of_nat n)). lia.
  - intros r j Hr Hj. unfold entry at 1. unfold Matrix in *.
    rewrite lookup_take_lt by lia. rewrite np_roll_lookup by lia. rewrite Hraw.
    set (k := Z.to_nat ((Z.of_nat r - Z.of_nat slice_shift) `mod` Z.of_nat n)).
    assert (Hk : (k < n)%nat).
    { unfold k.
      pose proof (Z.mod_pos_bound (Z.of_nat r - Z.of_nat slice_shift) (Z.of_nat n)). lia. }
    rewrite Hrow by done. simpl.
    rewrite list_lookup_fmap, lookup_seq_lt by done. simpl. unfold f.
    assert (Hm : ((k + j) mod n < n)%nat) by (apply Nat.mod_upper_bound; lia).
    destruct (square_entry n matrix' j ((k + j) mod n)) as [x Hx]; try done.
    by rewrite Hx.
Qed.

(** X9.  On a square matrix [_tilt_slice_matrix] raises nothing.  Row
    [r] of what it returns is a wrapped diagonal of the array as the two
    in-place statements leave it: its entry [j] is the entry of row [j] in
    column [(k + j) mod n], with [k = (r - slice_shift) mod n]; there are
    [min(slice_width, n)] such rows. *)
Theorem tilt_slice_matrix_diagonals
    (n : nat) (matrix : Matrix) (slice_shift slice_width : nat) (tune : Q) :
  square n matrix →
  ∃ tilted,
    _tilt_slice_matrix matrix slice_shift slice_width tune =
      inr (tilted, tilt_in_place matrix slice_shift tune) ∧
    length tilted = (slice_width `min` n)%nat ∧
    ∀ r j, (r < slice_width `min` n)%nat → (j < n)%nat →
      entry tilted r j =
      entry (tilt_in_place matrix slice_shift tune) j
            ((Z.to_nat ((Z.of_nat r - Z.of_nat slice_shift) `mod` Z.of_nat n) + j) mod n).
Proof.
  intros Hsq.
  destruct (tilt_slice_matrix_on_square n matrix slice_shift slice_width tune Hsq)
    as (tilted & Hrun & Hlen & _ & Hentry).
  by exists tilted.
Qed.

Lemma tilt_slice_matrix_diagonals_witness :
  ∃ tilted,
    _tilt_slice_matrix (ring_phase (8 # 100)) 2 5 (32 # 100) =
      inr (tilted, tilt_in_place (ring_phase (8 # 100)) 2 (32 # 100)) ∧
    length tilted = 4%nat ∧
    entry tilted 3 0 = entry (tilt_in_place (ring_phase (8 # 100)) 2 (32 # 100)) 0 1.
Proof.
  destruct (tilt_slice_matrix_diagonals 4 (ring_phase (8 # 100)) 2 5 (32 # 100))
    as (tilted & Hrun & Hlen & Hentry).
  - split; [reflexivity | repeat constructor].
  - exists tilted. split; [done|]. split; [done|]. apply (Hentry 3%nat 0%nat); simpl; lia.
Defined.

(** The shape of a slice of five diagonals of a square matrix. *)
Lemma tilted_shape (n : nat) (tilted : Matrix) :
  length tilted = (5 `min` n)%nat → Forall (λ row, length row = n) tilted →
  shape tilted = ((5 `min` n)%nat, n).
Proof.
  intros Hlen Hrows. unfold shape, shape0, shape1. rewrite Hlen. f_equal.
  destruct tilted as [|row rows]; [cbn [length] in Hlen; lia|].
  by apply Forall_cons in Hrows as [? _].
Qed.

(** What the formulas raise on three slices of one shape. *)
Lemma formula_shapes_square (r n rows : nat) :
  (4 ≤ n)%nat →
  formula_shapes (r, n) (r, n) (r, n) rows =
  if (r <? 4)%nat then inl IndexError
  else if Nat.eqb n rows then inr ()
  else inl ValueError.
Proof.
  intros Hn4.
  assert (Hn1 : Nat.eqb n 1 = false) by (apply Nat.eqb_neq; lia).
  unfold formula_shapes, row_shape, broadcast2, broadcast, assign_shape. cbn [fst snd].
  destruct r as [|[|[|[|r]]]]; try (simpl; rewrite ?Nat.eqb_refl; reflexivity).
  destruct (Nat.eqb n rows) eqn:Hnr.
  - apply Nat.eqb_eq in Hnr as <-.
    repeat (simpl; rewrite ?Nat.eqb_refl, ?Hn1). reflexivity.
  - destruct (Nat.eqb rows 1) eqn:Hr1.
    + apply Nat.eqb_eq in Hr1 as ->.
      repeat (simpl; rewrite ?Nat.eqb_refl, ?Hn1, ?Hnr). reflexivity.
    + repeat (simpl; rewrite ?Nat.eqb_refl, ?Hn1, ?Hnr, ?Hr1). reflexivity.
Qed.

Lemma formula_shapes_few (n rows : nat) :
  (n < 4)%nat →
  formula_shapes ((5 `min` n)%nat, n) ((5 `min` n)%nat, n) ((5 `min` n)%nat, n) rows =
  inl IndexError.
Proof. intros Hn. destruct n as [|[|[|[|n]]]]; [reflexivity.. | lia]. Qed.

(** X10.  [three_bpm_method] on square phase matrices of one size [n]
    needs four BPMs and one skeleton row per BPM.  With [n >= 4] and [n]
    rows in [beta_df] it raises nothing, and the formulas receive, for each
    of MEAS, MODEL and ERRMEAS, a slice of [min(5, n)] wrapped diagonals.
    With fewer than four BPMs the formulas index a row the slices do not
    have, an [IndexError]; with four or more BPMs and another number of rows
    in [beta_df] the arrays do not fit, a [ValueError]. *)
Theorem three_bpm_method_needs_four_bpms
    (W : World) (phase : Phase) (tune mdltune : Q) (beta_df : list (Q * Q)) (n : nat) :
  square n (MEAS phase) → square n (MODEL phase) → square n (ERRMEAS phase) →
  ((4 ≤ n)%nat → length beta_df = n →
   ∃ tilted_meas tilted_model tilted_errmeas phase',
     three_bpm_method W phase (tune, mdltune) beta_df =
       inr (cot_formulas W tilted_meas tilted_model tilted_errmeas tune mdltune beta_df,
            phase') ∧
     length tilted_meas = (5 `min` n)%nat ∧ length tilted_model = (5 `min` n)%nat ∧
     length tilted_errmeas = (5 `min` n)%nat) ∧
  ((n < 4)%nat → three_bpm_method W phase (tune, mdltune) beta_df = inl IndexError) ∧
  ((4 ≤ n)%nat → length beta_df ≠ n →
   three_bpm_method W phase (tune, mdltune) beta_df = inl ValueError).
Proof.
  intros H1 H2 H3. unfold three_bpm_method.
  destruct (tilt_slice_matrix_on_square n _ 2 5 tune H1) as (t1 & -> & Hl1 & Hr1 & _).
  destruct (tilt_slice_matrix_on_square n _ 2 5 mdltune H2) as (t2 & -> & Hl2 & Hr2 & _).
  destruct (tilt_slice_matrix_on_square n _ 2 5 mdltune H3) as (t3 & -> & Hl3 & Hr3 & _).
  cbn [mbind mret]. simpl.
  rewrite (tilted_shape n t1), (tilted_shape n t2), (tilted_shape n t3) by done.
  split; [|split].
  - intros Hn Hrows. rewrite formula_shapes_square by done.
    assert (Hr : (5 `min` n <? 4)%nat = false) by (apply Nat.ltb_ge; lia).
    rewrite Hr, Hrows, Nat.eqb_refl. simpl. eauto 10.
  - intros Hn. by rewrite formula_shapes_few.
  - intros Hn Hrows. rewrite formula_shapes_square by done.
    assert (Hr : (5 `min` n <? 4)%nat = false) by (apply Nat.ltb_ge; lia).
    assert (Hne : Nat.eqb n (length beta_df) = false) by (apply Nat.eqb_neq; congruence).
    by rewrite Hr, Hne.
Qed.

Lemma three_bpm_method_needs_four_bpms_witness :
  (∃ tilted_meas tilted_model tilted_errmeas phase',
     three_bpm_method demo_world demo_phase (32 # 100, 31 # 100)
       [(100, 1); (50, - 1); (100, 1); (50, - 1)] =
       inr (cot_formulas demo_world tilted_meas tilted_model tilted_errmeas
              (32 # 100) (31 # 100) [(100, 1); (50, - 1); (100, 1); (50, - 1)], phase') ∧
     length tilted_meas = 4%nat ∧ length tilted_model = 4%nat ∧
     length tilted_errmeas = 4%nat) ∧
  three_bpm_method demo_world demo_phase (32 # 100, 31 # 100) [(100, 1); (50, - 1)] =
    inl ValueError.
Proof.
  assert (Hsq : ∀ step, square 4 (ring_phase step)).
  { intros step. split; [reflexivity | repeat constructor]. }
  split.
  - apply (three_bpm_method_needs_four_bpms demo_world demo_phase (32 # 100) (31 # 100)
             [(100, 1); (50, - 1); (100, 1); (50, - 1)] 4 (Hsq _) (Hsq _) (Hsq _));
      [lia | reflexivity].
  - apply (three_bpm_method_needs_four_bpms demo_world demo_phase (32 # 100) (31 # 100)
             [(100, 1); (50, - 1)] 4 (Hsq _) (Hsq _) (Hsq _)); [lia | simpl; lia].
Defined.
End tilt.

Section weighting.
Import BetaFromPhase.
Local Open Scope Q_scope.
Context (W : World).

Lemma dot_constant (wb col : list Q) (b : Q) :
  length wb = length col → Forall (λ x, x == b) col → dot wb col == Qsum wb * b.
Proof.
  unfold dot, Qsum. revert col. induction wb as [|w wb IH]; intros [|x col] Hlen Hall;
    simpl in *; try discriminate; [lra|].
  apply Forall_cons in Hall as [Hx Hall]. rewrite (IH col) by (done || lia).
  rewrite Hx. lra.
Qed.

(** X11.  [_covariant_weighting] normalises its weights: when all
    candidate estimates are the same value, and the weights do not sum to
    zero, the value it returns is that value, whatever the covariance. *)
Theorem covariant_weighting_of_equal_estimates (mat : Matrix) (col : list Q) (b : Q) :
  length (pinv W mat) = length col →
  Forall (λ x, x == b) col →
  ¬ Qsum (map Qsum (pinv W mat)) == 0 →
  ∃ est err, _covariant_weighting W mat col = inr (est, err) ∧ est == b.
Proof.
  intros Hlen Hall Hsum. unfold _covariant_weighting.
  destruct (Qeq_bool (Qsum (map Qsum (pinv W mat))) 0) eqn:E;
    [by apply Qeq_bool_iff in E|].
  simpl. do 2 eexists. split; [reflexivity|].
  rewrite (dot_constant _ col b) by (by rewrite ?length_map). by field.
Qed.

Lemma probe_bpm_row (p : Probe) (r : BetaRow) :
  probe_bpm W p = inr r →
  NAME r = probed_bpm_name p ∧
  ((0 < NCOMB r)%nat →
   NCOMB r = length (betas p) ∧
   np_any (covariance (mat_t_beta p) (diag p)) &&
   np_any (covariance (mat_t_alpha p) (diag p)) = true).
Proof.
  unfold probe_bpm. destruct (_ && _).
  - intros H. inv_bind H. by injection H as <-.
  - intros [= <-]. simpl. split; [done | lia].
Qed.

(** X12.  The table [n_bpm_method] returns lists BPMs in the order of
    the model, each at most once per probe; every row has [NCOMB > 0], and
    its [NCOMB] is the number of BPM pairs retained for its BPM, whose two
    covariance matrices are not all zero. *)
Theorem n_bpm_method_rows (probes : list Probe) (rows : list BetaRow) :
  n_bpm_method W probes = inr rows →
  map NAME rows `sublist_of` map probed_bpm_name probes ∧
  ∀ r, r ∈ rows →
    (0 < NCOMB r)%nat ∧
    ∃ p, p ∈ probes ∧ NAME r = probed_bpm_name p ∧ NCOMB r = length (betas p) ∧
         np_any (covariance (mat_t_beta p) (diag p)) &&
         np_any (covariance (mat_t_alpha p) (diag p)) = true.
Proof.
  unfold n_bpm_method. intros H. inv_bind H. injection H as <-.
  apply mapM_inr in E. split.
  - induction E as [|p r probes rows Hp _ IH]; simpl; [done|].
    apply probe_bpm_row in Hp as [Hname _].
    destruct (0 <? NCOMB r)%nat; simpl; rewrite <- Hname.
    + by apply sublist_skip.
    + by apply sublist_cons.
  - intros r [Hr Hn]%elem_of_filter_bool. apply Nat.ltb_lt in Hn. split; [done|].
    induction E as [|p r' probes rows Hp _ IH]; [by apply elem_of_nil in Hr|].
    apply elem_of_cons in Hr as [->|Hr].
    + apply probe_bpm_row in Hp as [Hname Hcomb]. destruct (Hcomb Hn) as [Hc Hany].
      exists p. split; [by left | done].
    + destruct (IH Hr) as (p' & Hp' & Hrest). exists p'. split; [by right | done].
Qed.
End weighting.

Section weighting_examples.
Import BetaFromPhase.
Local Open Scope Q_scope.

Lemma covariant_weighting_of_equal_estimates_witness :
  ∃ est err,
    _covariant_weighting demo_world [[2; 0]; [0; 4]] [100; 100] = inr (est, err) ∧ est == 100.
Proof.
  apply (covariant_weighting_of_equal_estimates demo_world [[2; 0]; [0; 4]] [100; 100] 100).
  - reflexivity.
  - repeat constructor.
  - intros Heq. vm_compute in Heq. discriminate.
Defined.

Lemma n_bpm_method_rows_witness :
  ∃ rows,
    n_bpm_method demo_world
      [empty_probe;
       {| probed_bpm_name := "BPM.3"; betas := [100; 102]; alphas := [1 # 2; 1 # 3];
          mat_t_beta := [[1; 0]; [0; 1]]; mat_t_alpha := [[1; 0]; [0; 1]];
          diag := [1; 1] |}] = inr rows ∧
    map NAME rows = ["BPM.3"%string] ∧
    ∀ r, r ∈ rows → (0 < NCOMB r)%nat.
Proof.
  eexists. split; [vm_compute; reflexivity|]. split; [reflexivity|].
  intros r Hr.
  eapply (n_bpm_method_rows demo_world
            [empty_probe;
             {| probed_bpm_name := "BPM.3"; betas := [100; 102]; alphas := [1 # 2; 1 # 3];
                mat_t_beta := [[1; 0]; [0; 1]]; mat_t_alpha := [[1; 0]; [0; 1]];
                diag := [1; 1] |}]); [vm_compute; reflexivity | exact Hr].
Defined.
End weighting_examples.

Section uncertainties_more.
Import BetaFromPhase.
Local Open Scope Q_scope.
Context (W : World).

Lemma selects_names (t1 t2 : list Element) (d : ErrDef) (i : nat) :
  map name t1 = map name t2 → selects W t1 d i = selects W t2 d i.
Proof. intros Hn. unfold selects. by rewrite (pattern_mask_names W _ t1 t2 Hn). Qed.

Lemma assign_def_lookup (t t' : list Element) (d : ErrDef) (i : nat) (e : Element) :
  assign_def W t d = inr t' → t !! i = Some e →
  t' !! i = Some (if selects W t d i then assign_row d e else e).
Proof.
  unfold assign_def, selects. intros H He. inv_bind H. injection H as <-.
  rewrite E. pose proof (pattern_mask_length W _ _ _ E) as Hlen.
  destruct (lookup_lt_is_Some_2 a i) as [m Hm].
  { rewrite Hlen. by eapply lookup_lt_Some. }
  rewrite lookup_zip_with, Hm, He. simpl. by destruct m.
Qed.

Lemma assign_def_length (t t' : list Element) (d : ErrDef) :
  assign_def W t d = inr t' → length t' = length t.
Proof.
  intros H. apply assign_def_names in H.
  by rewrite <- (length_map name t'), H, length_map.
Qed.

(** After the loop over the definitions a row carries the flag exactly
    when it had it before or some definition selects it. *)
Lemma assign_loop_flag (errdefs : list ErrDef) (t t' : list Element) (i : nat) (e : Element) :
  assign_loop W errdefs t = inr t' → t !! i = Some e →
  ∃ e', t' !! i = Some e' ∧ name e' = name e ∧ K1L e' = K1L e ∧ mKdS e' = mKdS e ∧
        (UNC e' = true ↔ UNC e = true ∨ ∃ d, d ∈ errdefs ∧ selects W t d i = true) ∧
        ((∀ d, d ∈ errdefs → selects W t d i = false) → e' = e).
Proof.
  revert t e. induction errdefs as [|d errdefs IH]; intros t e H He; simpl in H.
  - injection H as <-. exists e. repeat split; try done.
    + by left.
    + intros [?|(d & Hd%elem_of_nil & _)]; done.
  - inv_bind H. pose proof (assign_def_lookup _ _ _ _ _ E He) as He1.
    destruct (IH _ _ H He1) as (e' & He' & Hn & Hk & Hm & Hflag & Hsame).
    assert (Hnames : map name a = map name t) by (by eapply assign_def_names).
    exists e'. split; [done|].
    destruct (selects W t d i) eqn:Hsel.
    + destruct (assign_row_fields d e) as (Hn1 & Hk1 & _ & Hu1).
      assert (Hm1 : mKdS (assign_row d e) = mKdS e).
      { unfold assign_row. by destruct (String.eqb (MAINFIELD d) "BPM"). }
      repeat split; try congruence.
      * intros _. right. exists d. split; [by left | done].
      * intros _. apply Hflag. by left.
      * intros Hnone. assert (Hd : d ∈ d :: errdefs) by (by left).
        specialize (Hnone d Hd). congruence.
    + repeat split; try done.
      * intros [Hu|(d' & Hd' & Hs)]%Hflag; [by left|]. right. exists d'.
        split; [by right|]. by rewrite <- (selects_names a t).
      * intros [Hu|(d' & [->|Hd']%elem_of_cons & Hs)]; apply Hflag.
        -- by left.
        -- congruence.
        -- right. exists d'. split; [done|]. by rewrite (selects_names a t).
      * intros Hnone. apply Hsame. intros d' Hd'.
        rewrite (selects_names a t) by done. apply Hnone. by right.
Qed.

Lemma assign_loop_length (errdefs : list ErrDef) (t t' : list Element) :
  assign_loop W errdefs t = inr t' → length t' = length t.
Proof.
  intros H. apply assign_loop_names in H.
  by rewrite <- (length_map name t'), H, length_map.
Qed.

Lemma roll_zip_lookup {A : Type} (g : Q → A → A) (proj : A → Q) (shift : Z)
    (t : list A) (i : nat) (e : A) :
  t !! i = Some e →
  ∃ nb, t !! Z.to_nat ((Z.of_nat i - shift) `mod` Z.of_nat (length t)) = Some nb ∧
        zip_with g (np_roll shift (map proj t)) t !! i = Some (g (proj nb) e).
Proof.
  intros He. pose proof (lookup_lt_Some _ _ _ He) as Hi.
  destruct (lookup_lt_is_Some_2 t
              (Z.to_nat ((Z.of_nat i - shift) `mod` Z.of_nat (length t)))) as [nb Hnb].
  { pose proof (Z.mod_pos_bound (Z.of_nat i - shift) (Z.of_nat (length t))). lia. }
  exists nb. split; [done|].
  rewrite lookup_zip_with, np_roll_lookup by (by rewrite length_map).
  by rewrite length_map, list_lookup_fmap, Hnb, He.
Qed.

(** X13.  What [_assign_uncertainties] does between neighbours.  Its
    result is the rows flagged UNC of a table [full] with one row per
    element, in lattice order, names and K1L untouched.  In [full], the
    mKdS of a row is the KdS of the row before it, and a row is flagged
    exactly when some error definition selects it or the dK1 of the row
    after it exceeds 1e-12 in absolute value; before and after wrap around
    the ends of the table. *)
Theorem assign_uncertainties_neighbours
    (twiss_full : list (string * Q)) (errdefs : list ErrDef) (out : list Element) :
  _assign_uncertainties W twiss_full errdefs = inr out →
  ∃ full,
    out = List.filter UNC full ∧
    map (λ e, (name e, K1L e)) full = twiss_full ∧
    ∀ i e, full !! i = Some e →
      (∃ before, full !! Z.to_nat ((Z.of_nat i - 1) `mod` Z.of_nat (length full)) = Some before ∧
                 mKdS e = KdS before) ∧
      (∃ after, full !! Z.to_nat ((Z.of_nat i + 1) `mod` Z.of_nat (length full)) = Some after ∧
                (UNC e = true ↔
                 (∃ d, d ∈ errdefs ∧ selects W (assign_columns twiss_full) d i = true) ∨
                 1 # 1000000000000 < Qabs (dK1 after))).
Proof.
  unfold _assign_uncertainties. intros H. inv_bind H. injection H as <-.
  set (t0 := assign_columns twiss_full) in *.
  set (t2 := zip_with set_mKdS (np_roll 1 (map KdS a)) a).
  set (full := zip_with (λ next e, set_UNC (abs_gt next (1 # 1000000000000) || UNC e) e)
                 (np_roll (-1) (map dK1 t2)) t2).
  pose proof (assign_loop_length _ _ _ E) as Hla.
  assert (Hl2 : length t2 = length a).
  { unfold t2. rewrite length_zip_with, np_roll_length, length_map. lia. }
  assert (Hlf : length full = length a).
  { unfold full. rewrite length_zip_with, np_roll_length, length_map. lia. }
  assert (Hrow : ∀ i e, full !! i = Some e →
            ∃ e1 p1 n1,
              a !! i = Some e1 ∧
              a !! Z.to_nat ((Z.of_nat i - 1) `mod` Z.of_nat (length a)) = Some p1 ∧
              a !! Z.to_nat ((Z.of_nat i + 1) `mod` Z.of_nat (length a)) = Some n1 ∧
              e = set_UNC (abs_gt (dK1 n1) (1 # 1000000000000) || UNC e1)
                    (set_mKdS (KdS p1) e1)).
  { intros i e He. pose proof (lookup_lt_Some _ _ _ He) as Hi. rewrite Hlf in Hi.
    destruct (lookup_lt_is_Some_2 a i Hi) as [e1 He1].
    destruct (roll_zip_lookup set_mKdS KdS 1 a i e1 He1) as (p1 & Hp1 & Ht2). fold t2 in Ht2.
    destruct (roll_zip_lookup
                (λ next e, set_UNC (abs_gt next (1 # 1000000000000) || UNC e) e)
                dK1 (-1) t2 i _ Ht2) as (n2 & Hn2 & Hfull).
    fold full in Hfull. rewrite He in Hfull. injection Hfull as ->.
    rewrite Hl2 in Hn2. replace (Z.of_nat i - -1)%Z with (Z.of_nat i + 1)%Z in Hn2 by lia.
    set (j := Z.to_nat ((Z.of_nat i + 1) `mod` Z.of_nat (length a))) in *.
    assert (Hj : (j < length a)%nat) by (rewrite <- Hl2; by eapply lookup_lt_Some).
    destruct (lookup_lt_is_Some_2 a j Hj) as [n1 Hn1].
    destruct (roll_zip_lookup set_mKdS KdS 1 a j n1 Hn1) as (q & _ & Hn2').
    fold t2 in Hn2'. rewrite Hn2 in Hn2'. injection Hn2' as ->.
    exists e1, p1, n1. by repeat split. }
  exists full. split; [done|]. split.
  - apply list_eq. intros i. rewrite list_lookup_fmap.
    destruct (full !! i) as [e|] eqn:He; simpl.
    + destruct (Hrow i e He) as (e1 & p1 & n1 & He1 & _ & _ & ->). simpl.
      destruct (lookup_lt_is_Some_2 t0 i) as [e0 He0].
      { rewrite <- Hla. by eapply lookup_lt_Some. }
      destruct (assign_loop_flag _ _ _ _ _ E He0) as (e1' & He1' & Hn & Hk & _).
      rewrite He1 in He1'. injection He1' as <-. rewrite Hn, Hk.
      unfold t0, assign_columns in He0. rewrite list_lookup_fmap in He0.
      destruct (twiss_full !! i) as [[nm k]|]; simpl in He0; [|done].
      by injection He0 as <-.
    + apply lookup_ge_None in He. symmetry. apply lookup_ge_None.
      rewrite Hlf, Hla in He. unfold t0, assign_columns in He. by rewrite length_map in He.
  - intros i e He. destruct (Hrow i e He) as (e1 & p1 & n1 & He1 & Hp1 & Hn1 & ->).
    rewrite Hlf.
    assert (Hnb : ∀ j x, a !! j = Some x → ∃ y, full !! j = Some y ∧ KdS y = KdS x ∧ dK1 y = dK1 x).
    { intros j x Hx. destruct (lookup_lt_is_Some_2 full j) as [y Hy].
      { rewrite Hlf. by eapply lookup_lt_Some. }
      destruct (Hrow j y Hy) as (x' & ? & ? & Hx' & _ & _ & ->).
      rewrite Hx in Hx'. injection Hx' as <-. eauto. }
    split.
    + destruct (Hnb _ _ Hp1) as (y & Hy & Hk & _). exists y. split; [done|]. by rewrite Hk.
    + destruct (Hnb _ _ Hn1) as (y & Hy & _ & Hd). exists y. split; [done|].
      rewrite Hd. simpl. rewrite orb_true_iff, abs_gt_spec.
      destruct (lookup_lt_is_Some_2 t0 i) as [e0 He0].
      { rewrite <- Hla. by eapply lookup_lt_Some. }
      destruct (assign_loop_flag _ _ _ _ _ E He0) as (e1' & He1' & _ & _ & _ & Hflag & _).
      rewrite He1 in He1'. injection He1' as <-. rewrite Hflag.
      assert (Hu0 : UNC e0 = false).
      { unfold t0, assign_columns in He0. rewrite list_lookup_fmap in He0.
        destruct (twiss_full !! i); simpl in He0; [|done]. by injection He0 as <-. }
      rewrite Hu0. intuition discriminate.
Qed.

Lemma np_roll_constant {A B : Type} (shift : Z) (c : B) (l : list A) :
  np_roll shift (map (λ _, c) l) = map (λ _, c) l.
Proof.
  apply list_eq. intros i. destruct (decide (i < length l)%nat) as [Hi|Hi].
  - rewrite np_roll_lookup by (by rewrite length_map). rewrite length_map, !list_lookup_fmap.
    destruct (lookup_lt_is_Some_2 l i Hi) as [x ->].
    destruct (lookup_lt_is_Some_2 l
                (Z.to_nat ((Z.of_nat i - shift) `mod` Z.of_nat (length l)))) as [y ->]; [|done].
    pose proof (Z.mod_pos_bound (Z.of_nat i - shift) (Z.of_nat (length l))). lia.
  - rewrite !(proj2 (lookup_ge_None _ _)); [done | |]; rewrite ?np_roll_length, length_map; lia.
Qed.

Lemma assign_loop_without_selection (errdefs : list ErrDef) (t t' : list Element) :
  assign_loop W errdefs t = inr t' →
  (∀ d i, d ∈ errdefs → selects W t d i = false) → t' = t.
Proof.
  intros H Hnone. apply list_eq. intros i.
  destruct (t !! i) as [e|] eqn:He.
  - destruct (assign_loop_flag _ _ _ _ _ H He) as (e' & -> & _ & _ & _ & _ & Hsame).
    f_equal. apply Hsame. intros d Hd. by apply Hnone.
  - apply lookup_ge_None. apply lookup_ge_None in He.
    by rewrite (assign_loop_length _ _ _ H).
Qed.

(** X14.  When no error definition selects any element,
    [_assign_uncertainties] returns an empty table: no row is flagged and no
    row has a neighbour with a field error. *)
Theorem assign_uncertainties_without_selection
    (twiss_full : list (string * Q)) (errdefs : list ErrDef) (out : list Element) :
  _assign_uncertainties W twiss_full errdefs = inr out →
  (∀ d i, d ∈ errdefs → selects W (assign_columns twiss_full) d i = false) →
  out = [].
Proof.
  unfold _assign_uncertainties. intros H Hnone. inv_bind H. injection H as <-.
  apply assign_loop_without_selection in E; [|done]. subst a.
  unfold assign_columns. rewrite !map_map. simpl. rewrite np_roll_constant.
  assert (H1 : zip_with set_mKdS (map (λ _ : string * Q, 0) twiss_full)
                 (map (λ e : string * Q,
                         {| name := e.1; K1L := e.2; UNC := false;
                            dK1 := 0; KdS := 0; mKdS := 0; dX := 0; BPMdS := 0 |}) twiss_full) =
               map (λ e : string * Q,
                      {| name := e.1; K1L := e.2; UNC := false;
                         dK1 := 0; KdS := 0; mKdS := 0; dX := 0; BPMdS := 0 |}) twiss_full).
  { clear Hnone. induction twiss_full as [|x l IH]; simpl; [done | by f_equal]. }
  rewrite H1, !map_map. simpl. rewrite np_roll_constant.
  clear Hnone H1. induction twiss_full as [|x l IH]; simpl; [done | apply IH].
Qed.
End uncertainties_more.

Section uncertainties_examples.
Import BetaFromPhase.
Local Open Scope Q_scope.

Lemma assign_uncertainties_neighbours_witness :
  ∃ out full,
    _assign_uncertainties demo_world overlap_lattice [overlap_quads] = inr out ∧
    out = List.filter UNC full ∧
    map (λ e, (name e, K1L e)) full = overlap_lattice.
Proof.
  destruct (_assign_uncertainties demo_world overlap_lattice [overlap_quads])
    as [e|out] eqn:Hrun; [vm_compute in Hrun; discriminate|].
  destruct (assign_uncertainties_neighbours demo_world _ _ out Hrun)
    as (full & Hout & Hnames & _).
  by exists out, full.
Defined.

Lemma assign_uncertainties_without_selection_witness :
  _assign_uncertainties demo_world overlap_lattice
    [{| PATTERN := "MB"; MAINFIELD := "QUAD"; def_dK1 := 1 # 10; def_dX := 1;
        def_dS := 1 # 100 |}] = inr [].
Proof.
  destruct (_assign_uncertainties demo_world overlap_lattice
              [{| PATTERN := "MB"; MAINFIELD := "QUAD"; def_dK1 := 1 # 10; def_dX := 1;
                  def_dS := 1 # 100 |}]) as [e|out] eqn:Hrun;
    [vm_compute in Hrun; discriminate|].
  f_equal. apply (assign_uncertainties_without_selection demo_world _ _ out Hrun).
  intros d i ->%list_elem_of_singleton.
  destruct i as [|[|[|i]]]; vm_compute; reflexivity.
Defined.
End uncertainties_examples.

(** ** kmod/kmod_analysis.py: further properties *)

Section kmod_more.
Import KmodAnalysis.
Local Open Scope R_scope.

Lemma odd_entries_pairs {A : Type} (z : A) (a b : nat → A) (l : list nat) :
  odd_entries (z :: flat_map (λ i, [a i; b i]) l) = map a l.
Proof.
  revert z. induction l as [|i l IH]; intros z; [done|].
  cbn [flat_map app map odd_entries]. f_equal. apply (IH (b i)).
Qed.

Lemma length_flat_map_pairs {A : Type} (a b : nat → A) (l : list nat) :
  length (flat_map (λ i, [a i; b i]) l) = (2 * length l)%nat.
Proof. induction l as [|i l IH]; simpl; [done|]. rewrite IH. lia. Qed.

(** X15.  The sign table of [return_sign_for_err] has [2 n + 1] rows of
    [n] entries; row 0 is zero, and the rows at the odd positions, the only
    ones the error formulas read besides row 0, are the rows of the identity:
    one perturbation by +1 for each parameter and none by -1. *)
Theorem return_sign_for_err_plus_rows (n : nat) :
  length (return_sign_for_err n) = (2 * n + 1)%nat ∧
  Forall (λ row, length row = n) (return_sign_for_err n) ∧
  nth 0 (return_sign_for_err n) [] = replicate n 0 ∧
  odd_entries (return_sign_for_err n) =
    map (λ i, map (λ j, if Nat.eqb i j then 1 else 0) (seq 0 n)) (seq 0 n).
Proof.
  unfold return_sign_for_err. split; [|split; [|split]].
  - cbn [length]. rewrite length_flat_map_pairs, length_seq. lia.
  - apply Forall_cons. split; [by rewrite length_replicate|].
    apply Forall_forall. intros row Hrow. apply list_elem_of_In, in_flat_map in Hrow.
    destruct Hrow as (i & _ & [<-|[<-|[]]]); by rewrite length_map, length_seq.
  - done.
  - apply odd_entries_pairs.
Qed.

Lemma betastar_plus_shifts (b e w ew : R) :
  betastar b e w ew =
  (b + w ^ 2 / b,
   sqrt (((b + e) + w ^ 2 / (b + e) - (b + w ^ 2 / b)) ^ 2
         + ((b + (w + ew) ^ 2 / b) - (b + w ^ 2 / b)) ^ 2)).
Proof.
  unfold betastar. rewrite envelope_err_plus_rows.
  unfold return_sign_for_err, Rsum.
  cbn [seq flat_map map app nth odd_entries replicate foldr Nat.eqb].
  rewrite !Rmult_0_l, !Rmult_1_l, !Rplus_0_r. done.
Qed.

Lemma beta_inst_plus_shifts (plane : string) (position b e w ew : R) :
  beta_inst plane position (b, e, w, ew) =
  let d := (if String.eqb plane "Y" then - w else w) - position in
  (b + d ^ 2 / b,
   sqrt (((b + e) + d ^ 2 / (b + e) - (b + d ^ 2 / b)) ^ 2
         + ((b + (d + ew) ^ 2 / b) - (b + d ^ 2 / b)) ^ 2)).
Proof.
  unfold beta_inst. rewrite envelope_err_plus_rows.
  unfold inst_sign, Rsum. cbn [map nth odd_entries foldr].
  rewrite !Rmult_0_l, !Rmult_1_l, !Rplus_0_r. done.
Qed.

(** X16.  [calc_betastar] evaluates beta* = beta_w + w^2 / beta_w at the
    fitted values, and builds its error from two shifted evaluations only:
    beta_w raised by its error, and the waist raised by its error.  The
    evaluations with the errors subtracted do not enter. *)
Theorem calc_betastar_formula (bx ex wx ewx by_ ey wy ewy : R) :
  let star := λ b w : R, b + w ^ 2 / b in
  let err := λ b e w ew : R,
    sqrt ((star (b + e) w - star b w) ^ 2 + (star b (w + ew) - star b w) ^ 2) in
  calc_betastar ((bx, ex, wx, ewx), (by_, ey, wy, ewy)) =
  ((star bx wx, err bx ex wx ewx), (star by_ wy, err by_ ey wy ewy)).
Proof.
  intros star err. unfold calc_betastar. cbn [fst snd]. by rewrite !betastar_plus_shifts.
Qed.

(** X17.  At position 0 [calc_beta_inst] agrees with [calc_betastar]: in
    the X plane on value and error, in the Y plane, where the waist enters
    with the opposite sign, on the value. *)
Theorem beta_inst_at_the_interaction_point
    (name : string) (results_df : (R * R * R * R) * (R * R * R * R)) :
  let inst := calc_beta_inst name 0 results_df in
  let star := calc_betastar results_df in
  inst.1.1.1.1 = name ∧
  inst.1.1.1.2 = star.1.1 ∧ inst.1.1.2 = star.1.2 ∧ inst.1.2 = star.2.1.
Proof.
  destruct results_df as [[[[bx ex] wx] ewx] [[[by_ ey] wy] ewy]].
  cbv zeta. unfold calc_beta_inst, calc_betastar. cbn [fst snd].
  rewrite !betastar_plus_shifts, !beta_inst_plus_shifts. cbv zeta. cbn [fst snd].
  change (String.eqb "X" "Y") with false. change (String.eqb "Y" "Y") with true.
  cbv iota. rewrite !Rminus_0_r. repeat split.
  f_equal. f_equal. ring.
Qed.

(** X18.  With a positive beta at the waist, the beta function
    [calc_beta_inst] reports at an instrument is never below the beta at
    the waist, and equals it exactly when the instrument sits at the waist
    (at minus the waist in the Y plane). *)
Theorem beta_inst_is_smallest_at_the_waist
    (plane : string) (position b e w ew : R) :
  0 < b →
  let at_waist := if String.eqb plane "Y" then - w else w in
  b <= (beta_inst plane position (b, e, w, ew)).1 ∧
  ((beta_inst plane position (b, e, w, ew)).1 = b ↔ position = at_waist).
Proof.
  intros Hb at_waist. rewrite beta_inst_plus_shifts. cbv zeta. cbn [fst]. fold at_waist.
  set (d := at_waist - position).
  assert (Hd : 0 <= d ^ 2 / b).
  { apply Rmult_le_pos; [apply pow2_ge_0 | left; by apply Rinv_0_lt_compat]. }
  split; [lra|]. split.
  - intros H. assert (Hz : d ^ 2 / b = 0) by lra.
    assert (Hd2 : d ^ 2 = 0).
    { replace (d ^ 2) with (d ^ 2 / b * b) by (field; lra). rewrite Hz. ring. }
    assert (d = 0) by nra. unfold d in *. lra.
  - intros ->. unfold d. replace (at_waist - at_waist) with 0 by ring.
    unfold Rdiv. rewrite pow_i by lia. ring.
Qed.

(** X19.  [chi2] is a sum of two squares, hence never negative, and it
    does not read the average-beta error of the defocusing magnet: both of
    its terms take that error from the focusing magnet. *)
Theorem chi2_ignores_the_defocusing_error
    (x : R * R) (foc def : MagnetHeaders) (kmod_input_params : KmodInput)
    (sign : list R) (e : R) :
  0 <= chi2 x foc def kmod_input_params sign ∧
  chi2 x foc {| LENGTH := LENGTH def; K_AV := K_AV def; LSTAR := LSTAR def;
                AVBETA := AVBETA def; AVBETAERR := e |} kmod_input_params sign =
  chi2 x foc def kmod_input_params sign.
Proof.
  split; [|reflexivity]. unfold chi2.
  apply Rplus_le_le_0_compat; apply pow2_ge_0.
Qed.

Lemma modf_frac_small (q : R) : 0 <= q < 1 → modf_frac q = q.
Proof.
  intros Hq. unfold modf_frac. destruct (Rle_dec 0 q) as [_|Hn]; [|lra].
  destruct (Int_part_frac_part_spec q 0 q Hq) as [_ <-]; [simpl; ring | done].
Qed.

(** X20.  Without modulation [fit_prec] predicts no tune change only when
    the fractional tune lies in the lower half, between 0 and 1/2: there it
    returns 0 for every average beta, while for a fractional tune [f]
    between 1/2 and 1 it returns [1 - 2 f]. *)
Theorem fit_prec_without_modulation (q beta_av : R) :
  (0 <= modf_frac q <= 1 / 2 → fit_prec (0, q) beta_av = 0) ∧
  (1 / 2 < modf_frac q < 1 → fit_prec (0, q) beta_av = 1 - 2 * modf_frac q).
Proof.
  unfold fit_prec. cbn [fst snd]. set (f := modf_frac q).
  replace (cos (2 * PI * f) - 0.5 * beta_av * 0 * sin (2 * PI * f))
    with (cos (2 * PI * f)) by ring.
  pose proof PI_RGT_0 as Hpi. split; intros Hf.
  - rewrite acos_cos by nra. field. lra.
  - replace (cos (2 * PI * f)) with (cos (2 * PI - 2 * PI * f)).
    + rewrite acos_cos by nra. field. lra.
    + replace (2 * PI - 2 * PI * f) with (- (2 * PI * f) + 2 * INR 1 * PI) by (simpl; ring).
      by rewrite cos_period, cos_neg.
Qed.

Lemma fit_prec_without_modulation_witness :
  fit_prec (0, 1 / 4) 30 = 0 ∧ fit_prec (0, 3 / 4) 30 = 1 - 2 * (3 / 4).
Proof.
  destruct (fit_prec_without_modulation (1 / 4) 30) as [Hlow _].
  destruct (fit_prec_without_modulation (3 / 4) 30) as [_ Hhigh].
  rewrite (modf_frac_small (1 / 4)) in Hlow by lra.
  rewrite (modf_frac_small (3 / 4)) in Hhigh by lra.
  split; [apply Hlow | apply Hhigh]; lra.
Defined.

Lemma beta_inst_is_smallest_at_the_waist_witness :
  40 <= (beta_inst "X" 5 (40, 1, 2, 1)).1 ∧ (beta_inst "Y" (- 2) (40, 1, 2, 1)).1 = 40.
Proof.
  split.
  - apply (beta_inst_is_smallest_at_the_waist "X" 5 40 1 2 1). lra.
  - apply (beta_inst_is_smallest_at_the_waist "Y" (- 2) 40 1 2 1); [lra | reflexivity].
Defined.

Section kmod_analyse.
Context (W : World).

Lemma header_set_header (magnet_df : MagnetDf) (key key' : string) (v : R) :
  header (set_header key v magnet_df) key' =
  if decide (key = key') then inr v else header magnet_df key'.
Proof.
  unfold header, set_header, getitem. simpl. destruct (decide (key = key')) as [->|Hne].
  - by rewrite lookup_insert_eq.
  - by rewrite lookup_insert_ne.
Qed.

Lemma header_present (magnet_df : MagnetDf) (key : string) :
  is_Some (headers magnet_df !! key) → ∃ v, header magnet_df key = inr v.
Proof. intros [v Hv]. exists v. unfold header, getitem. by rewrite Hv. Qed.

Lemma present_set_header (magnet_df : MagnetDf) (key key' : string) (v : R) :
  is_Some (headers magnet_df !! key') →
  is_Some (headers (set_header key v magnet_df) !! key').
Proof.
  intros H. unfold set_header. simpl. destruct (decide (key = key')) as [->|Hne].
  - rewrite lookup_insert_eq. by eexists.
  - by rewrite lookup_insert_ne.
Qed.

(** The fit of one plane finds its input once the table has its
    polarity, length, average strength and average tune. *)
Lemma do_fit_returns (magnet_df : MagnetDf) (plane : string) :
  is_Some (headers magnet_df !! "POLARITY"%string) →
  is_Some (headers magnet_df !! "LENGTH"%string) →
  is_Some (headers magnet_df !! get_k_col W) →
  is_Some (headers magnet_df !! get_tune_col W plane) →
  ∃ r, do_fit W magnet_df plane = inr r.
Proof.
  intros Hp Hl Hk Ht. unfold do_fit, return_fit_input.
  destruct (header_present _ _ Hp) as [p ->]. destruct (header_present _ _ Hk) as [k ->].
  destruct (header_present _ _ Hl) as [l ->]. destruct (header_present _ _ Ht) as [t ->].
  simpl. eauto.
Qed.

Lemma get_av_beta_returns (magnet_df : MagnetDf) :
  is_Some (headers magnet_df !! "POLARITY"%string) →
  is_Some (headers magnet_df !! "LENGTH"%string) →
  is_Some (headers magnet_df !! get_k_col W) →
  is_Some (headers magnet_df !! get_tune_col W "X") →
  is_Some (headers magnet_df !! get_tune_col W "Y") →
  ∃ bx ex by_ ey,
    get_av_beta W magnet_df =
    inr (set_header (get_av_beta_err_col W "Y") ey
           (set_header (get_av_beta_col W "Y") by_
              (set_header (get_av_beta_err_col W "X") ex
                 (set_header (get_av_beta_col W "X") bx magnet_df)))).
Proof.
  intros Hp Hl Hk Hx Hy. unfold get_av_beta.
  destruct (do_fit_returns magnet_df "X" Hp Hl Hk Hx) as [[bx ex] ->]. simpl.
  destruct (do_fit_returns
              (set_header (get_av_beta_err_col W "X") ex
                 (set_header (get_av_beta_col W "X") bx magnet_df)) "Y")
    as [[by_ ey] ->]; try (by do 2 apply present_set_header).
  simpl. eauto 10.
Qed.

Lemma calc_headers_present (magnet_df : MagnetDf) (key : string) :
  is_Some (headers magnet_df !! key) ∨ key ∈ [get_tune_col W "X"; get_tune_col W "Y"; get_k_col W] →
  is_Some (headers (calc_k W (calc_tune W magnet_df)) !! key).
Proof.
  intros H. unfold calc_k, calc_tune.
  set (m1 := set_header (get_tune_col W "X") _ magnet_df).
  set (m2 := set_header (get_tune_col W "Y") _ m1).
  set (m3 := set_header (get_k_col W) _ m2).
  set (m4 := set_header (get_k_col W) _ m3).
  assert (H1 : is_Some (headers magnet_df !! key) ∨ key = get_tune_col W "X" →
               is_Some (headers m1 !! key)).
  { intros [Hs| ->]; [by apply present_set_header|].
    unfold m1, set_header. simpl. rewrite lookup_insert_eq. by eexists. }
  assert (H2 : is_Some (headers m1 !! key) ∨ key = get_tune_col W "Y" →
               is_Some (headers m2 !! key)).
  { intros [Hs| ->]; [by apply present_set_header|].
    unfold m2, set_header. simpl. rewrite lookup_insert_eq. by eexists. }
  assert (H3 : is_Some (headers m2 !! key) ∨ key = get_k_col W →
               is_Some (headers m3 !! key)).
  { intros [Hs| ->]; [by apply present_set_header|].
    unfold m3, set_header. simpl. rewrite lookup_insert_eq. by eexists. }
  apply present_set_header. destruct H as [Hs|Hk]; [auto 10|].
  apply elem_of_cons in Hk as [Hk|Hk]; [auto 10|].
  apply elem_of_cons in Hk as [Hk|Hk]; [auto 10|].
  apply elem_of_cons in Hk as [Hk|Hk]; [auto 10|]. by apply elem_of_nil in Hk.
Qed.

Lemma calc_headers_kept (magnet_df : MagnetDf) (key : string) :
  key ∉ [get_tune_col W "X"; get_tune_col W "Y"; get_k_col W] →
  headers (calc_k W (calc_tune W magnet_df)) !! key = headers magnet_df !! key.
Proof.
  intros Hk. unfold calc_k, calc_tune, set_header. simpl.
  rewrite !lookup_insert_ne; [done | | | |]; intros <-; apply Hk;
    repeat ((by left) || apply elem_of_cons; right).
Qed.

(** X21.  Two magnets whose POLARITY headers are not one +1 and one -1
    take [analyse] through the averages and the four fits of the average
    beta, and then stop it with a [TypeError] at the first search for the
    focusing magnet; no result table is built. *)
Theorem analyse_stops_on_unrecognized_polarity
    (magnet1_df magnet2_df : MagnetDf) (kmod_input_params : KmodInput) (p1 p2 : R) :
  headers magnet1_df !! "POLARITY"%string = Some p1 →
  headers magnet2_df !! "POLARITY"%string = Some p2 →
  is_Some (headers magnet1_df !! "LENGTH"%string) →
  is_Some (headers magnet2_df !! "LENGTH"%string) →
  "POLARITY"%string ∉ [get_tune_col W "X"; get_tune_col W "Y"; get_k_col W;
                       get_av_beta_col W "X"; get_av_beta_err_col W "X";
                       get_av_beta_col W "Y"; get_av_beta_err_col W "Y"] →
  ¬ (p1 = 1 ∧ p2 = -1) → ¬ (p1 = -1 ∧ p2 = 1) →
  analyse W magnet1_df magnet2_df kmod_input_params = inl TypeError.
Proof.
  intros Hp1 Hp2 Hl1 Hl2 Hnames Hfd Hdf.
  assert (Hcalc : "POLARITY"%string ∉ [get_tune_col W "X"; get_tune_col W "Y"; get_k_col W]).
  { intros Hin. apply Hnames.
    repeat (apply elem_of_cons in Hin as [->|Hin];
            [repeat ((by left) || apply elem_of_cons; right)|]).
    by apply elem_of_nil in Hin. }
  assert (Hfit : ∀ m p, headers m !! "POLARITY"%string = Some p →
            is_Some (headers m !! "LENGTH"%string) →
            ∃ m', get_av_beta W (calc_k W (calc_tune W m)) = inr m' ∧
                  headers m' !! "POLARITY"%string = Some p).
  { intros m p Hp Hl.
    destruct (get_av_beta_returns (calc_k W (calc_tune W m))) as (bx & ex & by_ & ey & ->).
    - apply calc_headers_present. left. rewrite Hp. by eexists.
    - apply calc_headers_present. by left.
    - apply calc_headers_present. right. do 2 (apply elem_of_cons; right). by left.
    - apply calc_headers_present. right. by left.
    - apply calc_headers_present. right. apply elem_of_cons. right. by left.
    - eexists. split; [reflexivity|].
      rewrite <- Hp, <- (calc_headers_kept m "POLARITY" Hcalc).
      unfold set_header. cbn [headers].
      rewrite !lookup_insert_ne; [done | | | |];
        intros Heq; apply Hnames; rewrite <- Heq;
        repeat ((by left) || apply elem_of_cons; right). }
  destruct (Hfit magnet1_df p1 Hp1 Hl1) as (m1 & Hm1 & Hq1).
  destruct (Hfit magnet2_df p2 Hp2 Hl2) as (m2 & Hm2 & Hq2).
  unfold analyse. rewrite Hm1. simpl. rewrite Hm2. simpl.
  rewrite (get_beta_waist_unpacks W m1 m2 kmod_input_params "X"); [done|].
  by apply (return_df_unrecognized m1 m2 "X" p1 p2).
Qed.
End kmod_analyse.

Lemma analyse_stops_on_unrecognized_polarity_witness :
  analyse demo_world three_steps three_steps demo_input = inl TypeError.
Proof.
  apply (analyse_stops_on_unrecognized_polarity demo_world three_steps
           three_steps demo_input 1 1).
  - reflexivity.
  - reflexivity.
  - by eexists.
  - by eexists.
  - apply (bool_decide_unpack _). vm_compute. exact I.
  - lra.
  - lra.
Defined.
End kmod_more.

(** ** tune_analysis/bbq_tools.py: further properties *)

Section bbq_more.
Import BbqTools.
Local Open Scope Z_scope.

Lemma bfill_length (s : Series) : length (bfill s) = length s.
Proof.
  induction s as [|x s IH]; simpl; [done|]. destruct x; simpl; by rewrite IH.
Qed.

(** Filling leaves the entries that hold a number where they are. *)
Lemma bfill_keeps (s : Series) (j : nat) (v : Q) :
  s !! j = Some (Some v) → bfill s !! j = Some (Some v).
Proof.
  revert j. induction s as [|x s IH]; intros j Hj; [done|].
  destruct j as [|j]; simpl in *.
  - injection Hj as ->. done.
  - destruct x; simpl; by apply IH.
Qed.

Lemma rev_lookup {A : Type} (l : list A) (i : nat) :
  (i < length l)%nat → rev l !! i = l !! (length l - S i)%nat.
Proof.
  intros Hi. rewrite rev_alt. change (rev_append l []) with (reverse l).
  by apply reverse_lookup.
Qed.

Lemma ffill_keeps (s : Series) (j : nat) (v : Q) :
  s !! j = Some (Some v) → ffill s !! j = Some (Some v).
Proof.
  intros Hj. unfold ffill, Series in *.
  pose proof (lookup_lt_Some _ _ _ Hj) as Hlt.
  rewrite rev_lookup by (rewrite bfill_length, length_rev; lia).
  rewrite bfill_length, length_rev. apply bfill_keeps. unfold Series.
  rewrite rev_lookup by lia.
  rewrite <- Hj. f_equal. lia.
Qed.

(** [series.shift(-k)[j] = series[j + k]] *)
Lemma shift_back_lookup (k : nat) (s : Series) (j : nat) :
  (j + k < length s)%nat → shift (- Z.of_nat k) s !! j = s !! (j + k)%nat.
Proof.
  intros Hj. unfold shift, Series in *. destruct (Z.ltb_spec (- Z.of_nat k) 0) as [Hk|Hk].
  - replace (Z.to_nat (- - Z.of_nat k)) with k by lia.
    rewrite lookup_app_l by (rewrite length_drop; lia).
    rewrite lookup_drop. f_equal. lia.
  - assert (k = 0%nat) as -> by lia. simpl.
    rewrite Nat.min_0_r, Nat.sub_0_r, firstn_all. simpl. f_equal. lia.
Qed.

(** X22.  The moving average is centred as the docstring of
    [get_moving_average] says.  With a window of [length >= 1] entries and
    [k = floor((length - 1) / 2)], [_get_interpolated_moving_average]
    returns, and the value it reports at position [j] is the rolling mean of
    the window ending at position [j + k], whenever that mean is a number:
    the window reaches [k] entries ahead of [j].  The same holds for the
    standard deviation. *)
Theorem moving_average_is_centred
    (W : World) (data_series : Series) (clean_mask : list bool) (length : Z)
    (j : nat) (v : Q) :
  1 ≤ length →
  let k := Z.to_nat ((length - 1) `quot` 2) in
  let data :=
    ffill (bfill (interpolate_index W
      (zip_with (λ (x : option Q) (m : bool), if m then None else x)
         data_series clean_mask))) in
  ∃ data_mav std_mav,
    _get_interpolated_moving_average W data_series clean_mask length =
      inr (data_mav, std_mav) ∧
    (rolling_mean W length data !! (j + k)%nat = Some (Some v) →
     data_mav !! j = Some (Some v)) ∧
    (rolling_std W length data !! (j + k)%nat = Some (Some v) →
     std_mav !! j = Some (Some v)).
Proof.
  intros Hlen k data. unfold _get_interpolated_moving_average. fold data.
  destruct (Z.ltb_spec length 0) as [Hneg|_]; [lia|].
  do 2 eexists. split; [reflexivity|].
  assert (Hk : - (length - 1) `quot` 2 = - Z.of_nat k).
  { unfold k. rewrite Z2Nat.id; [done|]. apply Z.quot_pos; lia. }
  rewrite Hk. split; intros Hr; apply ffill_keeps, bfill_keeps;
    (rewrite shift_back_lookup; [done | by eapply lookup_lt_Some]).
Qed.

Lemma moving_average_is_centred_witness :
  ∃ data_mav std_mav,
    _get_interpolated_moving_average demo_world demo_series
      (cut_mask demo_series (Some (1 # 10)%Q) (Some (1 # 2)%Q)) 3 = inr (data_mav, std_mav) ∧
    data_mav !! 0%nat = Some (Some (29 # 100)%Q).
Proof.
  destruct (moving_average_is_centred demo_world demo_series
              (cut_mask demo_series (Some (1 # 10)%Q) (Some (1 # 2)%Q)) 3 0 (29 # 100)%Q)
    as (data_mav & std_mav & Hrun & Hmean & _); [lia|].
  exists data_mav, std_mav. split; [done|]. apply Hmean. vm_compute. reflexivity.
Defined.

Lemma shift_length (k : Z) (s : Series) : length (shift k s) = length s.
Proof.
  unfold shift, Series in *. destruct (k <? 0).
  - rewrite length_app, length_drop, length_replicate. lia.
  - rewrite length_app, length_replicate, length_take. lia.
Qed.

(** Backward filling turns every entry in front of a number into a
    number. *)
Lemma bfill_before (s : Series) (i j : nat) (v : Q) :
  s !! i = Some (Some v) → (j ≤ i)%nat → ∃ v', bfill s !! j = Some (Some v').
Proof.
  revert i j. induction s as [|x s IH]; intros i j Hi Hj; [done|].
  destruct i as [|i].
  - assert (j = 0%nat) as -> by lia. simpl in Hi. injection Hi as ->. simpl. eauto.
  - simpl in Hi. destruct j as [|j].
    + destruct (IH i 0%nat Hi) as [v' Hv']; [lia|].
      destruct x as [q|]; simpl; [eauto|].
      destruct (bfill s) as [|y r]; [done|]. simpl in Hv'. injection Hv' as ->. eauto.
    + destruct (IH i j Hi) as [v' Hv']; [lia|]. exists v'.
      by destruct x.
Qed.

Lemma ffill_length (s : Series) : length (ffill s) = length s.
Proof. unfold ffill. by rewrite length_rev, bfill_length, length_rev. Qed.

Lemma ffill_after (s : Series) (i j : nat) (v : Q) :
  s !! i = Some (Some v) → (i ≤ j < length s)%nat → ∃ v', ffill s !! j = Some (Some v').
Proof.
  intros Hi Hj. unfold ffill, Series in *.
  pose proof (lookup_lt_Some _ _ _ Hi) as Hlt.
  rewrite rev_lookup by (rewrite bfill_length, length_rev; lia).
  rewrite bfill_length, length_rev.
  apply (bfill_before _ (length s - S i)%nat _ v); [|lia]. unfold Series.
  rewrite rev_lookup by lia. rewrite <- Hi. f_equal. lia.
Qed.

Lemma fill_both_ways (s : Series) (i j : nat) (v : Q) :
  s !! i = Some (Some v) → (j < length s)%nat → ∃ v', ffill (bfill s) !! j = Some (Some v').
Proof.
  intros Hi Hj. destruct (decide (j ≤ i)%nat) as [Hle|Hgt].
  - destruct (bfill_before s i j v Hi Hle) as [v' Hv']. exists v'. by apply ffill_keeps.
  - apply (ffill_after _ i j v); [by apply bfill_keeps | rewrite bfill_length; lia].
Qed.

(** X23.  The moving average has no gaps: with a window of
    [length >= 1] entries, as soon as the rolling mean holds one number at or
    after position [k = floor((length - 1) / 2)], every entry of the series
    [_get_interpolated_moving_average] returns is a number; the ends the
    rolling window and the shift leave empty are filled from the nearest
    value. *)
Theorem moving_average_has_no_gaps
    (W : World) (data_series : Series) (clean_mask : list bool) (length : Z)
    (i : nat) (v : Q) :
  1 ≤ length →
  let k := Z.to_nat ((length - 1) `quot` 2) in
  let data :=
    ffill (bfill (interpolate_index W
      (zip_with (λ (x : option Q) (m : bool), if m then None else x)
         data_series clean_mask))) in
  rolling_mean W length data !! (i + k)%nat = Some (Some v) →
  ∃ data_mav std_mav,
    _get_interpolated_moving_average W data_series clean_mask length =
      inr (data_mav, std_mav) ∧
    List.length data_mav = List.length (rolling_mean W length data) ∧
    ∀ j, (j < List.length (rolling_mean W length data))%nat →
      ∃ v', data_mav !! j = Some (Some v').
Proof.
  intros Hlen k data Hr. unfold _get_interpolated_moving_average. fold data.
  destruct (Z.ltb_spec length 0) as [Hneg|_]; [lia|].
  do 2 eexists. split; [reflexivity|].
  assert (Hk : - (length - 1) `quot` 2 = - Z.of_nat k).
  { unfold k. rewrite Z2Nat.id; [done|]. apply Z.quot_pos; lia. }
  rewrite Hk. split; [by rewrite ffill_length, bfill_length, shift_length|].
  intros j Hj. apply (fill_both_ways _ i j v); [|by rewrite shift_length].
  rewrite shift_back_lookup; [done | by eapply lookup_lt_Some].
Qed.

Lemma moving_average_has_no_gaps_witness :
  ∃ data_mav std_mav v',
    _get_interpolated_moving_average demo_world demo_series
      (cut_mask demo_series (Some (1 # 10)%Q) (Some (1 # 2)%Q)) 3 = inr (data_mav, std_mav) ∧
    data_mav !! 4%nat = Some (Some v').
Proof.
  destruct (moving_average_has_no_gaps demo_world demo_series
              (cut_mask demo_series (Some (1 # 10)%Q) (Some (1 # 2)%Q)) 3 0 (29 # 100)%Q)
    as (data_mav & std_mav & Hrun & _ & Hall); [lia | vm_compute; reflexivity |].
  destruct (Hall 4%nat) as [v' Hv']; [vm_compute; lia|].
  by exists data_mav, std_mav, v'.
Defined.

(** X24.  Without fine cleaning, with a window [length >= 0] and more
    than [length] points surviving the bounds, [get_moving_average] returns
    the averages of the single pass together with a mask as long as the
    series that is set exactly on the points that are NaN, at or below
    [min_val], or at or above [max_val].  A negative [length] passes the
    guard on the surviving points and is then refused by [rolling] with a
    [ValueError]. *)
Theorem moving_average_single_pass
    (W : World) (data_series : Series) (length : Z) (min_val max_val : option Q)
    (fine_cut : option Q) :
  truthy_Q fine_cut = false →
  (0 ≤ length →
   length + 1 ≤ Z.of_nat (List.length (List.filter (survives min_val max_val) data_series)) →
   ∃ data_mav std_mav cut,
     get_moving_average W data_series length min_val max_val None fine_cut =
       inr (data_mav, std_mav, cut) ∧
     _get_interpolated_moving_average W data_series cut length = inr (data_mav, std_mav) ∧
     List.length cut = List.length data_series ∧
     ∀ i x, data_series !! i = Some x → cut !! i = Some (negb (survives min_val max_val x))) ∧
  (length < 0 →
   get_moving_average W data_series length min_val max_val None fine_cut = inl ValueError).
Proof.
  intros Hfc.
  pose proof (mask_not_cut_mask data_series min_val max_val) as Hmask.
  destruct (is_almost_empty_mask_spec
              (mask_not (cut_mask data_series min_val max_val)) length) as [_ Hpass].
  split.
  - intros Hlen Hs.
    assert (Hcut : List.length (cut_mask data_series min_val max_val) =
                   List.length data_series).
    { rewrite <- (length_map negb). fold (mask_not (cut_mask data_series min_val max_val)).
      by rewrite Hmask, length_map. }
    destruct (_get_interpolated_moving_average W data_series
                (cut_mask data_series min_val max_val) length) as [e|[data_mav std_mav]] eqn:Hrun.
    { unfold _get_interpolated_moving_average in Hrun.
      destruct (Z.ltb_spec length 0); [lia | discriminate]. }
    exists data_mav, std_mav, (cut_mask data_series min_val max_val).
    split; [|split; [done|split; [done|]]].
    + unfold get_moving_average. rewrite Hfc. simpl.
      rewrite Hpass by (by rewrite mask_sum_survivors). simpl. by rewrite Hrun.
    + intros i x Hx. unfold Series in *.
      assert (Hi : mask_not (cut_mask data_series min_val max_val) !! i =
                   Some (survives min_val max_val x)).
      { by rewrite Hmask, list_lookup_fmap, Hx. }
      unfold mask_not in Hi. rewrite list_lookup_fmap in Hi.
      destruct (cut_mask data_series min_val max_val !! i) as [b|]; [|done].
      simpl in Hi. injection Hi as <-. by rewrite negb_involutive.
  - intros Hneg. unfold get_moving_average. rewrite Hfc. simpl.
    rewrite Hpass by (unfold mask_sum; lia). simpl.
    unfold _get_interpolated_moving_average.
    by destruct (Z.ltb_spec length 0); [|lia].
Qed.

Lemma moving_average_single_pass_witness :
  (∃ data_mav std_mav cut,
     get_moving_average demo_world demo_series 2 (Some (1 # 10)%Q) (Some (1 # 2)%Q) None None =
       inr (data_mav, std_mav, cut) ∧
     List.length cut = 5%nat ∧ cut !! 2%nat = Some true) ∧
  get_moving_average demo_world demo_series (-1) (Some (1 # 10)%Q) (Some (1 # 2)%Q) None None =
    inl ValueError.
Proof.
  destruct (moving_average_single_pass demo_world demo_series 2
              (Some (1 # 10)%Q) (Some (1 # 2)%Q) None eq_refl) as [Hok _].
  destruct (moving_average_single_pass demo_world demo_series (-1)
              (Some (1 # 10)%Q) (Some (1 # 2)%Q) None eq_refl) as [_ Hneg].
  split.
  - destruct Hok as (data_mav & std_mav & cut & Hrun & _ & Hlen & Hcut);
      [lia | vm_compute; discriminate |].
    exists data_mav, std_mav, cut. split; [done|]. split; [done|].
    by apply (Hcut 2%nat None).
  - apply Hneg. lia.
Defined.
End bbq_more.

(** ** tune_analysis/detuning_tools.py *)

Section detuning.
Import DetuningTools.
Local Open Scope Q_scope.

Lemma foldl_Qplus_shift (a : Q) (l : list Q) : foldl Qplus a l == a + foldl Qplus 0 l.
Proof.
  revert a. induction l as [|x l IH]; intros a; simpl; [lra|].
  rewrite (IH (a + x)), (IH (0 + x)). lra.
Qed.

Lemma foldl_Qplus_zeros (l : list Q) : Forall (λ t, t == 0) l → foldl Qplus 0 l == 0.
Proof.
  induction 1 as [|x l Hx _ IH]; simpl; [lra|].
  rewrite foldl_Qplus_shift, IH, Hx. lra.
Qed.

(** The terms [poly_func] sums when [beta] has a coefficient for each. *)
Lemma poly_func_terms (order : Z) (beta : list Q) (x : Q) :
  (Z.to_nat (order + 1) ≤ length beta)%nat →
  poly_func order beta x =
  inr (foldl Qplus 0 (map (λ i, default 0 (beta !! i) * x ^ Z.of_nat i) (range (order + 1)))).
Proof.
  intros Hlen. unfold poly_func.
  rewrite (mapM_total _ (λ i, default 0 (beta !! i) * x ^ Z.of_nat i)); [done|].
  intros i Hi%elem_of_seq.
  destruct (lookup_lt_is_Some_2 beta i) as [b ->]; [lia | done].
Qed.

(** X25.  The polynomial of [get_poly_fun] needs [order + 1]
    coefficients: with that many it returns a value, with fewer it raises
    [IndexError]. *)
Theorem poly_func_needs_order_plus_one_coefficients (order : Z) (beta : list Q) (x : Q) :
  ((Z.to_nat (order + 1) ≤ length beta)%nat → ∃ y, poly_func order beta x = inr y) ∧
  ((length beta < Z.to_nat (order + 1))%nat → poly_func order beta x = inl IndexError).
Proof.
  split.
  - intros Hlen. rewrite poly_func_terms by done. eauto.
  - intros Hlen. unfold poly_func, range.
    assert (H : ∀ n start, (start ≤ length beta < start + n)%nat →
              mapM (λ i, match beta !! i with
                         | Some b => mret (b * x ^ Z.of_nat i)
                         | None => raise IndexError
                         end) (seq start n) = inl IndexError).
    { induction n as [|n IH]; intros start Hs; [lia|]. simpl.
      destruct (beta !! start) as [b|] eqn:Hb; simpl.
      - apply lookup_lt_Some in Hb. rewrite IH by lia. done.
      - done. }
    rewrite H by lia. done.
Qed.

Lemma poly_func_needs_order_plus_one_coefficients_witness :
  (∃ y, poly_func 1 [1; 2] (1 # 2) = inr y) ∧ poly_func 2 [1; 2] (1 # 2) = inl IndexError.
Proof.
  destruct (poly_func_needs_order_plus_one_coefficients 1 [1; 2] (1 # 2)) as [Hok _].
  destruct (poly_func_needs_order_plus_one_coefficients 2 [1; 2] (1 # 2)) as [_ Hbad].
  split; [apply Hok | apply Hbad]; simpl; lia.
Defined.

(** X26.  The convention of the module: [beta[0]] is the y-axis offset.
    At [x = 0] the polynomial of any order [>= 0] takes the value
    [beta[0]]. *)
Theorem poly_func_offset (order : Z) (beta : list Q) (b0 : Q) :
  (0 <= order)%Z → (Z.to_nat (order + 1) ≤ length beta)%nat → beta !! 0%nat = Some b0 →
  ∃ y, poly_func order beta 0 = inr y ∧ y == b0.
Proof.
  intros Ho Hlen Hb. rewrite poly_func_terms by done. eexists. split; [reflexivity|].
  unfold range. replace (Z.to_nat (order + 1)) with (S (Z.to_nat order)) by lia.
  cbn [seq map foldl]. rewrite Hb. simpl default.
  rewrite foldl_Qplus_shift, foldl_Qplus_zeros.
  - change (0 ^ Z.of_nat 0) with 1. lra.
  - apply Forall_forall. intros t (i & -> & Hi%elem_of_seq)%list_elem_of_fmap.
    destruct i as [|i]; [lia|].
    assert (Hz : 0 ^ Z.of_nat (S i) == 0) by (apply Qpower.Qpower_0; lia).
    rewrite Hz. lra.
Qed.

Lemma poly_func_offset_witness :
  ∃ y, poly_func 2 [3 # 10; 5; 7] 0 = inr y ∧ y == 3 # 10.
Proof.
  apply (poly_func_offset 2 [3 # 10; 5; 7] (3 # 10)); [lia | simpl; lia | reflexivity].
Defined.

(** X27.  The initial guess of [do_odr], [[0.] + [1.] * order], has
    [order + 1] entries for [order >= 0], so the model function of that
    order evaluates on it without an [IndexError]; its first coefficient,
    the offset, starts at 0. *)
Theorem odr_initial_guess_fits_the_model (order : Z) (x : Q) :
  (0 <= order)%Z →
  length (beta0 order) = Z.to_nat (order + 1) ∧
  beta0 order !! 0%nat = Some 0 ∧
  ∃ y, poly_func order (beta0 order) x = inr y.
Proof.
  intros Ho.
  assert (Hlen : length (beta0 order) = Z.to_nat (order + 1)).
  { unfold beta0. cbn [length]. rewrite length_replicate. lia. }
  split; [done|]. split; [done|].
  rewrite poly_func_terms by lia. eauto.
Qed.

Lemma odr_initial_guess_fits_the_model_witness :
  length (beta0 2) = 3%nat ∧ beta0 2 !! 0%nat = Some 0 ∧
  ∃ y, poly_func 2 (beta0 2) (1 # 2) = inr y.
Proof. apply (odr_initial_guess_fits_the_model 2 (1 # 2)). lia. Defined.
End detuning.
